(** * Glac an Giomach: the lobster-trapping engine of [public/game.js]

    A shallow embedding of the classes [HexGridSquare], [LobsterToken] and
    [Game1Board], followed by the properties of the breadth-first escape
    search, of the turn resolution and of the round reset; then the parts of
    the page around them: the tile handler, the tutorial boards, the round
    timer, and the card game [CardMatchingGame].

    Conventions of the embedding.
    - Coordinates are JavaScript numbers holding integers, modelled as
      [Z].  The two agree as long as the arithmetic stays within the
      integers a number holds exactly, those of magnitude up to 2^53; the
      coordinates of the boards of the page are below 12.  Statements about
      arbitrary cells carry that bound ([safeSquare]).
    - [HexGridSquare.hash()] builds the string [x,y]; on integers that
      string determines the pair and [key.split(',').map(Number)] reads the
      pair back, so a key is modelled as the pair itself.
    - [blockedSet] is a [Set] of keys used through [has]/[add]/[clear]
      only: a [gset].  [parent] is a [Map] from keys to a key or [null]:
      a [gmap] to [option key].  [boardSquares] is a [Map] whose values are
      never read by the engine; its keys are kept in insertion order because
      [Array.from(boardSquares.values())] exposes that order.
    - The two [while] loops of the search take a fuel argument; the fuel
      handed to them is shown to be sufficient on every input.
    - Timers ([setTimeout]) are pending callbacks of the world state;
      [Math.random] and the DOM look-ups are inputs of the events. *)

From stdpp Require Import gmap list.
From Stdlib Require Import ZArith Lia.

Local Open Scope Z_scope.

(** ** HexGridSquare *)

(** The field [blocked] of the source is written once ([false]) and never
    read; it is not carried. *)
Record HexGridSquare := mkSquare { sq_x : Z; sq_y : Z }.

Abbreviation key := (Z * Z)%type.

Definition hash (s : HexGridSquare) : key := (sq_x s, sq_y s).

(** [const [cx, cy] = key.split(',').map(Number); new HexGridSquare(cx, cy)] *)
Definition unhash (k : key) : HexGridSquare := mkSquare (fst k) (snd k).

Definition equals (a b : HexGridSquare) : bool :=
  (sq_x a =? sq_x b) && (sq_y a =? sq_y b).

(** JavaScript's [%] truncates towards zero, hence [Z.rem]. *)
Definition oddRow (s : HexGridSquare) : bool := Z.rem (sq_y s) 2 =? 1.

Definition directions (s : HexGridSquare) : list (Z * Z) :=
  if oddRow s
  then [(-1, 0); (1, 0); (0, -1); (1, -1); (0, 1); (1, 1)]
  else [(-1, 0); (1, 0); (-1, -1); (0, -1); (-1, 1); (0, 1)].

Definition getNeighbors (s : HexGridSquare) : list HexGridSquare :=
  (fun d => mkSquare (sq_x s + fst d) (sq_y s + snd d)) <$> directions s.

(** The edge test written twice in the source (in the search and in
    [getNextStep]). *)
Definition onEdge (s : HexGridSquare) (gridWidth gridHeight : Z) : bool :=
  (sq_x s =? 0) || (sq_x s =? gridWidth - 1) ||
  (sq_y s =? 0) || (sq_y s =? gridHeight - 1).

(** ** LobsterToken *)

Record LobsterToken := mkLobster { position : HexGridSquare; rotation : Z }.

(** [boardSquares.has(k)], on the insertion-ordered key list. *)
Definition boardHas (boardSquares : list key) (k : key) : bool :=
  bool_decide (k ∈ boardSquares).

(** [blockedSet.has(k)] *)
Definition setHas (s : gset key) (k : key) : bool := bool_decide (k ∈ s).

(** [parent.has(k)] *)
Definition mapHas (parent : gmap key (option key)) (k : key) : bool :=
  bool_decide (is_Some (parent !! k)).

(** [parent.get(k)]: [undefined] for a missing key and [null] for the
    start are both falsy, which is all the caller looks at. *)
Definition mapGet (parent : gmap key (option key)) (k : key) : option key :=
  default None (parent !! k).

Section Search.

Variable blockedSet : gset key.
Variable boardSquares : list key.
Variables gridWidth gridHeight : Z.

(** Body of [for (const neighbor of current.getNeighbors())]. *)
Definition visit (k : key) (st : list key * gmap key (option key))
           (neighbor : HexGridSquare) : list key * gmap key (option key) :=
  let nk := hash neighbor in
  if negb (mapHas st.2 nk) && boardHas boardSquares nk && negb (setHas blockedSet nk)
  then (st.1 ++ [nk], <[nk := Some k]> st.2)
  else st.

Definition expand (k : key) (queue : list key) (parent : gmap key (option key))
  : list key * gmap key (option key) :=
  fold_left (visit k) (getNeighbors (unhash k)) (queue, parent).

(** [while (k) { path.unshift(...); k = parent.get(k); }] *)
Fixpoint buildPath (fuel : nat) (parent : gmap key (option key))
         (k : option key) (path : list HexGridSquare)
  : option (list HexGridSquare) :=
  match k with
  | None => Some path
  | Some k' =>
      match fuel with
      | O => None
      | S fuel' => buildPath fuel' parent (mapGet parent k') (unhash k' :: path)
      end
  end.

(** [while (queue.length) { ... }]; the outer [option] is [None] when the
    fuel runs out, the inner one is the [null] of the source. *)
Fixpoint bfsLoop (fuel : nat) (queue : list key) (parent : gmap key (option key))
  : option (option (list HexGridSquare)) :=
  match fuel with
  | O => None
  | S fuel' =>
      match queue with
      | [] => Some None
      | k :: rest =>
          if onEdge (unhash k) gridWidth gridHeight
          then Some <$> buildPath (size parent) parent (Some k) []
          else let '(queue', parent') := expand k rest parent in
               bfsLoop fuel' queue' parent'
      end
  end.

(** The same loop, keeping only the keys handed to [queue.push], in order
    (used to count how often a cell is queued). *)
Fixpoint bfsPushed (fuel : nat) (queue : list key) (parent : gmap key (option key))
  : list key :=
  match fuel with
  | O => []
  | S fuel' =>
      match queue with
      | [] => []
      | k :: rest =>
          if onEdge (unhash k) gridWidth gridHeight
          then []
          else let '(queue', parent') := expand k rest parent in
               drop (length rest) queue' ++ bfsPushed fuel' queue' parent'
      end
  end.

(** Fuel for the search loop: one iteration for the start, one for each
    board key, and one to see the queue empty. *)
Definition searchFuel : nat := S (S (length boardSquares)).

(** [findShortestEscapePath(blockedSet, boardSquares, gridWidth, gridHeight)]
    with [start] for [this.position]: the queue starts as [[startKey]] and
    the parent map as [startKey -> null]. *)
Definition findShortestEscapePath_run (start : HexGridSquare)
  : option (option (list HexGridSquare)) :=
  bfsLoop searchFuel [hash start] {[ hash start := None ]}.

(** The value returned, [None] for [null] (the run never lacks fuel, see
    [run_total] below). *)
Definition findShortestEscapePath (start : HexGridSquare)
  : option (list HexGridSquare) :=
  default None (findShortestEscapePath_run start).

(** [getNextStep]: the pair [(nextPos, escapedIfMove)], [None] for [null]. *)
Definition getNextStep (start : HexGridSquare) : option HexGridSquare * bool :=
  match findShortestEscapePath start with
  | None => (None, false)
  | Some path =>
      if bool_decide (length path ≤ 1)%nat then (None, false)
      else match path !! 1%nat with
           | Some nextPos => (Some nextPos, onEdge nextPos gridWidth gridHeight)
           | None => (None, false)
           end
  end.

End Search.

(** [boardSquares.set(square.hash(), square)]: a key already present keeps
    its place. *)
Definition setBoard (boardSquares : list key) (k : key) : list key :=
  if boardHas boardSquares k then boardSquares else boardSquares ++ [k].

(** The two nested [for] loops of [initializeBoard], columns outermost. *)
Definition initializeBoard (boardSquares : list key) (gridWidth gridHeight : Z) : list key :=
  fold_left (fun b x => fold_left (fun b' y => setBoard b' (x, y)) (seqZ 0 gridHeight) b)
            (seqZ 0 gridWidth) boardSquares.

Definition board11x10 : list key := Eval vm_compute in initializeBoard [] 11 10.

(** [getRotationForDirection]: presentation only, never read by a decision. *)
Definition getRotationForDirection (l : LobsterToken) (newPos : HexGridSquare) : Z :=
  let dx := sq_x newPos - sq_x (position l) in
  let dy := sq_y newPos - sq_y (position l) in
  let odd := oddRow (position l) in
  if (dx =? 1) && (dy =? 0) then 90
  else if (dx =? -1) && (dy =? 0) then 270
  else if (dy =? -1) && odd && (dx =? 1) then 30
  else if (dy =? -1) && odd && (dx =? 0) then 330
  else if (dy =? -1) && negb odd && (dx =? 0) then 30
  else if (dy =? -1) && negb odd && (dx =? -1) then 330
  else if (dy =? 1) && odd && (dx =? 1) then 150
  else if (dy =? 1) && odd && (dx =? 0) then 210
  else if (dy =? 1) && negb odd && (dx =? 0) then 150
  else if (dy =? 1) && negb odd && (dx =? -1) then 210
  else rotation l.

(** ** Game1Board *)

Record Game1Board := mkBoard {
  blockedSet : gset key;
  lobster : LobsterToken;
  gameOver : bool;
  gameLost : bool;
  isAnimating : bool;
  isEscaping : bool;
  gridWidth : Z;
  gridHeight : Z;
  boardSquares : list key
}.

Definition withBlockedSet (b : Game1Board) (v : gset key) : Game1Board :=
  mkBoard v (lobster b) (gameOver b) (gameLost b) (isAnimating b) (isEscaping b)
          (gridWidth b) (gridHeight b) (boardSquares b).

Definition withLobster (b : Game1Board) (v : LobsterToken) : Game1Board :=
  mkBoard (blockedSet b) v (gameOver b) (gameLost b) (isAnimating b) (isEscaping b)
          (gridWidth b) (gridHeight b) (boardSquares b).

Definition withGameOver (b : Game1Board) (v : bool) : Game1Board :=
  mkBoard (blockedSet b) (lobster b) v (gameLost b) (isAnimating b) (isEscaping b)
          (gridWidth b) (gridHeight b) (boardSquares b).

Definition withGameLost (b : Game1Board) (v : bool) : Game1Board :=
  mkBoard (blockedSet b) (lobster b) (gameOver b) v (isAnimating b) (isEscaping b)
          (gridWidth b) (gridHeight b) (boardSquares b).

Definition withAnimating (b : Game1Board) (v : bool) : Game1Board :=
  mkBoard (blockedSet b) (lobster b) (gameOver b) (gameLost b) v (isEscaping b)
          (gridWidth b) (gridHeight b) (boardSquares b).

Definition withEscaping (b : Game1Board) (v : bool) : Game1Board :=
  mkBoard (blockedSet b) (lobster b) (gameOver b) (gameLost b) (isAnimating b) v
          (gridWidth b) (gridHeight b) (boardSquares b).

(** [spawnLobster]: a new token (rotation 0) at
    [(Math.floor(gridWidth / 2), Math.floor(gridHeight / 2))]. *)
Definition spawnSquare (b : Game1Board) : HexGridSquare :=
  mkSquare (gridWidth b / 2) (gridHeight b / 2).

Definition spawnLobster (b : Game1Board) : Game1Board :=
  withLobster b (mkLobster (spawnSquare b) 0).

(** [Math.floor(squareArray.length * 0.15)].  The double nearest to 0.15 lies
    below it by less than 6e-18, so the rounded product is the integer itself
    when [15 * n] is a multiple of 100 and has the same floor otherwise. *)
Definition rockCount (n : nat) : nat := (15 * n / 100)%nat.

(** The [do ... while (squareHash === lobsterPosHash)] loop.  [draws] are
    the successive values of [Math.floor(Math.random() * squareArray.length)];
    the result is [None] when they run out before a square is accepted (or
    hold a value that expression cannot produce). *)
Fixpoint drawSquare (squareArray : list key) (lobsterPosHash : key) (draws : list nat)
  : option (key * list nat) :=
  match draws with
  | [] => None
  | i :: draws' =>
      match squareArray !! i with
      | None => None
      | Some squareHash =>
          if bool_decide (squareHash = lobsterPosHash)
          then drawSquare squareArray lobsterPosHash draws'
          else Some (squareHash, draws')
      end
  end.

(** The [for (let i = 0; i < rockCount; i++)] loop. *)
Fixpoint placeRocks (count : nat) (squareArray : list key) (lobsterPosHash : key)
         (blocked : gset key) (draws : list nat) : option (gset key) :=
  match count with
  | O => Some blocked
  | S count' =>
      match drawSquare squareArray lobsterPosHash draws with
      | None => None
      | Some (squareHash, draws') =>
          placeRocks count' squareArray lobsterPosHash ({[ squareHash ]} ∪ blocked) draws'
      end
  end.

Definition placeRandomRocks (b : Game1Board) (draws : list nat) : option Game1Board :=
  let squareArray := boardSquares b in
  withBlockedSet b <$>
    placeRocks (rockCount (length squareArray)) squareArray
               (hash (position (lobster b))) (blockedSet b) draws.

(** [new Game1Board(radius, controller)]: [radius] is not used; the
    [lobster] field, [null] until [spawnLobster()] runs, starts here with a
    token that [spawnLobster] replaces. *)
Definition newGame1Board (draws : list nat) : option Game1Board :=
  let b := mkBoard ∅ (mkLobster (mkSquare 0 0) 0) false false false false
                   11 10 (initializeBoard [] 11 10) in
  placeRandomRocks (spawnLobster b) draws.

(** [reset()], up to its DOM part. *)
Definition reset (b : Game1Board) (draws : list nat) : option Game1Board :=
  b' ← placeRandomRocks (spawnLobster (withBlockedSet b ∅)) draws;
  Some (withEscaping (withAnimating (withGameLost (withGameOver b' false) false) false) false).

(** ** Turn resolution

    The callbacks handed to [setTimeout] and [addEventListener], by what
    they do when they run. *)
Inductive Timer :=
| Wiggle (nextPos : HexGridSquare) (escapedIfMove : bool)
    (** after 120 ms: swap the turn class for the wiggle class *)
| Jump (nextPos : HexGridSquare) (escapedIfMove : bool)
    (** after 120 ms more: [this.lobster.position = nextPos] *)
| Land (escapedIfMove : bool)
    (** after 280 ms more: [isAnimating = false], then the escape if any *)
| EscapeReset
    (** 3000 ms into the escape: [isEscaping = false; reset(); render()] *)
| StoneFly
    (** 2000 ms after a capture: the stone starts towards the cairn *)
| StoneArrive
    (** [animationend] of the stone, if the cairn element exists *)
| CairnPoint
    (** 800 ms later: [controller.addPointToCairn()] *)
| CaptureReset.
    (** 1500 ms later: [reset(); render()] *)

(** The page as far as the engine goes: the board, the callbacks that are
    pending, and the controller's [totalPoints]. *)
Record World := mkWorld {
  board : Game1Board;
  timers : list Timer;
  totalPoints : nat
}.

Definition animateTurnWiggleJump (w : World) (nextPos : HexGridSquare)
           (escapedIfMove : bool) : World :=
  let b := withAnimating (board w) true in
  let b := withLobster b (mkLobster (position (lobster b))
                                    (getRotationForDirection (lobster b) nextPos)) in
  mkWorld b (timers w ++ [Wiggle nextPos escapedIfMove]) (totalPoints w).

(** The three early returns of [clickHexTile]. *)
Definition accepted (b : Game1Board) (x y : Z) : bool :=
  negb (gameOver b || gameLost b || isAnimating b || isEscaping b)
  && negb (bool_decide (hash (mkSquare x y) = hash (position (lobster b))))
  && negb (setHas (blockedSet b) (hash (mkSquare x y))).

(** [this.blockedSet.add(key)] *)
Definition placeRock (b : Game1Board) (x y : Z) : Game1Board :=
  withBlockedSet b ({[ hash (mkSquare x y) ]} ∪ blockedSet b).

(** The rest of [clickHexTile] once the rock is placed: [getNextStep], then
    the capture branch or [animateTurnWiggleJump].  [lobsterTile] tells
    whether [getCurrentLobsterTile()] finds the tile in the capture branch. *)
Definition resolveTurn (w : World) (lobsterTile : bool) : World :=
  let b := board w in
  match getNextStep (blockedSet b) (boardSquares b) (gridWidth b) (gridHeight b)
                    (position (lobster b)) with
  | (None, _) =>
      mkWorld (withGameOver b true)
              (timers w ++ (if lobsterTile then [StoneFly] else []))
              (totalPoints w)
  | (Some nextPos, escapedIfMove) => animateTurnWiggleJump w nextPos escapedIfMove
  end.

(** [clickHexTile(x, y)] *)
Definition clickHexTile (w : World) (x y : Z) (lobsterTile : bool) : World :=
  if accepted (board w) x y
  then resolveTurn (mkWorld (placeRock (board w) x y) (timers w) (totalPoints w)) lobsterTile
  else w.

(** [triggerEscapeAnimation(tile)] *)
Definition triggerEscapeAnimation (w : World) (tile : bool) : World :=
  if negb tile then w
  else
    let b := withEscaping (board w) true in
    let p := position (lobster b) in
    let r := if sq_y p =? 0 then 0
             else if sq_y p =? gridHeight b - 1 then 180
             else if sq_x p =? 0 then 270
             else if sq_x p =? gridWidth b - 1 then 90
             else Z.rem (rotation (lobster b)) 360 in
    mkWorld (withLobster b (mkLobster p r)) (timers w ++ [EscapeReset]) (totalPoints w).

(** Running one pending callback ([w] no longer lists it).  [dom] answers
    the DOM look-up the callback makes ([getCurrentLobsterTile()] in [Land],
    the cairn element in [StoneFly]); [draws] feeds a [reset()]. *)
Definition runTimer (w : World) (t : Timer) (dom : bool) (draws : list nat)
  : option World :=
  match t with
  | Wiggle nextPos escapedIfMove =>
      Some (mkWorld (board w) (timers w ++ [Jump nextPos escapedIfMove]) (totalPoints w))
  | Jump nextPos escapedIfMove =>
      let b := board w in
      Some (mkWorld (withLobster b (mkLobster nextPos (rotation (lobster b))))
                    (timers w ++ [Land escapedIfMove]) (totalPoints w))
  | Land escapedIfMove =>
      let w := mkWorld (withAnimating (board w) false) (timers w) (totalPoints w) in
      Some (if escapedIfMove then triggerEscapeAnimation w dom else w)
  | EscapeReset =>
      b ← reset (withEscaping (board w) false) draws;
      Some (mkWorld b (timers w) (totalPoints w))
  | StoneFly =>
      Some (mkWorld (board w) (timers w ++ (if dom then [StoneArrive] else []))
                    (totalPoints w))
  | StoneArrive =>
      Some (mkWorld (board w) (timers w ++ [CairnPoint]) (totalPoints w))
  | CairnPoint =>
      Some (mkWorld (board w) (timers w ++ [CaptureReset]) (S (totalPoints w)))
  | CaptureReset =>
      b ← reset (board w) draws;
      Some (mkWorld b (timers w) (totalPoints w))
  end.

(** What can happen next: a click on tile [(x, y)], the [i]-th pending
    callback coming due (any of them: real timers come due in the order of
    their deadlines, a special case), or the restart button. *)
Inductive Event :=
| Click (x y : Z) (lobsterTile : bool)
| Fire (i : nat) (dom : bool) (draws : list nat)
| ResetRound (draws : list nat).

(** [ResetRound] is [resetGame1Round()], the handler of the restart button;
    [reset()] leaves the pending callbacks alone. *)
Definition dispatch (w : World) (e : Event) : option World :=
  match e with
  | Click x y lobsterTile => Some (clickHexTile w x y lobsterTile)
  | Fire i dom draws =>
      t ← timers w !! i;
      runTimer (mkWorld (board w) (delete i (timers w)) (totalPoints w)) t dom draws
  | ResetRound draws =>
      b ← reset (board w) draws;
      Some (mkWorld b (timers w) (totalPoints w))
  end.

Fixpoint runEvents (w : World) (es : list Event) : option World :=
  match es with
  | [] => Some w
  | e :: es' => w' ← dispatch w e; runEvents w' es'
  end.

(** ** The tile handler, the tutorial boards *)

(** The click handler that [render()] puts on the tile of [(x, y)]. *)
Definition tileClick (w : World) (x y : Z) (lobsterTile : bool) : World :=
  let b := board w in
  if negb (setHas (blockedSet b) (x, y))
     && negb ((sq_x (position (lobster b)) =? x) && (sq_y (position (lobster b)) =? y))
  then clickHexTile w x y lobsterTile
  else w.

(** The callback [startSlowLobsterAnimation] hands to [setInterval]. *)
Definition startSlowLobsterAnimation_tick (b : Game1Board) : Game1Board :=
  match (getNextStep (blockedSet b) (boardSquares b) (gridWidth b) (gridHeight b)
                     (position (lobster b))).1 with
  | Some nextPos =>
      withLobster b (mkLobster nextPos (getRotationForDirection (lobster b) nextPos))
  | None => b
  end.

(** What the three tutorial screens do to a board they have just built:
    [isAnimating = true], the 7 by 6 grid, [boardSquares.clear()],
    [initializeBoard()], [spawnLobster()]. *)
Definition tutorialGrid (b : Game1Board) : Game1Board :=
  spawnLobster (mkBoard (blockedSet b) (lobster b) (gameOver b) (gameLost b) true
                        (isEscaping b) 7 6 (initializeBoard [] 7 6)).

(** [renderGame1Tutorial_Step1] and [renderGame1Tutorial_Step2], up to the
    DOM: the board left in [game1TutorialBoard] ([blockedSet.clear()] comes
    last). *)
Definition renderGame1Tutorial_Step1 (draws : list nat) : option Game1Board :=
  b ← newGame1Board draws;
  Some (withBlockedSet (tutorialGrid b) ∅).

(** [renderGame1Tutorial_Step3]: four rocks are added, nothing is cleared. *)
Definition renderGame1Tutorial_Step3 (draws : list nat) : option Game1Board :=
  b ← newGame1Board draws;
  let b := tutorialGrid b in
  Some (withBlockedSet b ({[ (5, 2) ]} ∪ ({[ (4, 1) ]} ∪ ({[ (3, 1) ]}
                             ∪ ({[ (2, 1) ]} ∪ blockedSet b))))).

(** The tiles [renderTutorialOnlyLobster] creates, row by row; its inner
    loop runs [x] up to [gridHeight]. *)
Definition renderTutorialOnlyLobster (b : Game1Board) : list key :=
  y ← seqZ 0 (gridHeight b); x ← seqZ 0 (gridHeight b); [(x, y)].

(** Whether one of these tiles gets the lobster ([data-lobster] and the
    image): each tile compares its coordinates with the lobster's. *)
Definition lobsterDrawn (b : Game1Board) : bool :=
  bool_decide (hash (position (lobster b)) ∈ renderTutorialOnlyLobster b).

(** ** The round timer *)

(** The countdown kept by [GameFlowController]: [timeRemaining], whether
    the interval whose handle is in [gameTimer] is still set, and the number
    of 500 ms callbacks pending that switch to ['GAME2_READY']. *)
Record Countdown := mkCountdown {
  timeRemaining : Z;
  gameTimer : bool;
  switches : nat
}.

(** [playTimerEndSoundEffect()] starts with [new (window.AudioContext ||
    window.webkitAudioContext)()], which throws where the page has neither
    constructor, and nothing catches the exception.  Whether the call
    returns is an input; [None] is the exception. *)
Definition playTimerEndSoundEffect (audio : bool) : option unit :=
  if audio then Some () else None.

(** [startGame1Timer()]: an interval set earlier is cleared first. *)
Definition startGame1Timer (c : Countdown) : Countdown :=
  mkCountdown 300 true (switches c).

(** The callback [startGame1Timer] hands to [setInterval].  At zero the
    interval is cleared, then the sound is played, then the switch is
    queued: an exception of the sound leaves the callback before
    [setTimeout]. *)
Definition startGame1Timer_tick (c : Countdown) (audio : bool) : Countdown :=
  let t := timeRemaining c - 1 in
  if t <=? 0
  then match playTimerEndSoundEffect audio with
       | Some _ => mkCountdown t false (S (switches c))
       | None => mkCountdown t false (switches c)
       end
  else mkCountdown t (gameTimer c) (switches c).

(** [skipGame1TimerForDev()], in the same order: clear, sound, queue. *)
Definition skipGame1TimerForDev (c : Countdown) (audio : bool) : Countdown :=
  match playTimerEndSoundEffect audio with
  | Some _ => mkCountdown (timeRemaining c) false (S (switches c))
  | None => mkCountdown (timeRemaining c) false (switches c)
  end.

(** The screen is rendered again, a second passes (only while the interval
    is set), or the skip button is pressed; the last two on a page with or
    without an [AudioContext]. *)
Inductive ClockEvent := Start | Tick (audio : bool) | Skip (audio : bool).

Definition clockStep (c : Countdown) (e : ClockEvent) : option Countdown :=
  match e with
  | Start => Some (startGame1Timer c)
  | Tick audio => if gameTimer c then Some (startGame1Timer_tick c audio) else None
  | Skip audio => Some (skipGame1TimerForDev c audio)
  end.

Fixpoint runClock (c : Countdown) (es : list ClockEvent) : option Countdown :=
  match es with
  | [] => Some c
  | e :: es' => c' ← clockStep c e; runClock c' es'
  end.

(** ** CardMatchingGame *)

Module Game2.

Local Open Scope nat_scope.

(** The [name] of a card object; the six names of [cardImages] are the only
    ones, and the engine does nothing with them but compare them. *)
Inductive CardName := Guga | Portan | Cliabh | Easgann | Crosgag | Sgadan.

#[global] Instance CardName_eq_dec : EqDecision CardName.
Proof. solve_decision. Defined.

Definition cardImages : list CardName := [Guga; Portan; Cliabh; Easgann; Crosgag; Sgadan].

(** [flipped] is a [Set] read back with [Array.from], which lists it in
    insertion order: a list, to which an index is added only when it is not
    in it.  [matched] is only asked for membership and size. *)
Record CardMatchingGame := mkGame {
  cards : list CardName;
  flipped : list nat;
  matched : gset nat;
  attempts : nat;
  isProcessing : bool
}.

Inductive Timer :=
| FlipBack (index1 index2 : nat)
    (** 600 ms after a mismatch: turn the two cards back *)
| ShowResults.
    (** 2000 ms after the last match: [setGameFlowState('RESULTS')] *)

(** The second game as far as its engine goes: the game object, the pending
    callbacks, and whether the results screen has been asked for. *)
Record World := mkWorld {
  game : CardMatchingGame;
  timers : list Timer;
  results : bool
}.

(** [new CardMatchingGame(controller)] *)
Definition newCardMatchingGame : CardMatchingGame := mkGame [] [] ∅ 0 false.

(** [render()] with the board element in place (without it [render()]
    returns at once), up to the DOM: [shuffled] is what the [sort] with the
    random comparator returns. *)
Definition render (g : CardMatchingGame) (shuffled : list CardName) : CardMatchingGame :=
  mkGame shuffled (flipped g) (matched g) (attempts g) (isProcessing g).

(** [reset()] *)
Definition reset (g : CardMatchingGame) : CardMatchingGame :=
  mkGame (cards g) [] ∅ 0 false.

(** [gameComplete()] *)
Definition gameComplete (w : World) : World :=
  mkWorld (game w) (timers w ++ [ShowResults]) (results w).

(** [checkMatch()]; [None] is the [TypeError] of reading [name] off a card
    that is not there. *)
Definition checkMatch (w : World) : option World :=
  let g := game w in
  match flipped g with
  | index1 :: index2 :: _ =>
      card1 ← cards g !! index1;
      card2 ← cards g !! index2;
      if bool_decide (card1 = card2)
      then
        let g' := mkGame (cards g) [] ({[ index2 ]} ∪ ({[ index1 ]} ∪ matched g))
                         (attempts g) false in
        let w' := mkWorld g' (timers w) (results w) in
        Some (if bool_decide (size (matched g') = length (cards g'))
              then gameComplete w' else w')
      else
        Some (mkWorld (mkGame (cards g) (flipped g) (matched g) (attempts g) true)
                      (timers w ++ [FlipBack index1 index2]) (results w))
  | _ => None
  end.

(** [flipCard(index, cardEl)] *)
Definition flipCard (w : World) (index : nat) : option World :=
  let g := game w in
  if isProcessing g || bool_decide (index ∈ flipped g) || bool_decide (index ∈ matched g)
  then Some w
  else
    let flipped' := flipped g ++ [index] in
    if bool_decide (length flipped' = 2)
    then checkMatch (mkWorld (mkGame (cards g) flipped' (matched g) (S (attempts g))
                                     (isProcessing g))
                             (timers w) (results w))
    else Some (mkWorld (mkGame (cards g) flipped' (matched g) (attempts g) (isProcessing g))
                       (timers w) (results w)).

(** Running a pending callback.  [dom] tells whether the two card elements
    are found; when they are not, the flip-back callback throws before it
    touches the game. *)
Definition runTimer (w : World) (t : Timer) (dom : bool) : World :=
  match t with
  | FlipBack _ _ =>
      if dom
      then mkWorld (mkGame (cards (game w)) [] (matched (game w)) (attempts (game w)) false)
                   (timers w) (results w)
      else w
  | ShowResults => mkWorld (game w) (timers w) true
  end.

(** A click on the card at [index], a pending callback coming due, or
    [resetGame2Board()] ([reset()], then [render()]). *)
Inductive Event :=
| Flip (index : nat)
| Fire (i : nat) (dom : bool)
| ResetBoard (shuffled : list CardName).

Definition dispatch (w : World) (e : Event) : option World :=
  match e with
  | Flip index => flipCard w index
  | Fire i dom =>
      t ← timers w !! i;
      Some (runTimer (mkWorld (game w) (delete i (timers w)) (results w)) t dom)
  | ResetBoard shuffled =>
      Some (mkWorld (render (reset (game w)) shuffled) (timers w) (results w))
  end.

Fixpoint runEvents (w : World) (es : list Event) : option World :=
  match es with
  | [] => Some w
  | e :: es' => w' ← dispatch w e; runEvents w' es'
  end.

(** [renderGame2_Main()]: a new game, rendered. *)
Definition renderGame2_Main (shuffled : list CardName) : World :=
  mkWorld (render newCardMatchingGame shuffled) [] false.

(** The clicks the page can deliver: [render()] puts a handler on each of
    the cards, and a shuffle keeps their number. *)
Definition deliverable (n : nat) (e : Event) : bool :=
  match e with
  | Flip index => bool_decide (index < n)
  | Fire _ _ => true
  | ResetBoard shuffled => bool_decide (length shuffled = n)
  end.

(** The same without [resetGame2Board()]. *)
Definition played (n : nat) (e : Event) : bool :=
  match e with
  | Flip index => bool_decide (index < n)
  | Fire _ _ => true
  | ResetBoard _ => false
  end.

(** The results screen is on its way, or has been asked for. *)
Definition finished (w : World) : Prop :=
  ShowResults ∈ timers w ∨ results w = true.

(** The callbacks run with the page as [render()] left it. *)
Definition smooth (n : nat) (e : Event) : bool :=
  match e with
  | Flip index => bool_decide (index < n)
  | Fire _ dom => dom
  | ResetBoard _ => false
  end.

End Game2.

(** ** The hex graph searched by the lobster *)

Section Graph.

Variable blockedSet : gset key.
Variable boardSquares : list key.
Variables gridWidth gridHeight : Z.

(** One move: to a hex neighbour that is on the board and not blocked. *)
Definition moveb (u v : key) : bool :=
  bool_decide (v ∈ hash <$> getNeighbors (unhash u))
  && boardHas boardSquares v && negb (setHas blockedSet v).

Fixpoint walkb (u : key) (l : list key) : bool :=
  match l with
  | [] => true
  | v :: l' => moveb u v && walkb v l'
  end.

(** An escape route from [start]: it begins at [start], every further
    cell is one move from the cell before it, and the last cell is on
    the edge of the grid. *)
Definition escapeRoute (start : HexGridSquare) (l : list key) : bool :=
  match l with
  | [] => false
  | s :: l' =>
      bool_decide (s = hash start) && walkb s l'
      && onEdge (unhash (List.last l' s)) gridWidth gridHeight
  end.

(** [n] is the least number of moves in which [start] reaches the edge. *)
Definition escapeDistance (start : HexGridSquare) (n : nat) : Prop :=
  (∃ q, escapeRoute start q = true ∧ length q = S n)
  ∧ ∀ q, escapeRoute start q = true → (S n ≤ length q)%nat.

Definition move (u v : key) : Prop :=
  v ∈ hash <$> getNeighbors (unhash u) ∧ v ∈ boardSquares ∧ v ∉ blockedSet.

(** Routes grown at their far end, the way the search discovers them. *)
Inductive route (s : key) : list key → key → Prop :=
| route_start : route s [s] s
| route_snoc l u v : route s l u → move u v → route s (l ++ [v]) v.

End Graph.

(** ** The order in which the search discovers routes *)

Fixpoint indexOf (v : key) (l : list key) : nat :=
  match l with
  | [] => O
  | a :: l' => if decide (a = v) then O else S (indexOf v l')
  end.

(** The place of the move from [u] to [v] in the offset table of [u]'s row. *)
Definition direction (u v : key) : nat :=
  indexOf v (hash <$> getNeighbors (unhash u)).

(** [lexLt u l1 l2]: continuing from cell [u], the cells [l1] come before
    the cells [l2]: at the first cell where they part, [l1] takes the
    neighbour listed earlier. *)
Fixpoint lexLt (u : key) (l1 l2 : list key) : Prop :=
  match l1, l2 with
  | a :: l1', b :: l2' =>
      (direction u a < direction u b)%nat ∨ (a = b ∧ lexLt a l1' l2')
  | _, _ => False
  end.

Definition routeLt (l1 l2 : list key) : Prop :=
  match l1, l2 with
  | a :: l1', b :: l2' => a = b ∧ lexLt a l1' l2'
  | _, _ => False
  end.

(** ** Notions used in the statements *)

(** The number of rows or columns between a cell and the nearest side of
    the grid. *)
Definition borderDistance (s : HexGridSquare) (w h : Z) : Z :=
  Z.min (Z.min (Z.abs (sq_x s)) (Z.abs (w - 1 - sq_x s)))
        (Z.min (Z.abs (sq_y s)) (Z.abs (h - 1 - sq_y s))).

(** [Number.MAX_SAFE_INTEGER]: up to this magnitude [x + 1] and [x - 1]
    are computed exactly. *)
Definition MAX_SAFE_INTEGER : Z := 2 ^ 53 - 1.

(** A cell whose coordinates are safe integers. *)
Definition safeSquare (s : HexGridSquare) : Prop :=
  Z.abs (sq_x s) ≤ MAX_SAFE_INTEGER ∧ Z.abs (sq_y s) ≤ MAX_SAFE_INTEGER.

(** Whether the event runs [reset()]. *)
Definition runsReset (w : World) (e : Event) : bool :=
  match e with
  | Click _ _ _ => false
  | Fire i _ _ =>
      match timers w !! i with
      | Some EscapeReset | Some CaptureReset => true
      | _ => false
      end
  | ResetRound _ => true
  end.

(** A click on one of the tiles [render()] draws for an 11 by 10 board. *)
Definition clickOnTile (e : Event) : bool :=
  match e with
  | Click x y _ => (0 <=? x) && (x <? 11) && (0 <=? y) && (y <? 10)
  | _ => true
  end.

(** ** Basic facts *)

Lemma hash_unhash k : hash (unhash k) = k.
Proof. by destruct k. Qed.

Lemma unhash_hash s : unhash (hash s) = s.
Proof. by destruct s. Qed.

Lemma moveb_move blockedSet boardSquares u v :
  moveb blockedSet boardSquares u v = true ↔ move blockedSet boardSquares u v.
Proof.
  unfold moveb, move, boardHas, setHas.
  rewrite !andb_true_iff, negb_true_iff, !bool_decide_eq_true, bool_decide_eq_false.
  tauto.
Qed.

Lemma last_cons_default {A} (a u : A) l : List.last (a :: l) u = List.last l a.
Proof.
  revert a u. induction l as [|b l IH]; intros a u; [done|].
  change (List.last (a :: b :: l) u) with (List.last (b :: l) u).
  by rewrite !IH.
Qed.

Section RouteFacts.

Variable blockedSet : gset key.
Variable boardSquares : list key.

Local Abbreviation move := (move blockedSet boardSquares).
Local Abbreviation route := (route blockedSet boardSquares).
Local Abbreviation walkb := (walkb blockedSet boardSquares).

Lemma route_nonempty s l v : route s l v → l ≠ [].
Proof. destruct 1; [done | by destruct l]. Qed.

Lemma route_last s l v : route s l v → List.last l s = v.
Proof. destruct 1; [done | by rewrite last_last]. Qed.

Lemma walkb_snoc u l v :
  walkb u (l ++ [v]) = walkb u l && moveb blockedSet boardSquares (List.last l u) v.
Proof.
  revert u. induction l as [|a l IH]; intros u; cbn -[List.last].
  - by rewrite andb_true_r.
  - by rewrite IH, andb_assoc, last_cons_default.
Qed.

(** The inductive routes are exactly the lists accepted by the checker. *)
Lemma route_walkb s l v :
  route s l v → ∃ l', l = s :: l' ∧ walkb s l' = true ∧ List.last l' s = v.
Proof.
  induction 1 as [|l u v _ (l' & -> & Hw & Hl) Hs].
  - by exists [].
  - exists (l' ++ [v]). split_and!; [done | | by rewrite last_last].
    rewrite walkb_snoc, Hw, Hl. by apply moveb_move.
Qed.

Lemma walkb_route s l' :
  walkb s l' = true → route s (s :: l') (List.last l' s).
Proof.
  induction l' as [|v l' IH] using rev_ind; [constructor|].
  rewrite walkb_snoc, andb_true_iff, moveb_move. intros [Hw Hs].
  rewrite last_last. by apply (route_snoc _ _ _ (s :: l') _ v (IH Hw)).
Qed.

End RouteFacts.

(** ** Ties between shortest routes *)

Lemma lexLt_snoc u l1 l2 a b :
  length l1 = length l2 → lexLt u l1 l2 → lexLt u (l1 ++ [a]) (l2 ++ [b]).
Proof.
  revert u l2. induction l1 as [|c l1 IH]; intros u [|d l2] Hlen; try done.
  simpl in *. intros [Hlt|[-> Hrec]]; [by left|].
  right. split; [done|]. apply IH; [lia | done].
Qed.

Lemma lexLt_snoc_dir u l a b :
  (direction (List.last l u) a < direction (List.last l u) b)%nat →
  lexLt u (l ++ [a]) (l ++ [b]).
Proof.
  revert u. induction l as [|c l IH]; intros u; [by left|].
  rewrite last_cons_default. intros Hlt. right. split; [done|]. by apply IH.
Qed.

Lemma lexLt_trans u l1 l2 l3 : lexLt u l1 l2 → lexLt u l2 l3 → lexLt u l1 l3.
Proof.
  revert u l2 l3. induction l1 as [|a l1 IH]; intros u [|b l2] [|c l3]; try done.
  simpl. intros [H1|[-> H1]] [H2|[-> H2]].
  - left. lia.
  - by left.
  - by left.
  - right. split; [done|]. by eapply IH.
Qed.

Lemma routeLt_snoc l1 l2 a b :
  length l1 = length l2 → routeLt l1 l2 → routeLt (l1 ++ [a]) (l2 ++ [b]).
Proof.
  destruct l1 as [|c l1], l2 as [|d l2]; try done. simpl.
  intros Hlen [-> Hlt]. split; [done|]. apply lexLt_snoc; [lia | done].
Qed.

Lemma routeLt_snoc_dir l u a b :
  l ≠ [] → (direction (List.last l u) a < direction (List.last l u) b)%nat →
  routeLt (l ++ [a]) (l ++ [b]).
Proof.
  destruct l as [|c l]; [done|]. intros _. rewrite last_cons_default.
  intros Hlt. split; [done|]. by apply lexLt_snoc_dir.
Qed.

Lemma routeLt_trans l1 l2 l3 : routeLt l1 l2 → routeLt l2 l3 → routeLt l1 l3.
Proof.
  destruct l1 as [|a l1], l2 as [|b l2], l3 as [|c l3]; try done. simpl.
  intros [-> H1] [-> H2]. split; [done|]. by eapply lexLt_trans.
Qed.

Lemma indexOf_app_lt (a b : key) l1 l2 :
  a ∈ l1 → b ∉ l1 → (indexOf a (l1 ++ l2) < indexOf b (l1 ++ l2))%nat.
Proof.
  induction l1 as [|c l1 IH]; [by intros ?%elem_of_nil|].
  intros Ha [Hbc Hb]%not_elem_of_cons. simpl.
  rewrite (decide_False (P := c = b)) by done.
  destruct (decide (c = a)); [lia|].
  apply elem_of_cons in Ha as [->|Ha]; [done|]. specialize (IH Ha Hb). lia.
Qed.

Lemma getNeighbors_NoDup sq : NoDup (hash <$> getNeighbors sq).
Proof.
  destruct sq as [x y]. unfold getNeighbors, directions.
  destruct (oddRow _); simpl; unfold hash; simpl;
    repeat (apply NoDup_cons; split;
            [rewrite ?not_elem_of_cons; split_and?;
               try (intros Heq; injection Heq; lia); apply not_elem_of_nil|]);
    apply NoDup_nil_2.
Qed.

(** ** The search tree

    The proofs follow the search with a ghost map [T] that gives every
    discovered key the route by which it was discovered (the list that
    [buildPath] would rebuild from the parent pointers). *)

Section SearchProof.

Variable blockedSet : gset key.
Variable boardSquares : list key.
Variables gridWidth gridHeight : Z.
Variable s : key.

Local Open Scope nat_scope.

Local Abbreviation move := (move blockedSet boardSquares).
Local Abbreviation route := (route blockedSet boardSquares s).
Local Abbreviation visit := (visit blockedSet boardSquares).
Local Abbreviation bfsLoop := (bfsLoop blockedSet boardSquares gridWidth gridHeight).
Local Abbreviation edge k := (onEdge (unhash k) gridWidth gridHeight).

Definition fresh (parent : gmap key (option key)) (nk : key) : bool :=
  negb (mapHas parent nk) && boardHas boardSquares nk && negb (setHas blockedSet nk).

Lemma fresh_true parent nk :
  fresh parent nk = true ↔ parent !! nk = None ∧ nk ∈ boardSquares ∧ nk ∉ blockedSet.
Proof using Type.
  clear s.
  unfold fresh, mapHas, boardHas, setHas.
  rewrite !andb_true_iff, !negb_true_iff, bool_decide_eq_true, !bool_decide_eq_false.
  rewrite <- eq_None_not_Some. tauto.
Qed.

Lemma visit_fresh k queue parent n :
  fresh parent (hash n) = true →
  visit k (queue, parent) n = (queue ++ [hash n], <[hash n := Some k]> parent).
Proof. unfold visit, fresh. simpl. by intros ->. Qed.

Lemma visit_stale k queue parent n :
  fresh parent (hash n) = false → visit k (queue, parent) n = (queue, parent).
Proof. unfold visit, fresh. simpl. by intros ->. Qed.

Definition treeOf (T : gmap key (list key)) (k : key) : list key :=
  default [] (T !! k).

Definition dep (T : gmap key (list key)) (k : key) : nat := length (treeOf T k).

Lemma dep_lookup T k l : T !! k = Some l → dep T k = length l.
Proof. unfold dep, treeOf. by intros ->. Qed.

Lemma dep_insert_ne T nk l k : nk ≠ k → dep (<[nk := l]> T) k = dep T k.
Proof. intros. unfold dep, treeOf. by rewrite lookup_insert_ne. Qed.

(** The ghost update that goes with [visit]. *)
Definition visitT (k : key) (parent : gmap key (option key))
           (T : gmap key (list key)) (n : HexGridSquare) : gmap key (list key) :=
  if fresh parent (hash n) then <[hash n := treeOf T k ++ [hash n]]> T else T.

Fixpoint expandT (k : key) (todo : list HexGridSquare)
         (st : list key * gmap key (option key)) (T : gmap key (list key))
  : gmap key (list key) :=
  match todo with
  | [] => T
  | n :: todo' => expandT k todo' (visit k st n) (visitT k st.2 T n)
  end.

(** What holds of queue, parent map and tree at every point of the search. *)
Record Core (queue : list key) (parent : gmap key (option key))
       (T : gmap key (list key)) : Prop := {
  core_start_parent : parent !! s = Some None;
  core_start_tree : T !! s = Some [s];
  core_null : ∀ v, parent !! v = Some None → v = s;
  core_parent : ∀ v p, parent !! v = Some (Some p) →
                       ∃ l, T !! p = Some l ∧ T !! v = Some (l ++ [v]);
  core_dom : ∀ v, is_Some (T !! v) ↔ is_Some (parent !! v);
  core_route : ∀ v l, T !! v = Some l → route l v;
  core_size : ∀ v l, T !! v = Some l → length l ≤ size parent;
  core_nodup : NoDup queue;
  core_queue_seen : ∀ v, v ∈ queue → is_Some (T !! v)
}.

Lemma core_init : Core [s] {[ s := None ]} {[ s := [s] ]}.
Proof.
  split.
  - apply lookup_singleton_eq.
  - apply lookup_singleton_eq.
  - intros v Hv. apply lookup_singleton_Some in Hv. by destruct Hv.
  - intros v p Hv. apply lookup_singleton_Some in Hv. by destruct Hv.
  - intros v. rewrite <- !elem_of_dom, !dom_singleton_L. done.
  - intros v l Hv. apply lookup_singleton_Some in Hv as [<- <-]. constructor.
  - intros v l Hv. apply lookup_singleton_Some in Hv as [<- <-].
    rewrite map_size_singleton. done.
  - apply NoDup_singleton.
  - intros v ->%list_elem_of_singleton. rewrite lookup_singleton_eq. eauto.
Qed.

Lemma core_visit k nk queue parent T lk :
  Core queue parent T → T !! k = Some lk → parent !! nk = None → move k nk →
  Core (queue ++ [nk]) (<[nk := Some k]> parent) (<[nk := lk ++ [nk]]> T).
Proof.
  intros HC Hk Hnk Hstep.
  assert (HTnk : T !! nk = None).
  { apply eq_None_not_Some. rewrite (core_dom _ _ _ HC), Hnk. by intros []. }
  assert (Hne : ∀ v, is_Some (T !! v) → nk ≠ v).
  { intros v [? Hv] <-. congruence. }
  split.
  - rewrite lookup_insert_ne; [apply HC|]. apply Hne. rewrite (core_start_tree _ _ _ HC). eauto.
  - rewrite lookup_insert_ne; [apply HC|]. apply Hne. rewrite (core_start_tree _ _ _ HC). eauto.
  - intros v. rewrite lookup_insert. case_decide; [done|]. apply HC.
  - intros v p. rewrite lookup_insert. case_decide as Hv.
    + intros [= <-]. subst v. exists lk. rewrite lookup_insert_eq.
      rewrite lookup_insert_ne; [done|]. apply Hne; eauto.
    + intros Hp. destruct (core_parent _ _ _ HC _ _ Hp) as (l & Hl1 & Hl2).
      exists l. rewrite !lookup_insert_ne; [done|done|]. apply Hne; eauto.
  - intros v. rewrite !lookup_insert. case_decide; [split; eauto | apply HC].
  - intros v l. rewrite lookup_insert. case_decide as Hv.
    + intros [= <-]. subst v. econstructor; [|done]. by apply (core_route _ _ _ HC).
    + apply HC.
  - intros v l. rewrite map_size_insert_None by done. rewrite lookup_insert.
    case_decide.
    + intros [= <-]. rewrite length_app. simpl.
      pose proof (core_size _ _ _ HC _ _ Hk). lia.
    + intros Hv. pose proof (core_size _ _ _ HC _ _ Hv). lia.
  - apply NoDup_app. split; [exact (core_nodup _ _ _ HC)|].
    split; [|apply NoDup_singleton].
    intros v Hv ->%list_elem_of_singleton.
    apply (core_queue_seen _ _ _ HC) in Hv as [? ?]. congruence.
  - intros v [Hv| ->%list_elem_of_singleton]%elem_of_app.
    + pose proof (core_queue_seen _ _ _ HC _ Hv) as Hs.
      rewrite lookup_insert_ne; [done|]. by apply Hne.
    + rewrite lookup_insert_eq. eauto.
Qed.

Lemma core_tail k queue parent T :
  Core (k :: queue) parent T → Core queue parent T.
Proof.
  intros HC. split; try apply HC.
  - pose proof (core_nodup _ _ _ HC) as Hn. by apply NoDup_cons in Hn as [_ ?].
  - intros v Hv. apply (core_queue_seen _ _ _ HC). by right.
Qed.

Lemma buildPath_tree queue parent T fuel v l acc :
  Core queue parent T → T !! v = Some l → length l ≤ fuel →
  buildPath fuel parent (Some v) acc = Some ((unhash <$> l) ++ acc).
Proof.
  intros HC. revert v l acc.
  induction fuel as [|fuel IH]; intros v l acc Hv Hlen.
  - pose proof (route_nonempty _ _ _ _ _ (core_route _ _ _ HC _ _ Hv)).
    destruct l; [done | simpl in Hlen; lia].
  - simpl. unfold mapGet.
    destruct (proj1 (core_dom _ _ _ HC v)) as [[p|] Hp]; [eauto | |]; rewrite Hp; simpl.
    + destruct (core_parent _ _ _ HC _ _ Hp) as (l' & Hl' & Hvl).
      assert (l = l' ++ [v]) as -> by congruence.
      rewrite length_app in Hlen. simpl in Hlen.
      rewrite (IH p l') by (done || lia).
      by rewrite fmap_app, <- app_assoc.
    + apply (core_null _ _ _ HC) in Hp as ->.
      rewrite (core_start_tree _ _ _ HC) in Hv. injection Hv as <-.
      by destruct fuel.
Qed.

(** A discovered key [u] is closed once it has been expanded: it is not
    on the edge and every move from it leads to a discovered key at most
    one level deeper. *)
Definition closedAt (T : gmap key (list key)) (u : key) : Prop :=
  edge u = false ∧ ∀ v, move u v → is_Some (T !! v) ∧ dep T v ≤ S (dep T u).

(** The queue holds the rest of level [n] followed by the part of level
    [S n] already discovered. *)
Record Levels (T : gmap key (list key)) (queue : list key) (n : nat) : Prop := {
  lev_split : ∃ A B, queue = A ++ B ∧ Forall (λ a, dep T a = n) A
                     ∧ Forall (λ b, dep T b = S n) B;
  lev_all : ∀ u, is_Some (T !! u) → dep T u ≤ S n;
  lev_done : ∀ u, is_Some (T !! u) → u ∉ queue → dep T u ≤ n
}.

(** Invariant at the head of the [while (queue.length)] loop. *)
Record Inv (queue : list key) (parent : gmap key (option key))
       (T : gmap key (list key)) : Prop := {
  inv_core : Core queue parent T;
  inv_closed : ∀ u, is_Some (T !! u) → u ∉ queue → closedAt T u;
  inv_levels : ∃ n, Levels T queue n
}.

(** Invariant inside the [for] loop over the neighbours of [k], with
    [todo] the neighbours still to be looked at. *)
Record Mid (k : key) (todo : list HexGridSquare) (queue : list key)
       (parent : gmap key (option key)) (T : gmap key (list key)) : Prop := {
  mid_core : Core queue parent T;
  mid_key_seen : is_Some (T !! k);
  mid_key_out : k ∉ queue;
  mid_key_edge : edge k = false;
  mid_todo : ∀ n, n ∈ todo → hash n ∈ hash <$> getNeighbors (unhash k);
  mid_closed : ∀ u, is_Some (T !! u) → u ∉ queue → u ≠ k → closedAt T u;
  mid_key_closed : ∀ v, move k v →
      v ∈ hash <$> todo ∨ (is_Some (T !! v) ∧ dep T v ≤ S (dep T k));
  mid_levels : Levels T queue (dep T k)
}.

Lemma levels_queue_ge T queue n a : Levels T queue n → a ∈ queue → n ≤ dep T a.
Proof.
  intros [(A & B & -> & HA & HB) _ _] [Ha|Ha]%elem_of_app.
  - rewrite Forall_forall in HA. rewrite (HA _ Ha). lia.
  - rewrite Forall_forall in HB. rewrite (HB _ Ha). lia.
Qed.

Lemma inv_init : Inv [s] {[ s := None ]} {[ s := [s] ]}.
Proof.
  split; [apply core_init | |].
  - intros u [l Hu] Hn. apply lookup_singleton_Some in Hu as [<- _].
    destruct Hn. by left.
  - exists 1. split.
    + exists [s], []. split_and!; [done | | constructor].
      constructor; [|constructor]. by rewrite (dep_lookup _ _ [s]) by apply lookup_singleton_eq.
    + intros u [l Hu]. rewrite (dep_lookup _ _ _ Hu).
      apply lookup_singleton_Some in Hu as [_ <-]. simpl. lia.
    + intros u [l Hu] Hn. apply lookup_singleton_Some in Hu as [<- _].
      destruct Hn. by left.
Qed.

Lemma inv_mid k rest parent T :
  Inv (k :: rest) parent T → edge k = false →
  Mid k (getNeighbors (unhash k)) rest parent T.
Proof.
  intros [HC Hcl [n [(A & B & Hq & HA & HB) Hall Hdone]]] Hedge.
  pose proof (core_nodup _ _ _ HC) as [Hk _]%NoDup_cons.
  split; try done.
  - by apply core_tail in HC.
  - apply (core_queue_seen _ _ _ HC). by left.
  - intros n' Hn'. by apply list_elem_of_fmap_2.
  - intros u Hu Hr Hne. apply Hcl; [done|]. by apply not_elem_of_cons.
  - intros v (Hv & _). by left.
  - destruct A as [|a A].
    + destruct B as [|b B]; [done|]. simpl in Hq. injection Hq as <- ->.
      apply Forall_cons in HB as [Hb HB]. rewrite Hb.
      split.
      * exists B, []. by rewrite app_nil_r.
      * intros u Hu. specialize (Hall u Hu). lia.
      * intros u Hu Hr. destruct (decide (u = k)) as [->|Hne]; [lia|].
        assert (dep T u ≤ n); [|lia].
        apply Hdone; [done|]. by apply not_elem_of_cons.
    + simpl in Hq. injection Hq as <- ->.
      apply Forall_cons in HA as [Ha HA]. rewrite Ha.
      split.
      * by exists A, B.
      * done.
      * intros u Hu Hr. destruct (decide (u = k)) as [->|Hne]; [lia|].
        apply Hdone; [done|]. by apply not_elem_of_cons.
Qed.

Lemma mid_inv k queue parent T : Mid k [] queue parent T → Inv queue parent T.
Proof.
  intros [HC Hks Hko Hke _ Hcl Hkc HL].
  split; [done | | by exists (dep T k)].
  intros u Hu Hq. destruct (decide (u = k)) as [->|Hne]; [|by apply Hcl].
  split; [done|]. intros v Hv.
  destruct (Hkc v Hv) as [[]%elem_of_nil|]; done.
Qed.

Lemma closedAt_insert T u nk l :
  T !! nk = None → is_Some (T !! u) → closedAt T u → closedAt (<[nk := l]> T) u.
Proof.
  intros Hnk Hu [He Hst]. split; [done|]. intros v Hv.
  destruct (Hst v Hv) as [Hs Hd].
  assert (nk ≠ v) by (intros ->; rewrite Hnk in Hs; by destruct Hs).
  assert (nk ≠ u) by (intros ->; rewrite Hnk in Hu; by destruct Hu).
  by rewrite lookup_insert_ne, !dep_insert_ne.
Qed.

Lemma mid_visit k n todo queue parent T :
  Mid k (n :: todo) queue parent T →
  Mid k todo (visit k (queue, parent) n).1 (visit k (queue, parent) n).2
      (visitT k parent T n).
Proof.
  intros [HC Hks Hko Hke Htodo Hcl Hkc [(A & B & Hq & HA & HB) Hall Hdone]].
  unfold visitT. destruct (fresh parent (hash n)) eqn:Hf.
  - rewrite visit_fresh by done. simpl.
    apply fresh_true in Hf as (Hp & Hboard & Hblocked).
    set (nk := hash n) in *.
    destruct Hks as [lk Hlk]. unfold treeOf at 1. rewrite Hlk. simpl.
    assert (HTnk : T !! nk = None).
    { apply eq_None_not_Some. rewrite (core_dom _ _ _ HC), Hp. by intros []. }
    assert (Hne : ∀ v, is_Some (T !! v) → nk ≠ v).
    { intros v [? Hv] <-. congruence. }
    assert (Hstep : move k nk).
    { split; [|done]. apply Htodo. by left. }
    assert (Hknk : nk ≠ k) by (apply Hne; eauto).
    assert (Hdk : dep (<[nk := lk ++ [nk]]> T) k = dep T k) by (by apply dep_insert_ne).
    assert (Hdnk : dep (<[nk := lk ++ [nk]]> T) nk = S (dep T k)).
    { rewrite (dep_lookup _ _ (lk ++ [nk])) by apply lookup_insert_eq.
      rewrite length_app, (dep_lookup _ _ _ Hlk). simpl. lia. }
    split.
    + by apply core_visit.
    + rewrite lookup_insert_ne by done. eauto.
    + apply not_elem_of_app. split; [done|]. by intros ->%list_elem_of_singleton.
    + done.
    + intros n' Hn'. apply Htodo. by right.
    + intros u Hu [Hu1 Hu2]%not_elem_of_app Huk.
      assert (nk ≠ u) by (intros ->; apply Hu2; by left).
      rewrite lookup_insert_ne in Hu by done.
      apply closedAt_insert; [done..|]. by apply Hcl.
    + intros v Hv. rewrite Hdk.
      destruct (decide (v = nk)) as [->|Hvn].
      { right. rewrite lookup_insert_eq, Hdnk. split; [eauto | lia]. }
      rewrite lookup_insert_ne, dep_insert_ne by done.
      destruct (Hkc v Hv) as [Hin|]; [|by right].
      left. rewrite fmap_cons in Hin. by apply elem_of_cons in Hin as [|].
    + rewrite Hdk. split.
      * exists A, (B ++ [nk]). split_and!.
        -- by rewrite Hq, app_assoc.
        -- rewrite Forall_forall in HA |- *. intros a Ha.
           rewrite dep_insert_ne; [by apply HA|].
           apply Hne, (core_queue_seen _ _ _ HC). rewrite Hq, elem_of_app. by left.
        -- apply Forall_app. split.
           ++ rewrite Forall_forall in HB |- *. intros b Hb.
              rewrite dep_insert_ne; [by apply HB|].
              apply Hne, (core_queue_seen _ _ _ HC). rewrite Hq, elem_of_app. by right.
           ++ by constructor.
      * intros u. destruct (decide (u = nk)) as [->|Hun].
        -- rewrite Hdnk. lia.
        -- rewrite lookup_insert_ne, dep_insert_ne by done. apply Hall.
      * intros u Hu [Hu1 Hu2]%not_elem_of_app.
        assert (nk ≠ u) by (intros ->; apply Hu2; by left).
        rewrite lookup_insert_ne in Hu by done.
        rewrite dep_insert_ne by done. by apply Hdone.
  - rewrite visit_stale by done. simpl. split; try done.
    + intros n' Hn'. apply Htodo. by right.
    + intros v Hv. destruct (Hkc v Hv) as [Hin|]; [|by right].
      rewrite fmap_cons in Hin. apply elem_of_cons in Hin as [->|]; [|by left].
      right. destruct Hv as (_ & Hboard & Hblocked).
      assert (Hs : is_Some (T !! hash n)).
      { apply (core_dom _ _ _ HC). apply not_eq_None_Some. intros Hp.
        assert (fresh parent (hash n) = true) by (by apply fresh_true).
        congruence. }
      split; [done|]. by apply Hall.
    + split; [by exists A, B | done..].
Qed.

Lemma mid_expand k todo queue parent T :
  Mid k todo queue parent T →
  Inv (fold_left (visit k) todo (queue, parent)).1
      (fold_left (visit k) todo (queue, parent)).2
      (expandT k todo (queue, parent) T).
Proof.
  revert queue parent T. induction todo as [|n todo IH]; intros queue parent T HM.
  - by apply mid_inv in HM.
  - simpl. apply mid_visit in HM.
    destruct (visit k (queue, parent) n) as [q' p'] eqn:Hv. by apply IH.
Qed.

(** *** Termination measure: board keys not yet discovered, plus the queue *)

Definition unseen (parent : gmap key (option key)) : nat :=
  length (filter (λ x, parent !! x = None) boardSquares).

Lemma filter_length_mono (P Q : key → Prop) `{∀ x, Decision (P x)} `{∀ x, Decision (Q x)}
      (l : list key) :
  (∀ y, P y → Q y) → length (filter P l) ≤ length (filter Q l).
Proof.
  intros HPQ. induction l as [|a l IH]; [done|].
  rewrite !filter_cons. destruct (decide (P a)) as [HP|HP].
  - rewrite decide_True by auto. simpl. lia.
  - destruct (decide (Q a)); simpl; lia.
Qed.

Lemma filter_length_strict (P Q : key → Prop) `{∀ x, Decision (P x)} `{∀ x, Decision (Q x)}
      (l : list key) x :
  (∀ y, P y → Q y) → x ∈ l → Q x → ¬ P x →
  length (filter P l) < length (filter Q l).
Proof.
  intros HPQ Hx HQ HP. induction l as [|a l IH]; [by apply elem_of_nil in Hx|].
  rewrite !filter_cons. apply elem_of_cons in Hx as [<-|Hx].
  - rewrite decide_False, decide_True by done. simpl.
    pose proof (filter_length_mono P Q l HPQ). lia.
  - specialize (IH Hx). destruct (decide (P a)) as [Ha|Ha].
    + rewrite decide_True by auto. simpl. lia.
    + destruct (decide (Q a)); simpl; lia.
Qed.

Lemma unseen_insert parent nk v :
  parent !! nk = None → nk ∈ boardSquares →
  unseen (<[nk := v]> parent) < unseen parent.
Proof.
  intros Hp Hb. unfold unseen.
  apply (filter_length_strict _ _ _ nk); [|done|done|].
  - intros y. rewrite lookup_insert. by case_decide.
  - by rewrite lookup_insert_eq.
Qed.

Lemma visit_measure k st n :
  unseen (visit k st n).2 + length (visit k st n).1 ≤ unseen st.2 + length st.1.
Proof using Type.
  clear s.
  destruct st as [queue parent]. destruct (fresh parent (hash n)) eqn:Hf.
  - rewrite visit_fresh by done. simpl. rewrite length_app. simpl.
    apply fresh_true in Hf as (Hp & Hb & _).
    pose proof (unseen_insert parent (hash n) (Some k) Hp Hb). lia.
  - by rewrite visit_stale.
Qed.

Lemma expand_measure k todo st :
  unseen (fold_left (visit k) todo st).2 + length (fold_left (visit k) todo st).1
  ≤ unseen st.2 + length st.1.
Proof using Type.
  clear s.
  revert st. induction todo as [|n todo IH]; intros st; [done|].
  simpl. etrans; [apply IH | apply visit_measure].
Qed.

(** *** What the loop returns *)

Definition Post (r : option (list HexGridSquare)) : Prop :=
  match r with
  | Some path =>
      ∃ k, route (hash <$> path) k ∧ edge k = true
           ∧ ∀ q b, route q b → edge b = true → length path ≤ length q
  | None => ∀ q b, route q b → edge b = false
  end.

(** Every route shorter than the level of the queue ends in a key that has
    already been expanded. *)
Lemma low_routes queue parent T q b :
  Inv queue parent T → route q b →
  (∀ a, a ∈ queue → length q < dep T a) →
  is_Some (T !! b) ∧ (b ∉ queue) ∧ dep T b ≤ length q.
Proof.
  intros [HC Hcl _]. induction 1 as [|l u v Hr IH Hst]; intros Hlow.
  - pose proof (core_start_tree _ _ _ HC) as Hs.
    rewrite (dep_lookup _ _ _ Hs). split_and!; [eauto | | done].
    intros Hin. apply Hlow in Hin. rewrite (dep_lookup _ _ _ Hs) in Hin. simpl in Hin. lia.
  - rewrite length_app in Hlow |- *. simpl in *.
    destruct IH as (Hu & Huq & Hdu).
    { intros a Ha. specialize (Hlow a Ha). lia. }
    destruct (Hcl u Hu Huq) as [_ Hnext]. destruct (Hnext v Hst) as [Hv Hdv].
    split_and!; [done | | lia].
    intros Hin. apply Hlow in Hin. lia.
Qed.

Lemma levels_head T k rest n a :
  Levels T (k :: rest) n → a ∈ k :: rest → dep T k ≤ dep T a.
Proof.
  intros [(A & B & Hq & HA & HB) _ _] Ha.
  rewrite Forall_forall in HA. rewrite Forall_forall in HB.
  destruct A as [|a' A]; simpl in Hq.
  - subst B. rewrite (HB k), (HB a); [done | done | by left].
  - injection Hq as <- Hq. rewrite (HA k) by (by left).
    rewrite Hq in Ha. apply elem_of_cons in Ha as [->|[Ha|Ha]%elem_of_app].
    + by rewrite (HA k) by (by left).
    + rewrite (HA a); [done | by right].
    + rewrite (HB a) by done. lia.
Qed.

Lemma bfsLoop_spec fuel queue parent T :
  Inv queue parent T → unseen parent + length queue < fuel →
  ∃ r, bfsLoop fuel queue parent = Some r ∧ Post r.
Proof.
  revert queue parent T. induction fuel as [|fuel IH]; intros queue parent T HI Hfuel; [lia|].
  destruct queue as [|k rest]; simpl.
  - exists None. split; [done|]. intros q b Hr.
    destruct (low_routes _ _ _ _ _ HI Hr) as (Hb & Hbq & _).
    { by intros a ?%elem_of_nil. }
    by destruct (inv_closed _ _ _ HI b Hb Hbq).
  - destruct (edge k) eqn:Hedge.
    + destruct (core_queue_seen _ _ _ (inv_core _ _ _ HI) k) as [lk Hlk]; [by left|].
      rewrite (buildPath_tree _ _ _ _ _ _ _ (inv_core _ _ _ HI) Hlk)
        by (by apply (core_size _ _ _ (inv_core _ _ _ HI) k)).
      rewrite app_nil_r. eexists. split; [done|]. simpl. exists k.
      assert (Hrt : hash <$> (unhash <$> lk) = lk).
      { rewrite <- list_fmap_compose. rewrite <- (list_fmap_id lk) at 2.
        apply list_fmap_ext. intros _ x _. apply hash_unhash. }
      rewrite Hrt. split_and!; [by apply (core_route _ _ _ (inv_core _ _ _ HI)) | done |].
      intros q b Hr Hb. rewrite length_fmap.
      destruct (decide (length lk ≤ length q)) as [|Hlt]; [done|].
      destruct (inv_levels _ _ _ HI) as [n HL].
      destruct (low_routes _ _ _ _ _ HI Hr) as (Hsb & Hbq & _).
      { intros a Ha. pose proof (levels_head _ _ _ _ _ HL Ha) as Hd.
        rewrite (dep_lookup _ _ _ Hlk) in Hd. lia. }
      destruct (inv_closed _ _ _ HI b Hsb Hbq). congruence.
    + pose proof (inv_mid _ _ _ _ HI Hedge) as HM. apply mid_expand in HM.
      pose proof (expand_measure k (getNeighbors (unhash k)) (rest, parent)) as Hm.
      unfold expand.
      destruct (fold_left (visit k) (getNeighbors (unhash k)) (rest, parent)) as [q' p'].
      simpl in *. eapply IH; [done | lia].
Qed.

(** *** Which of several shortest routes is found *)

(** [a] was discovered before [b]: by a shorter route, or by a route of the
    same length that comes first in the neighbour order. *)
Definition prec (T : gmap key (list key)) (a b : key) : Prop :=
  dep T a < dep T b ∨ (dep T a = dep T b ∧ routeLt (treeOf T a) (treeOf T b)).

Fixpoint ordered (T : gmap key (list key)) (queue : list key) : Prop :=
  match queue with
  | [] => True
  | a :: q => (∀ b, b ∈ q → prec T a b) ∧ ordered T q
  end.

(** The route by which [v] was discovered is the first, in the neighbour
    order, of all routes to [v] of that length. *)
Definition firstFound (T : gmap key (list key)) (v : key) : Prop :=
  ∀ q, route q v → length q = dep T v → q = treeOf T v ∨ routeLt (treeOf T v) q.

Record LexInv (queue : list key) (parent : gmap key (option key))
       (T : gmap key (list key)) : Prop := {
  lex_ordered : ordered T queue;
  lex_done : ∀ u a, is_Some (T !! u) → u ∉ queue → a ∈ queue → prec T u a;
  lex_first : ∀ v, is_Some (T !! v) → firstFound T v;
  lex_parent : ∀ v p, parent !! v = Some (Some p) → p ∉ queue
}.

Record LexMid (k : key) (seenNbrs todo : list HexGridSquare) (queue : list key)
       (parent : gmap key (option key)) (T : gmap key (list key)) : Prop := {
  lmid_nbrs : getNeighbors (unhash k) = seenNbrs ++ todo;
  lmid_ordered : ordered T queue;
  lmid_done : ∀ u a, is_Some (T !! u) → u ∉ queue → u ≠ k → a ∈ queue → prec T u a;
  lmid_key_after : ∀ u, is_Some (T !! u) → u ∉ queue → u ≠ k → prec T u k;
  lmid_key_before : ∀ a, a ∈ queue → prec T k a;
  lmid_first : ∀ v, is_Some (T !! v) → firstFound T v;
  lmid_parent : ∀ v p, parent !! v = Some (Some p) → p ∉ queue;
  lmid_children : ∀ a, parent !! a = Some (Some k) → a ∈ hash <$> seenNbrs
}.

Lemma treeOf_insert_ne T nk l k : nk ≠ k → treeOf (<[nk := l]> T) k = treeOf T k.
Proof. intros. unfold treeOf. by rewrite lookup_insert_ne. Qed.

Lemma prec_insert T nk l a b :
  nk ≠ a → nk ≠ b → prec (<[nk := l]> T) a b ↔ prec T a b.
Proof. intros. unfold prec. by rewrite !dep_insert_ne, !treeOf_insert_ne. Qed.

Lemma ordered_insert T nk l queue :
  nk ∉ queue → ordered T queue → ordered (<[nk := l]> T) queue.
Proof.
  induction queue as [|a q IH]; [done|].
  intros [Ha Hq]%not_elem_of_cons [Hfirst Hrest]. split; [|by apply IH].
  intros b Hb. apply prec_insert; [done | by intros -> | by apply Hfirst].
Qed.

Lemma ordered_snoc T queue x :
  ordered T queue → (∀ a, a ∈ queue → prec T a x) → ordered T (queue ++ [x]).
Proof.
  induction queue as [|a q IH]; simpl.
  - intros _ _. split; [by intros b ?%elem_of_nil | done].
  - intros [Hfirst Hrest] Hx. split.
    + intros b [Hb| ->%list_elem_of_singleton]%elem_of_app; [by apply Hfirst|].
      apply Hx. by left.
    + apply IH; [done|]. intros b Hb. apply Hx. by right.
Qed.

Lemma firstFound_insert T nk l v :
  nk ≠ v → firstFound T v → firstFound (<[nk := l]> T) v.
Proof.
  intros Hne Hf q Hq. rewrite dep_insert_ne, treeOf_insert_ne by done. by apply Hf.
Qed.

Lemma treeOf_lookup T k l : T !! k = Some l → treeOf T k = l.
Proof. unfold treeOf. by intros ->. Qed.

Lemma lexinv_init : LexInv [s] {[ s := None ]} {[ s := [s] ]}.
Proof.
  split.
  - split; [by intros b ?%elem_of_nil | done].
  - intros u a [l Hu] Hn. apply lookup_singleton_Some in Hu as [<- _].
    destruct Hn. by left.
  - intros v [l Hv]. apply lookup_singleton_Some in Hv as [<- <-].
    intros q Hq. rewrite (dep_lookup _ _ [s]) by apply lookup_singleton_eq.
    rewrite (treeOf_lookup _ _ [s]) by apply lookup_singleton_eq.
    destruct Hq as [|l u v Hr Hm]; [by left|].
    rewrite length_app. simpl. apply route_nonempty in Hr. destruct l; [done | simpl; lia].
  - intros v p Hv. apply lookup_singleton_Some in Hv. by destruct Hv.
Qed.

Lemma lexinv_mid k rest parent T :
  LexInv (k :: rest) parent T → LexMid k [] (getNeighbors (unhash k)) rest parent T.
Proof.
  intros [[Hfirst Hord] Hdone Hff Hpar]. split; try done.
  - intros u a Hu Hr Hne Ha. apply Hdone; [done | by apply not_elem_of_cons | by right].
  - intros u Hu Hr Hne. apply Hdone; [done | by apply not_elem_of_cons | by left].
  - intros v p Hv. specialize (Hpar v p Hv). by apply not_elem_of_cons in Hpar as [_ ?].
  - intros a Ha. specialize (Hpar a k Ha). destruct Hpar. by left.
Qed.

Lemma lexmid_inv k seenNbrs queue parent T :
  LexMid k seenNbrs [] queue parent T → LexInv queue parent T.
Proof.
  intros [_ Hord Hdone Hafter Hbefore Hff Hpar _]. split; try done.
  intros u a Hu Hq Ha. destruct (decide (u = k)) as [->|Hne]; [by apply Hbefore|].
  by apply Hdone.
Qed.

Lemma mid_low_routes k todo queue parent T q b :
  Mid k todo queue parent T → route q b → length q ≤ dep T k →
  is_Some (T !! b) ∧ dep T b ≤ length q.
Proof.
  intros HM. induction 1 as [|l u v Hr IH Hmv]; intros Hlen.
  - pose proof (core_start_tree _ _ _ (mid_core _ _ _ _ _ HM)) as Hs.
    rewrite (dep_lookup _ _ _ Hs). eauto.
  - rewrite length_app in Hlen |- *. simpl in *.
    destruct IH as [Hu Hdu]; [lia|].
    assert (u ≠ k) by (intros ->; lia).
    assert (u ∉ queue).
    { intros Hin. pose proof (levels_queue_ge _ _ _ _ (mid_levels _ _ _ _ _ HM) Hin). lia. }
    destruct (mid_closed _ _ _ _ _ HM u) as [_ Hnext]; [done..|].
    destruct (Hnext v Hmv). split; [done | lia].
Qed.

Lemma lexmid_visit k n seenNbrs todo queue parent T :
  Mid k (n :: todo) queue parent T →
  LexMid k seenNbrs (n :: todo) queue parent T →
  LexMid k (seenNbrs ++ [n]) todo
         (visit k (queue, parent) n).1 (visit k (queue, parent) n).2
         (visitT k parent T n).
Proof.
  intros HM [Hnb Hord Hdone Hafter Hbefore Hff Hpar Hch].
  assert (Hnb' : getNeighbors (unhash k) = (seenNbrs ++ [n]) ++ todo)
    by (by rewrite <- app_assoc).
  unfold visitT. destruct (fresh parent (hash n)) eqn:Hf.
  2:{ rewrite visit_stale by done. simpl. split; try done.
      intros a Ha. rewrite fmap_app, elem_of_app. left. by apply Hch. }
  rewrite visit_fresh by done. simpl.
  apply fresh_true in Hf as (Hp & Hboard & Hblocked).
  pose proof (mid_core _ _ _ _ _ HM) as HC.
  pose proof (mid_levels _ _ _ _ _ HM) as HL.
  set (nk := hash n) in *.
  destruct (mid_key_seen _ _ _ _ _ HM) as [lk Hlk].
  rewrite (treeOf_lookup _ _ _ Hlk).
  assert (HTnk : T !! nk = None).
  { apply eq_None_not_Some. rewrite (core_dom _ _ _ HC), Hp. by intros []. }
  assert (Hne : ∀ v, is_Some (T !! v) → nk ≠ v).
  { intros v [? Hv] <-. congruence. }
  assert (Hknk : nk ≠ k) by (apply Hne; eauto).
  assert (Hqnk : nk ∉ queue).
  { intros Hin. apply (Hne nk); [|done]. by apply (core_queue_seen _ _ _ HC). }
  assert (Hmove : move k nk).
  { split; [|done]. apply (mid_todo _ _ _ _ _ HM). by left. }
  assert (Hdk : dep (<[nk := lk ++ [nk]]> T) k = dep T k) by (by apply dep_insert_ne).
  assert (Htk : treeOf (<[nk := lk ++ [nk]]> T) k = lk).
  { rewrite treeOf_insert_ne by done. by apply treeOf_lookup. }
  assert (Htnk : treeOf (<[nk := lk ++ [nk]]> T) nk = lk ++ [nk]) by apply treeOf_lookup, lookup_insert_eq.
  assert (Hdnk : dep (<[nk := lk ++ [nk]]> T) nk = S (dep T k)).
  { unfold dep. rewrite Htnk, length_app, <- Htk. simpl.
    rewrite treeOf_insert_ne by done. unfold dep. lia. }
  assert (Hlenk : length lk = dep T k) by (by rewrite (dep_lookup _ _ _ Hlk)).
  pose proof (core_route _ _ _ HC _ _ Hlk) as Hrk.
  assert (Hnew : ∀ a, a ∈ queue → prec (<[nk := lk ++ [nk]]> T) a nk).
  { intros a Ha.
    assert (Hsa : is_Some (T !! a)) by (by apply (core_queue_seen _ _ _ HC)).
    assert (Hane : nk ≠ a) by (by apply Hne).
    pose proof (lev_all _ _ _ HL a Hsa) as Hup.
    unfold prec. rewrite Hdnk, Htnk, dep_insert_ne, treeOf_insert_ne by done.
    destruct (decide (dep T a = S (dep T k))) as [Hda|]; [right; split; [done|] | left; lia].
    destruct (proj1 (core_dom _ _ _ HC a) Hsa) as [[pa|] Hpa].
    2:{ apply (core_null _ _ _ HC) in Hpa as ->.
        rewrite (dep_lookup _ _ _ (core_start_tree _ _ _ HC)) in Hda. simpl in Hda.
        apply route_nonempty in Hrk. destruct lk; [done | simpl in *; lia]. }
    destruct (core_parent _ _ _ HC _ _ Hpa) as (l & Hl & Hal).
    rewrite (treeOf_lookup _ _ _ Hal).
    rewrite (dep_lookup _ _ _ Hal), length_app in Hda. simpl in Hda.
    destruct (decide (pa = k)) as [->|Hpk].
    - assert (l = lk) as -> by congruence.
      apply (routeLt_snoc_dir lk s); [by apply route_nonempty in Hrk|].
      rewrite (route_last _ _ _ _ _ Hrk). unfold direction.
      rewrite Hnb, fmap_app. apply indexOf_app_lt; [by apply Hch|].
      pose proof (getNeighbors_NoDup (unhash k)) as Hnd.
      rewrite Hnb, fmap_app in Hnd. apply NoDup_app in Hnd as (_ & Hdisj & _).
      intros Hin. apply (Hdisj nk Hin). rewrite fmap_cons. by left.
    - assert (Hprec : prec T pa k).
      { apply Hafter; [eauto | by eapply Hpar | done]. }
      destruct Hprec as [Hlt|[_ Hlt]].
      { rewrite (dep_lookup _ _ _ Hl) in Hlt. lia. }
      rewrite (treeOf_lookup _ _ _ Hl), (treeOf_lookup _ _ _ Hlk) in Hlt.
      apply routeLt_snoc; [lia | done]. }
  split.
  - done.
  - apply ordered_snoc; [by apply ordered_insert | done].
  - intros u a Hu [Hu1 Hu2]%not_elem_of_app Huk [Ha| ->%list_elem_of_singleton]%elem_of_app.
    + assert (nk ≠ u) by (intros ->; apply Hu2; by left).
      rewrite lookup_insert_ne in Hu by done.
      apply prec_insert; [done | by intros -> | by apply Hdone].
    + assert (nk ≠ u) by (intros ->; apply Hu2; by left).
      rewrite lookup_insert_ne in Hu by done.
      left. rewrite Hdnk, dep_insert_ne by done.
      pose proof (lev_done _ _ _ HL u Hu Hu1). lia.
  - intros u Hu [Hu1 Hu2]%not_elem_of_app Huk.
    assert (nk ≠ u) by (intros ->; apply Hu2; by left).
    rewrite lookup_insert_ne in Hu by done.
    apply prec_insert; [done | done | by apply Hafter].
  - intros a [Ha| ->%list_elem_of_singleton]%elem_of_app.
    + apply prec_insert; [done | by intros -> | by apply Hbefore].
    + left. rewrite Hdk, Hdnk. lia.
  - intros v Hv. destruct (decide (v = nk)) as [->|Hvn].
    2:{ rewrite lookup_insert_ne in Hv by done. apply firstFound_insert; [done|].
        by apply Hff. }
    intros q Hq. rewrite Htnk, Hdnk. intros Hlen.
    destruct Hq as [|l u v Hr Hmv].
    { rewrite (core_start_tree _ _ _ HC) in HTnk. done. }
    rewrite length_app in Hlen. simpl in Hlen.
    destruct (mid_low_routes _ _ _ _ _ _ _ HM Hr) as [Hsu Hdu]; [lia|].
    destruct (decide (u = k)) as [->|Huk].
    { destruct (Hff k (ltac:(eauto)) l Hr) as [->|Hlt]; [lia | | ].
      - left. by rewrite (treeOf_lookup _ _ _ Hlk).
      - right. rewrite (treeOf_lookup _ _ _ Hlk) in Hlt.
        apply routeLt_snoc; [lia | done]. }
    destruct (decide (u ∈ queue)) as [Huq|Huq].
    { pose proof (levels_queue_ge _ _ _ _ HL Huq) as Hge.
      assert (Hlk' : routeLt lk (treeOf T u)).
      { destruct (Hbefore u Huq) as [?|[_ Hlt]]; [lia|].
        by rewrite (treeOf_lookup _ _ _ Hlk) in Hlt. }
      right. apply routeLt_snoc; [lia|].
      destruct (Hff u Hsu l Hr) as [->|Hlt]; [lia | done |].
      by eapply routeLt_trans. }
    destruct (mid_closed _ _ _ _ _ HM u Hsu Huq Huk) as [_ Hnext].
    destruct (Hnext v Hmv) as [[? Hsv] _]. congruence.
  - intros v p. rewrite lookup_insert. case_decide as Hv.
    + intros [= <-]. apply not_elem_of_app. split; [by apply (mid_key_out _ _ _ _ _ HM)|].
      by intros ->%list_elem_of_singleton.
    + intros Hvp. apply not_elem_of_app. split; [by eapply Hpar|].
      intros ->%list_elem_of_singleton.
      destruct (core_parent _ _ _ HC _ _ Hvp) as (l & Hl & _). congruence.
  - intros a. rewrite lookup_insert, fmap_app, elem_of_app. case_decide as Ha.
    + intros _. right. subst a. rewrite list_fmap_singleton. by left.
    + intros Hak. left. by apply Hch.
Qed.

Lemma lexmid_expand k seenNbrs todo queue parent T :
  Mid k todo queue parent T → LexMid k seenNbrs todo queue parent T →
  LexInv (fold_left (visit k) todo (queue, parent)).1
         (fold_left (visit k) todo (queue, parent)).2
         (expandT k todo (queue, parent) T).
Proof.
  revert seenNbrs queue parent T.
  induction todo as [|n todo IH]; intros seenNbrs queue parent T HM HLM.
  - by apply lexmid_inv in HLM.
  - simpl. pose proof (lexmid_visit _ _ _ _ _ _ _ HM HLM) as HLM'.
    apply mid_visit in HM.
    destruct (visit k (queue, parent) n) as [q' p'] eqn:Hv. by eapply IH.
Qed.

(** When an edge key [k] is dequeued, its route comes first among all escape
    routes of that length. *)
Lemma head_route_first k rest parent T q b :
  Inv (k :: rest) parent T → LexInv (k :: rest) parent T →
  route q b → edge b = true → length q = dep T k →
  q = treeOf T k ∨ routeLt (treeOf T k) q.
Proof.
  intros HI HLI Hq Hb Hlen.
  destruct (inv_levels _ _ _ HI) as [n HL].
  assert (Hbq : is_Some (T !! b) ∧ b ∈ k :: rest ∧ dep T b ≤ length q).
  { assert (Hopen : ∀ u, is_Some (T !! u) → edge u = true → u ∈ k :: rest).
    { intros u Hu He. destruct (decide (u ∈ k :: rest)) as [|Hout]; [done|].
      destruct (inv_closed _ _ _ HI u Hu Hout). congruence. }
    destruct Hq as [|l u v Hr Hmv].
    - pose proof (core_start_tree _ _ _ (inv_core _ _ _ HI)) as Hs.
      split_and!; [eauto | apply Hopen; eauto |].
      by rewrite (dep_lookup _ _ _ Hs).
    - rewrite length_app in Hlen |- *. simpl in *.
      destruct (low_routes _ _ _ _ _ HI Hr) as (Hu & Huq & Hdu).
      { intros a Ha. pose proof (levels_head _ _ _ _ _ HL Ha). lia. }
      destruct (inv_closed _ _ _ HI u Hu Huq) as [_ Hnext].
      destruct (Hnext v Hmv) as [Hv Hdv].
      split_and!; [done | by apply Hopen | lia]. }
  destruct Hbq as (Hsb & Hin & Hdb).
  pose proof (levels_head _ _ _ _ _ HL Hin) as Hge.
  destruct (lex_first _ _ _ HLI b Hsb q Hq) as [->|Hlt]; [lia | |].
  - apply elem_of_cons in Hin as [->|Hin]; [by left|].
    destruct (proj1 (lex_ordered _ _ _ HLI) b Hin) as [?|[_ Hlt]]; [lia|]. by right.
  - apply elem_of_cons in Hin as [->|Hin]; [by right|].
    destruct (proj1 (lex_ordered _ _ _ HLI) b Hin) as [?|[_ Hlt']]; [lia|].
    right. by eapply routeLt_trans.
Qed.

Lemma bfsLoop_first fuel queue parent T path q b :
  Inv queue parent T → LexInv queue parent T →
  bfsLoop fuel queue parent = Some (Some path) →
  route q b → edge b = true → length q = length path →
  q = hash <$> path ∨ routeLt (hash <$> path) q.
Proof.
  revert queue parent T. induction fuel as [|fuel IH]; intros queue parent T HI HLI; [done|].
  destruct queue as [|k rest]; simpl; [done|].
  destruct (edge k) eqn:Hedge.
  - destruct (core_queue_seen _ _ _ (inv_core _ _ _ HI) k) as [lk Hlk]; [by left|].
    rewrite (buildPath_tree _ _ _ _ _ _ _ (inv_core _ _ _ HI) Hlk)
      by (by apply (core_size _ _ _ (inv_core _ _ _ HI) k)).
    rewrite app_nil_r. intros [= <-] Hq Hb.
    assert (Hrt : hash <$> (unhash <$> lk) = lk).
    { rewrite <- list_fmap_compose. rewrite <- (list_fmap_id lk) at 2.
      apply list_fmap_ext. intros _ x _. apply hash_unhash. }
    rewrite Hrt, length_fmap. intros Hlen.
    rewrite <- (treeOf_lookup _ _ _ Hlk).
    eapply head_route_first; try done. by rewrite (dep_lookup _ _ _ Hlk).
  - pose proof (inv_mid _ _ _ _ HI Hedge) as HM.
    pose proof (lexmid_expand _ _ _ _ _ _ HM (lexinv_mid _ _ _ _ HLI)) as HLI'.
    apply mid_expand in HM. unfold expand.
    destruct (fold_left (visit k) (getNeighbors (unhash k)) (rest, parent)) as [q' p'].
    simpl in *. by eapply IH.
Qed.

End SearchProof.

(** ** The search, seen from outside *)

Section SearchResults.

Variable blockedSet : gset key.
Variable boardSquares : list key.
Variables gridWidth gridHeight : Z.

Local Abbreviation escapeRoute := (escapeRoute blockedSet boardSquares gridWidth gridHeight).
Local Abbreviation searchRun := (findShortestEscapePath_run blockedSet boardSquares gridWidth gridHeight).

Lemma escapeRoute_route start q :
  escapeRoute start q = true ↔
  ∃ b, route blockedSet boardSquares (hash start) q b
       ∧ onEdge (unhash b) gridWidth gridHeight = true.
Proof.
  split.
  - destruct q as [|a l']; [done|]. simpl.
    rewrite !andb_true_iff, bool_decide_eq_true. intros [[-> Hw] He].
    eexists. split; [by apply walkb_route | done].
  - intros (b & Hr & He). apply route_walkb in Hr as (l' & -> & Hw & <-).
    simpl. rewrite Hw, He. by rewrite bool_decide_eq_true_2.
Qed.

Lemma searchFuel_enough start :
  (unseen boardSquares {[ hash start := None ]} + length [hash start]
   < searchFuel boardSquares)%nat.
Proof.
  unfold unseen, searchFuel. simpl.
  pose proof (length_filter (λ x, ({[ hash start := None ]} : gmap key (option key)) !! x = None)
                            boardSquares).
  lia.
Qed.

(** The run of the search on any input: it returns, and what it returns
    is a shortest escape route, or [null] when there is none. *)
Lemma run_spec start :
  ∃ r, searchRun start = Some r ∧
       match r with
       | Some path =>
           escapeRoute start (hash <$> path) = true
           ∧ ∀ q, escapeRoute start q = true → (length path ≤ length q)%nat
       | None => ∀ q, escapeRoute start q = false
       end.
Proof.
  destruct (bfsLoop_spec blockedSet boardSquares gridWidth gridHeight (hash start)
              (searchFuel boardSquares) _ _ _ (inv_init _ _ _ _ _) (searchFuel_enough start))
    as (r & Hrun & HP).
  exists r. split; [done|]. destruct r as [path|]; simpl in HP.
  - destruct HP as (k & Hr & He & Hmin). split.
    + apply escapeRoute_route. eauto.
    + intros q (b & Hq & Hb)%escapeRoute_route. eauto.
  - intros q. apply not_true_is_false. intros (b & Hq & Hb)%escapeRoute_route.
    rewrite (HP q b Hq) in Hb. done.
Qed.

End SearchResults.

Lemma run_total blockedSet boardSquares gridWidth gridHeight start :
  findShortestEscapePath_run blockedSet boardSquares gridWidth gridHeight start
  = Some (findShortestEscapePath blockedSet boardSquares gridWidth gridHeight start).
Proof.
  unfold findShortestEscapePath.
  by destruct (run_spec blockedSet boardSquares gridWidth gridHeight start) as (r & -> & _).
Qed.

(** The route handed to [getNextStep] starts at the lobster, and its second
    cell, when there is one, is one move away: on the board, not blocked. *)
Lemma path_second_cell blockedSet boardSquares gridWidth gridHeight start path nextPos :
  findShortestEscapePath blockedSet boardSquares gridWidth gridHeight start = Some path →
  path !! 1%nat = Some nextPos →
  move blockedSet boardSquares (hash start) (hash nextPos).
Proof.
  intros Hp Hn.
  destruct (run_spec blockedSet boardSquares gridWidth gridHeight start) as (r & Hr & Hpost).
  rewrite run_total, Hp in Hr. injection Hr as <-. destruct Hpost as [Hesc _].
  destruct path as [|a [|b path]]; try done. injection Hn as ->.
  simpl in Hesc. rewrite !andb_true_iff, bool_decide_eq_true in Hesc.
  destruct Hesc as [[Heq [Hm _]] _]. rewrite <- Heq. by apply moveb_move.
Qed.

Section NextStep.

Variable blockedSet : gset key.
Variable boardSquares : list key.
Variables gridWidth gridHeight : Z.

Local Abbreviation findPath := (findShortestEscapePath blockedSet boardSquares gridWidth gridHeight).
Local Abbreviation nextStep := (getNextStep blockedSet boardSquares gridWidth gridHeight).

Lemma getNextStep_none start :
  match findPath start with
  | None => True
  | Some path => (length path ≤ 1)%nat
  end →
  nextStep start = (None, false).
Proof.
  unfold getNextStep. destruct (findPath start) as [path|]; [|done].
  intros Hlen. by rewrite bool_decide_eq_true_2.
Qed.

Lemma getNextStep_some start path nextPos :
  findPath start = Some path → path !! 1%nat = Some nextPos →
  nextStep start = (Some nextPos, onEdge nextPos gridWidth gridHeight).
Proof.
  unfold getNextStep. intros -> Hn. rewrite Hn.
  apply lookup_lt_Some in Hn. rewrite bool_decide_eq_false_2; [done | lia].
Qed.

Lemma getNextStep_inv start nextPos e :
  nextStep start = (Some nextPos, e) →
  ∃ path, findPath start = Some path ∧ path !! 1%nat = Some nextPos
          ∧ e = onEdge nextPos gridWidth gridHeight.
Proof.
  unfold getNextStep. destruct (findPath start) as [path|]; [|done].
  case_bool_decide; [done|].
  destruct (path !! 1%nat) as [p|] eqn:Hp; [|done].
  intros [= <- <-]. eauto.
Qed.

Lemma onEdge_spec sq :
  onEdge sq gridWidth gridHeight = true ↔
  sq_x sq = 0 ∨ sq_x sq = gridWidth - 1 ∨ sq_y sq = 0 ∨ sq_y sq = gridHeight - 1.
Proof. unfold onEdge. rewrite !orb_true_iff, !Z.eqb_eq. tauto. Qed.

End NextStep.

(** ** The lobster already on the edge *)

(** C10. When the lobster's own cell is on the edge of the grid, the search
    dequeues it first and returns the one-cell route [[start]]; [getNextStep]
    then answers as for a capture: no next position, [escapedIfMove] false. *)
Theorem start_on_edge_reads_as_capture
        (blockedSet : gset key) (boardSquares : list key)
        (gridWidth gridHeight : Z) (start : HexGridSquare) :
  onEdge start gridWidth gridHeight = true →
  findShortestEscapePath_run blockedSet boardSquares gridWidth gridHeight start
  = Some (Some [start])
  ∧ getNextStep blockedSet boardSquares gridWidth gridHeight start = (None, false).
Proof.
  intros Hedge.
  assert (Hrun : findShortestEscapePath_run blockedSet boardSquares gridWidth gridHeight start
                 = Some (Some [start])).
  { unfold findShortestEscapePath_run, searchFuel. simpl.
    rewrite unhash_hash, Hedge, map_size_singleton. simpl.
    unfold mapGet. rewrite lookup_singleton_eq. simpl. by rewrite unhash_hash. }
  split; [done|]. apply getNextStep_none.
  unfold findShortestEscapePath. rewrite Hrun. simpl. lia.
Qed.

Lemma start_on_edge_reads_as_capture_witness :
  findShortestEscapePath_run {[ (3, 3) ]} board11x10 11 10 (mkSquare 0 4)
  = Some (Some [mkSquare 0 4])
  ∧ getNextStep {[ (3, 3) ]} board11x10 11 10 (mkSquare 0 4) = (None, false).
Proof. apply start_on_edge_reads_as_capture. reflexivity. Defined.

(** ** Placement and turn resolution *)

Lemma accepted_true b x y :
  accepted b x y = true ↔
  (gameOver b = false ∧ gameLost b = false ∧ isAnimating b = false ∧ isEscaping b = false)
  ∧ hash (mkSquare x y) ≠ hash (position (lobster b))
  ∧ hash (mkSquare x y) ∉ blockedSet b.
Proof.
  unfold accepted, setHas.
  rewrite !andb_true_iff, !negb_true_iff, !orb_false_iff, !bool_decide_eq_false.
  tauto.
Qed.

Lemma accepted_false b x y :
  accepted b x y = false ↔
  hash (mkSquare x y) ∈ blockedSet b
  ∨ hash (mkSquare x y) = hash (position (lobster b))
  ∨ gameOver b = true ∨ gameLost b = true ∨ isAnimating b = true ∨ isEscaping b = true.
Proof.
  unfold accepted, setHas.
  rewrite !andb_false_iff, !negb_false_iff, !orb_true_iff, !bool_decide_eq_true.
  tauto.
Qed.

Lemma resolveTurn_blockedSet w lobsterTile :
  blockedSet (board (resolveTurn w lobsterTile)) = blockedSet (board w).
Proof. unfold resolveTurn. by destruct (getNextStep _ _ _ _ _) as [[?|] ?]. Qed.

Lemma resolveTurn_position w lobsterTile :
  position (lobster (board (resolveTurn w lobsterTile))) = position (lobster (board w)).
Proof. unfold resolveTurn. by destruct (getNextStep _ _ _ _ _) as [[?|] ?]. Qed.

Lemma clickHexTile_accepted w x y lobsterTile :
  accepted (board w) x y = true →
  clickHexTile w x y lobsterTile
  = resolveTurn (mkWorld (placeRock (board w) x y) (timers w) (totalPoints w)) lobsterTile.
Proof. unfold clickHexTile. by intros ->. Qed.

Lemma clickHexTile_rejected w x y lobsterTile :
  accepted (board w) x y = false → clickHexTile w x y lobsterTile = w.
Proof. unfold clickHexTile. by intros ->. Qed.

Lemma clickHexTile_blockedSet w x y lobsterTile :
  accepted (board w) x y = true →
  blockedSet (board (clickHexTile w x y lobsterTile))
  = {[ hash (mkSquare x y) ]} ∪ blockedSet (board w).
Proof. intros Ha. by rewrite clickHexTile_accepted, resolveTurn_blockedSet. Qed.

(** C2. On an accepted placement, when the search on the enlarged obstacle
    set returns [null] or a route without a second cell, the click ends the
    round as a capture: [gameOver] is set, no move is scheduled (the only
    callback added is the capture display, when the lobster's tile is
    shown), and the lobster, its position included, is as before the call. *)
Theorem capture_sets_gameOver_and_keeps_position
        (w : World) (x y : Z) (lobsterTile : bool) :
  accepted (board w) x y = true →
  match findShortestEscapePath
          ({[ hash (mkSquare x y) ]} ∪ blockedSet (board w)) (boardSquares (board w))
          (gridWidth (board w)) (gridHeight (board w)) (position (lobster (board w))) with
  | None => True
  | Some path => (length path ≤ 1)%nat
  end →
  gameOver (board (clickHexTile w x y lobsterTile)) = true
  ∧ position (lobster (board (clickHexTile w x y lobsterTile)))
    = position (lobster (board w))
  ∧ lobster (board (clickHexTile w x y lobsterTile)) = lobster (board w)
  ∧ isAnimating (board (clickHexTile w x y lobsterTile)) = false
  ∧ timers (clickHexTile w x y lobsterTile)
    = timers w ++ (if lobsterTile then [StoneFly] else []).
Proof.
  intros Ha Hpath. rewrite clickHexTile_accepted by done.
  apply accepted_true in Ha as ((_ & _ & Hanim & _) & _).
  unfold resolveTurn. simpl. rewrite getNextStep_none by done. simpl. done.
Qed.

Definition surroundedWorld : World :=
  mkWorld (mkBoard {[ (4, 5); (6, 5); (5, 4); (6, 4); (5, 6) ]}
                   (mkLobster (mkSquare 5 5) 0) false false false false
                   11 10 board11x10)
          [] 0.

Lemma capture_sets_gameOver_and_keeps_position_witness :
  gameOver (board (clickHexTile surroundedWorld 6 6 true)) = true
  ∧ position (lobster (board (clickHexTile surroundedWorld 6 6 true))) = mkSquare 5 5
  ∧ lobster (board (clickHexTile surroundedWorld 6 6 true)) = mkLobster (mkSquare 5 5) 0
  ∧ isAnimating (board (clickHexTile surroundedWorld 6 6 true)) = false
  ∧ timers (clickHexTile surroundedWorld 6 6 true) = [StoneFly].
Proof.
  apply (capture_sets_gameOver_and_keeps_position surroundedWorld 6 6 true).
  - vm_compute. reflexivity.
  - vm_compute. exact I.
Defined.

(** C5. [clickHexTile] returns without touching anything exactly when the
    cell already holds a rock, is the lobster's cell, or one of [gameOver],
    [gameLost], [isAnimating], [isEscaping] is set.  Otherwise the call is
    the turn resolution applied to the state whose only change is the new
    key in [blockedSet]; the obstacle set afterwards is the old one plus that
    key, and a second click on the same cell, whenever it comes while the key
    is still there, changes nothing. *)
Theorem clickHexTile_rejects_exactly (w : World) (x y : Z) (lobsterTile : bool) :
  (clickHexTile w x y lobsterTile = w ↔ accepted (board w) x y = false)
  ∧ (accepted (board w) x y = false ↔
       hash (mkSquare x y) ∈ blockedSet (board w)
       ∨ hash (mkSquare x y) = hash (position (lobster (board w)))
       ∨ gameOver (board w) = true ∨ gameLost (board w) = true
       ∨ isAnimating (board w) = true ∨ isEscaping (board w) = true)
  ∧ (accepted (board w) x y = true →
       clickHexTile w x y lobsterTile
       = resolveTurn (mkWorld (withBlockedSet (board w)
                                 ({[ hash (mkSquare x y) ]} ∪ blockedSet (board w)))
                              (timers w) (totalPoints w)) lobsterTile
       ∧ blockedSet (board (clickHexTile w x y lobsterTile))
         = {[ hash (mkSquare x y) ]} ∪ blockedSet (board w))
  ∧ (∀ tile', clickHexTile (clickHexTile w x y lobsterTile) x y tile'
              = clickHexTile w x y lobsterTile)
  ∧ (∀ w' tile', hash (mkSquare x y) ∈ blockedSet (board w') →
                 clickHexTile w' x y tile' = w').
Proof.
  assert (Hlater : ∀ w' tile', hash (mkSquare x y) ∈ blockedSet (board w') →
                               clickHexTile w' x y tile' = w').
  { intros w' tile' Hin. apply clickHexTile_rejected, accepted_false. by left. }
  split_and!.
  - split; [|apply clickHexTile_rejected].
    intros Hsame. apply not_true_is_false. intros Ha.
    pose proof (clickHexTile_blockedSet w x y lobsterTile Ha) as Hb.
    rewrite Hsame in Hb. apply accepted_true in Ha as (_ & _ & Hnot).
    apply Hnot. rewrite Hb. apply elem_of_union_l. by apply elem_of_singleton.
  - apply accepted_false.
  - intros Ha. split; [by apply clickHexTile_accepted | by apply clickHexTile_blockedSet].
  - intros tile'. destruct (accepted (board w) x y) eqn:Ha.
    + apply Hlater. rewrite clickHexTile_blockedSet by done.
      apply elem_of_union_l. by apply elem_of_singleton.
    + rewrite (clickHexTile_rejected w x y lobsterTile Ha).
      by apply clickHexTile_rejected.
  - done.
Qed.

Lemma dispatch_fire_last w l t dom draws :
  timers w = l ++ [t] →
  dispatch w (Fire (length l) dom draws)
  = runTimer (mkWorld (board w) l (totalPoints w)) t dom draws.
Proof.
  intros Ht. simpl. rewrite Ht, list_lookup_middle by done. simpl.
  by rewrite delete_middle, app_nil_r.
Qed.

Lemma runEvents_cons w e es :
  runEvents w (e :: es) = dispatch w e ≫= λ w', runEvents w' es.
Proof. done. Qed.

Lemma dispatch_click w x y lobsterTile :
  dispatch w (Click x y lobsterTile) = Some (clickHexTile w x y lobsterTile).
Proof. done. Qed.

Lemma bind_of_Some {A B} (a : A) (f : A → option B) : Some a ≫= f = f a.
Proof. done. Qed.

(** C3 (as amended). On an accepted placement whose recomputed route has a
    second cell [nextPos], [getNextStep] returns that cell with
    [escapedIfMove] equal to the edge test on it (column 0 or width-1, row 0
    or height-1).  Running the three animation callbacks then leaves the
    lobster on exactly [nextPos] with the hold released.  The round ends as
    an escape ([isEscaping] set, the reset of the round pending) exactly when
    [nextPos] is on the edge and the lobster's tile is found when the jump
    ends ([tile4]); otherwise nothing is pending and input is open again. *)
Theorem move_lands_on_next_cell
        (w : World) (x y : Z) (lobsterTile dom1 dom2 tile4 : bool)
        (draws1 draws2 draws3 : list nat)
        (path : list HexGridSquare) (nextPos : HexGridSquare) :
  accepted (board w) x y = true →
  findShortestEscapePath
    ({[ hash (mkSquare x y) ]} ∪ blockedSet (board w)) (boardSquares (board w))
    (gridWidth (board w)) (gridHeight (board w)) (position (lobster (board w)))
  = Some path →
  path !! 1%nat = Some nextPos →
  getNextStep
    ({[ hash (mkSquare x y) ]} ∪ blockedSet (board w)) (boardSquares (board w))
    (gridWidth (board w)) (gridHeight (board w)) (position (lobster (board w)))
  = (Some nextPos, onEdge nextPos (gridWidth (board w)) (gridHeight (board w)))
  ∧ (onEdge nextPos (gridWidth (board w)) (gridHeight (board w)) = true ↔
       sq_x nextPos = 0 ∨ sq_x nextPos = gridWidth (board w) - 1
       ∨ sq_y nextPos = 0 ∨ sq_y nextPos = gridHeight (board w) - 1)
  ∧ ∃ w',
      runEvents w [Click x y lobsterTile;
                   Fire (length (timers w)) dom1 draws1;
                   Fire (length (timers w)) dom2 draws2;
                   Fire (length (timers w)) tile4 draws3] = Some w'
      ∧ position (lobster (board w')) = nextPos
      ∧ blockedSet (board w') = {[ hash (mkSquare x y) ]} ∪ blockedSet (board w)
      ∧ gameOver (board w') = false
      ∧ isAnimating (board w') = false
      ∧ isEscaping (board w')
        = onEdge nextPos (gridWidth (board w)) (gridHeight (board w)) && tile4
      ∧ timers w'
        = timers w ++
          (if onEdge nextPos (gridWidth (board w)) (gridHeight (board w)) && tile4
           then [EscapeReset] else []).
Proof.
  intros Ha Hpath Hnext.
  pose proof (getNextStep_some _ _ _ _ _ _ _ Hpath Hnext) as Hstep.
  split; [done|]. split; [apply onEdge_spec|].
  pose proof Ha as ((Hover & _ & _ & Hesc) & _)%accepted_true.
  rewrite runEvents_cons, dispatch_click, bind_of_Some.
  rewrite clickHexTile_accepted by done.
  unfold resolveTurn. cbn [board placeRock withBlockedSet blockedSet boardSquares
                                 gridWidth gridHeight lobster].
  rewrite Hstep. unfold animateTurnWiggleJump. cbn [board timers totalPoints].
  rewrite runEvents_cons, (dispatch_fire_last _ (timers w) (Wiggle nextPos _)) by done.
  cbn [runTimer board timers totalPoints]. rewrite bind_of_Some.
  rewrite runEvents_cons, (dispatch_fire_last _ (timers w) (Jump nextPos _)) by done.
  cbn [runTimer board timers totalPoints]. rewrite bind_of_Some.
  rewrite runEvents_cons, (dispatch_fire_last _ (timers w) (Land _)) by done.
  cbn [runTimer board timers totalPoints]. rewrite bind_of_Some.
  eexists. split; [done|].
  destruct (onEdge nextPos _ _); [destruct tile4|]; simpl;
    rewrite ?app_nil_r; by rewrite ?Hover, ?Hesc.
Qed.

Definition openWorld : World :=
  mkWorld (mkBoard {[ (5, 6); (4, 6) ]} (mkLobster (mkSquare 5 8) 0)
                   false false false false 11 10 board11x10)
          [] 0.

Lemma move_lands_on_next_cell_witness :
  ∃ w', runEvents openWorld [Click 4 8 true; Fire 0 true []; Fire 0 true [];
                             Fire 0 true []] = Some w'
        ∧ position (lobster (board w')) = mkSquare 4 9
        ∧ isEscaping (board w') = true
        ∧ timers w' = [EscapeReset].
Proof.
  destruct (move_lands_on_next_cell openWorld 4 8 true true true true [] [] []
              [mkSquare 5 8; mkSquare 4 9] (mkSquare 4 9))
    as (_ & _ & w' & Hrun & Hpos & _ & _ & _ & Hesc & Htimers).
  - vm_compute. reflexivity.
  - vm_compute. reflexivity.
  - reflexivity.
  - exists w'. split; [exact Hrun|]. split; [exact Hpos|].
    split; [exact Hesc | exact Htimers].
Defined.

(** ** Every cell is queued at most once *)

Lemma fold_visit_pushed blockedSet boardSquares k todo queue parent :
  ∃ new,
    (fold_left (visit blockedSet boardSquares k) todo (queue, parent)).1 = queue ++ new
    ∧ NoDup new
    ∧ (∀ x, x ∈ new →
         parent !! x = None ∧ x ∈ boardSquares
         ∧ is_Some ((fold_left (visit blockedSet boardSquares k) todo (queue, parent)).2 !! x))
    ∧ (∀ x, is_Some (parent !! x) →
         is_Some ((fold_left (visit blockedSet boardSquares k) todo (queue, parent)).2 !! x)).
Proof.
  revert queue parent. induction todo as [|n todo IH]; intros queue parent.
  - exists []. rewrite app_nil_r. split_and!; [done | constructor | | done].
    by intros x ?%elem_of_nil.
  - simpl. destruct (fresh blockedSet boardSquares parent (hash n)) eqn:Hf.
    + rewrite visit_fresh by done.
      apply fresh_true in Hf as (Hp & Hb & _).
      destruct (IH (queue ++ [hash n]) (<[hash n := Some k]> parent))
        as (new & Hq & Hnd & Hnew & Hmono).
      assert (Hkept : ∀ x, is_Some (parent !! x) →
                is_Some ((fold_left (visit blockedSet boardSquares k) todo
                            (queue ++ [hash n], <[hash n := Some k]> parent)).2 !! x)).
      { intros x Hx. apply Hmono. rewrite lookup_insert. by case_decide. }
      exists (hash n :: new). split_and!.
      * by rewrite Hq, <- app_assoc.
      * constructor; [|done]. intros Hin.
        destruct (Hnew _ Hin) as (Habs & _). by rewrite lookup_insert_eq in Habs.
      * intros x [->|Hx]%elem_of_cons.
        -- split_and!; [done | done |]. apply Hmono. rewrite lookup_insert_eq. eauto.
        -- destruct (Hnew x Hx) as (Hnone & ? & ?). split_and!; [|done..].
           rewrite lookup_insert in Hnone. by case_decide.
      * done.
    + rewrite visit_stale by done. apply IH.
Qed.

Lemma bfsPushed_fresh blockedSet boardSquares gridWidth gridHeight fuel queue parent :
  (∀ x, x ∈ queue → is_Some (parent !! x)) →
  NoDup (bfsPushed blockedSet boardSquares gridWidth gridHeight fuel queue parent)
  ∧ ∀ x, x ∈ bfsPushed blockedSet boardSquares gridWidth gridHeight fuel queue parent →
         parent !! x = None ∧ x ∈ boardSquares.
Proof.
  revert queue parent. induction fuel as [|fuel IH]; intros queue parent Hseen; simpl.
  { split; [constructor | by intros x ?%elem_of_nil]. }
  destruct queue as [|k rest]; [split; [constructor | by intros x ?%elem_of_nil]|].
  destruct (onEdge _ _ _); [split; [constructor | by intros x ?%elem_of_nil]|].
  unfold expand.
  destruct (fold_visit_pushed blockedSet boardSquares k (getNeighbors (unhash k)) rest parent)
    as (new & Hq & Hnd & Hnew & Hmono).
  destruct (fold_left _ _ _) as [q' p']. simpl in *. subst q'.
  rewrite drop_app_length.
  destruct (IH (rest ++ new) p') as [Hnd' Hlater].
  { intros x [Hx|Hx]%elem_of_app.
    - apply Hmono, Hseen. by right.
    - by destruct (Hnew x Hx) as (_ & _ & ?). }
  assert (Hback : ∀ x, p' !! x = None → parent !! x = None).
  { intros x Hx. apply eq_None_not_Some. intros Hs. apply Hmono in Hs.
    rewrite Hx in Hs. by destruct Hs. }
  split.
  - apply NoDup_app. split_and!; [done | | done].
    intros x Hx Hx'. destruct (Hnew x Hx) as (_ & _ & [? Hs]).
    destruct (Hlater x Hx') as [Hn _]. congruence.
  - intros x [Hx|Hx]%elem_of_app.
    + by destruct (Hnew x Hx) as (? & ? & _).
    + destruct (Hlater x Hx) as [Hn ?]. split; [by apply Hback | done].
Qed.

(** ** The search is total and returns a shortest escape route *)

Lemma bfsLoop_more_fuel blockedSet boardSquares gridWidth gridHeight fuel extra queue parent r :
  bfsLoop blockedSet boardSquares gridWidth gridHeight fuel queue parent = Some r →
  bfsLoop blockedSet boardSquares gridWidth gridHeight (fuel + extra) queue parent = Some r.
Proof.
  revert queue parent. induction fuel as [|fuel IH]; intros queue parent; [done|].
  simpl. destruct queue as [|k rest]; [done|].
  destruct (onEdge _ _ _); [done|].
  destruct (expand _ _ _ _ _) as [q' p']. apply IH.
Qed.

Lemma run_distance blockedSet boardSquares gridWidth gridHeight start path :
  findShortestEscapePath_run blockedSet boardSquares gridWidth gridHeight start
  = Some (Some path) →
  escapeRoute blockedSet boardSquares gridWidth gridHeight start (hash <$> path) = true
  ∧ ∃ n, length path = S n
         ∧ escapeDistance blockedSet boardSquares gridWidth gridHeight start n.
Proof.
  intros Hrun.
  destruct (run_spec blockedSet boardSquares gridWidth gridHeight start) as (r & Hr & Hpost).
  rewrite Hrun in Hr. injection Hr as <-. destruct Hpost as [Hesc Hmin].
  split; [done|]. destruct path as [|a path]; [done|].
  exists (length path). split; [done|]. split.
  - exists (hash <$> a :: path). by rewrite length_fmap.
  - intros q' Hq'. by apply Hmin.
Qed.

Lemma run_any_fuel blockedSet boardSquares gridWidth gridHeight start :
  ∃ r, findShortestEscapePath_run blockedSet boardSquares gridWidth gridHeight start = Some r
       ∧ findShortestEscapePath blockedSet boardSquares gridWidth gridHeight start = r
       ∧ ∀ extra,
           bfsLoop blockedSet boardSquares gridWidth gridHeight
                   (searchFuel boardSquares + extra) [hash start] {[ hash start := None ]}
           = Some r.
Proof.
  destruct (run_spec blockedSet boardSquares gridWidth gridHeight start) as (r & Hr & _).
  exists r. split_and!; [done | by rewrite run_total in Hr; injection Hr |].
  intros extra. by apply bfsLoop_more_fuel.
Qed.

(** C1. Whenever some escape route exists (a chain of hex-adjacent cells,
    each on the board and not blocked, from the start to a cell on the edge),
    [findShortestEscapePath] returns an escape route from the start whose
    number of moves is the least number of moves of any escape route; when
    no escape route exists it returns [null]. *)
Theorem findShortestEscapePath_shortest
        (blockedSet : gset key) (boardSquares : list key)
        (gridWidth gridHeight : Z) (start : HexGridSquare) :
  (∀ q, escapeRoute blockedSet boardSquares gridWidth gridHeight start q = true →
     ∃ path n,
       findShortestEscapePath_run blockedSet boardSquares gridWidth gridHeight start
       = Some (Some path)
       ∧ escapeRoute blockedSet boardSquares gridWidth gridHeight start (hash <$> path) = true
       ∧ length path = S n
       ∧ escapeDistance blockedSet boardSquares gridWidth gridHeight start n)
  ∧ ((∀ q, escapeRoute blockedSet boardSquares gridWidth gridHeight start q = false) →
     findShortestEscapePath_run blockedSet boardSquares gridWidth gridHeight start
     = Some None).
Proof.
  destruct (run_spec blockedSet boardSquares gridWidth gridHeight start) as (r & Hr & Hpost).
  split.
  - intros q Hq. destruct r as [path|]; [|by rewrite Hpost in Hq].
    destruct (run_distance _ _ _ _ _ _ Hr) as (Hesc & n & Hlen & Hdist).
    by exists path, n.
  - intros Hnone. destruct r as [path|]; [|done].
    destruct Hpost as [Hesc _]. by rewrite Hnone in Hesc.
Qed.

Lemma findShortestEscapePath_shortest_witness :
  ∃ path n,
    findShortestEscapePath_run {[ (5, 6) ]} board11x10 11 10 (mkSquare 5 5)
    = Some (Some path)
    ∧ escapeRoute {[ (5, 6) ]} board11x10 11 10 (mkSquare 5 5) (hash <$> path) = true
    ∧ length path = S n
    ∧ escapeDistance {[ (5, 6) ]} board11x10 11 10 (mkSquare 5 5) n.
Proof.
  apply (proj1 (findShortestEscapePath_shortest {[ (5, 6) ]} board11x10 11 10 (mkSquare 5 5))
               [(5, 5); (6, 6); (6, 7); (6, 8); (6, 9)]).
  vm_compute. reflexivity.
Defined.

(** C9. On every start cell, obstacle set, board and grid size the search
    loop runs to completion: with the fuel [searchFuel], two more than the
    number of board keys, it returns a route or [null], and any larger fuel
    gives the same answer.  The bound holds because a key is pushed only while
    absent from the parent map and enters the map in the same step: over the
    whole run the start and the pushed keys are pairwise distinct, and every
    pushed key is a board key. *)
Theorem findShortestEscapePath_terminates
        (blockedSet : gset key) (boardSquares : list key)
        (gridWidth gridHeight : Z) (start : HexGridSquare) :
  (∃ r, findShortestEscapePath_run blockedSet boardSquares gridWidth gridHeight start = Some r
        ∧ findShortestEscapePath blockedSet boardSquares gridWidth gridHeight start = r
        ∧ ∀ extra,
            bfsLoop blockedSet boardSquares gridWidth gridHeight
                    (searchFuel boardSquares + extra) [hash start] {[ hash start := None ]}
            = Some r)
  ∧ (∀ fuel,
       NoDup (hash start
              :: bfsPushed blockedSet boardSquares gridWidth gridHeight fuel
                           [hash start] {[ hash start := None ]})
       ∧ ∀ x, x ∈ bfsPushed blockedSet boardSquares gridWidth gridHeight fuel
                            [hash start] {[ hash start := None ]} →
              x ∈ boardSquares).
Proof.
  split.
  - destruct (run_spec blockedSet boardSquares gridWidth gridHeight start) as (r & Hr & _).
    exists r. split_and!; [done | by rewrite run_total in Hr; injection Hr |].
    intros extra. by apply bfsLoop_more_fuel.
  - intros fuel.
    destruct (bfsPushed_fresh blockedSet boardSquares gridWidth gridHeight fuel
                [hash start] {[ hash start := None ]}) as [Hnd Hall].
    { intros x ->%list_elem_of_singleton. rewrite lookup_singleton_eq. eauto. }
    split.
    + constructor; [|done]. intros Hin. destruct (Hall _ Hin) as [Hn _].
      by rewrite lookup_singleton_eq in Hn.
    + intros x Hx. by destruct (Hall x Hx).
Qed.

(** ** Random rocks and reset *)

Lemma drawSquare_spec squareArray lobsterPosHash draws sq draws' :
  drawSquare squareArray lobsterPosHash draws = Some (sq, draws') →
  sq ∈ squareArray ∧ sq ≠ lobsterPosHash.
Proof.
  induction draws as [|i draws IH]; [done|]. simpl.
  destruct (squareArray !! i) as [k|] eqn:Hk; [|done].
  case_bool_decide as Heq; [done|].
  intros [= <- <-]. split; [|done]. by apply list_elem_of_lookup_2 in Hk.
Qed.

(** The rocks of one call, in the order they are added. *)
Lemma placeRocks_picks count squareArray lobsterPosHash blocked draws blocked' :
  placeRocks count squareArray lobsterPosHash blocked draws = Some blocked' →
  ∃ picks : list key,
    length picks = count
    ∧ Forall (λ k, k ∈ squareArray ∧ k ≠ lobsterPosHash) picks
    ∧ blocked' = list_to_set picks ∪ blocked.
Proof.
  revert blocked draws. induction count as [|count IH]; intros blocked draws; simpl.
  - intros [= <-]. exists []. split_and!; [done | constructor |].
    by rewrite list_to_set_nil, (left_id_L ∅ (∪)).
  - destruct (drawSquare _ _ _) as [[sq draws']|] eqn:Hd; [|done].
    intros (picks & Hlen & Hall & ->)%IH.
    apply drawSquare_spec in Hd.
    exists (picks ++ [sq]). split_and!.
    + rewrite length_app. simpl. lia.
    + apply Forall_app. split; [done | by constructor].
    + rewrite list_to_set_app_L, list_to_set_cons, list_to_set_nil, (right_id_L ∅ (∪)).
      by rewrite (assoc_L (∪)).
Qed.

(** The loops do return when the draws hold enough squares other than the
    lobster's. *)
Lemma drawSquare_total squareArray lobsterPosHash draws :
  Forall (λ i, is_Some (squareArray !! i)) draws →
  Exists (λ i, squareArray !! i ≠ Some lobsterPosHash) draws →
  is_Some (drawSquare squareArray lobsterPosHash draws).
Proof.
  induction 1 as [|i draws [k Hk] _ IH]; intros Hex; [by apply Exists_nil in Hex|].
  simpl. rewrite Hk. case_bool_decide as Heq; [|eauto].
  apply Exists_cons in Hex as [Hi|Hex]; [|by apply IH].
  subst k. by destruct Hi.
Qed.


Record FreshRound (b b' : Game1Board) (picks : list key) : Prop := {
  fresh_position : position (lobster b') = mkSquare (gridWidth b / 2) (gridHeight b / 2);
  fresh_rotation : rotation (lobster b') = 0;
  fresh_count : length picks = rockCount (length (boardSquares b));
  fresh_picks : Forall (λ k, k ∈ boardSquares b ∧ k ≠ hash (position (lobster b'))) picks;
  fresh_blocked : blockedSet b' = list_to_set picks;
  fresh_flags : gameOver b' = false ∧ gameLost b' = false
                ∧ isAnimating b' = false ∧ isEscaping b' = false;
  fresh_grid : gridWidth b' = gridWidth b ∧ gridHeight b' = gridHeight b
               ∧ boardSquares b' = boardSquares b
}.

Lemma placeRandomRocks_picks b draws b' :
  placeRandomRocks b draws = Some b' →
  ∃ picks : list key,
    length picks = rockCount (length (boardSquares b))
    ∧ Forall (λ k, k ∈ boardSquares b ∧ k ≠ hash (position (lobster b))) picks
    ∧ b' = withBlockedSet b (list_to_set picks ∪ blockedSet b).
Proof.
  unfold placeRandomRocks. intros (blocked' & Hp & ->)%fmap_Some.
  apply placeRocks_picks in Hp as (picks & Hlen & Hall & ->). eauto.
Qed.

Lemma reset_fresh b draws b' :
  reset b draws = Some b' → ∃ picks, FreshRound b b' picks.
Proof.
  unfold reset. intros (b1 & Hp & [= <-])%bind_Some.
  apply placeRandomRocks_picks in Hp as (picks & Hlen & Hall & ->).
  exists picks. split; try done. cbn. by rewrite (right_id_L ∅ (∪)).
Qed.

Lemma freshRound_free b b' picks :
  FreshRound b b' picks → hash (position (lobster b')) ∉ blockedSet b'.
Proof.
  intros HF. rewrite (fresh_blocked _ _ _ HF), elem_of_list_to_set.
  intros Hin. pose proof (fresh_picks _ _ _ HF) as Hall.
  rewrite Forall_forall in Hall. by destruct (Hall _ Hin).
Qed.

Lemma initializeBoard_11_10 : initializeBoard [] 11 10 = board11x10.
Proof. vm_compute. reflexivity. Qed.

Lemma newGame1Board_fresh draws b :
  newGame1Board draws = Some b →
  ∃ picks, FreshRound (mkBoard ∅ (mkLobster (mkSquare 0 0) 0) false false false false
                               11 10 board11x10) b picks.
Proof.
  unfold newGame1Board. rewrite initializeBoard_11_10.
  intros (picks & Hlen & Hall & ->)%placeRandomRocks_picks.
  exists picks. split; try done. cbn. by rewrite (right_id_L ∅ (∪)).
Qed.






(** ** What the search depends on *)

Definition passable (blocked : gset key) (boardSquares : list key) (c : key) : bool :=
  boardHas boardSquares c && negb (setHas blocked c).

Lemma visit_ext B1 B2 board1 board2 k st n :
  (∀ c, passable B1 board1 c = passable B2 board2 c) →
  visit B1 board1 k st n = visit B2 board2 k st n.
Proof.
  intros Hext. unfold visit. specialize (Hext (hash n)). unfold passable in Hext.
  by rewrite <- !andb_assoc, Hext.
Qed.

Lemma fold_visit_ext B1 B2 board1 board2 k todo st :
  (∀ c, passable B1 board1 c = passable B2 board2 c) →
  fold_left (visit B1 board1 k) todo st = fold_left (visit B2 board2 k) todo st.
Proof.
  intros Hext. revert st. induction todo as [|n todo IH]; intros st; [done|].
  simpl. by rewrite IH, (visit_ext B1 B2 board1 board2).
Qed.

Lemma bfsLoop_ext B1 B2 board1 board2 gridWidth gridHeight fuel queue parent :
  (∀ c, passable B1 board1 c = passable B2 board2 c) →
  bfsLoop B1 board1 gridWidth gridHeight fuel queue parent
  = bfsLoop B2 board2 gridWidth gridHeight fuel queue parent.
Proof.
  intros Hext. revert queue parent.
  induction fuel as [|fuel IH]; intros queue parent; [done|].
  simpl. destruct queue as [|k rest]; [done|].
  destruct (onEdge _ _ _); [done|].
  unfold expand. rewrite (fold_visit_ext B1 B2 board1 board2) by done.
  destruct (fold_left _ _ _) as [q' p']. apply IH.
Qed.

Lemma passable_same_board B1 B2 boardSquares :
  (∀ c, c ∈ boardSquares → c ∈ B1 ↔ c ∈ B2) →
  ∀ c, passable B1 boardSquares c = passable B2 boardSquares c.
Proof.
  intros Hext c. unfold passable, boardHas, setHas.
  destruct (decide (c ∈ boardSquares)) as [Hin|Hout].
  - by rewrite (bool_decide_ext _ _ (Hext _ Hin)).
  - by rewrite (bool_decide_eq_false_2 (c ∈ boardSquares)).
Qed.

Lemma passable_same_cells B1 B2 board1 board2 :
  (∀ c, c ∈ board1 ↔ c ∈ board2) →
  (∀ c, c ∈ board1 → c ∈ B1 ↔ c ∈ B2) →
  ∀ c, passable B1 board1 c = passable B2 board2 c.
Proof.
  intros Hboard Hext c. rewrite (passable_same_board B1 B2) by done.
  unfold passable, boardHas. by rewrite (bool_decide_ext _ _ (Hboard c)).
Qed.

(** Rocks that lie off the board, and the order in which rocks were added,
    never matter: only which board keys are blocked. *)
Lemma findShortestEscapePath_ext B1 B2 boardSquares gridWidth gridHeight start :
  (∀ c, c ∈ boardSquares → c ∈ B1 ↔ c ∈ B2) →
  findShortestEscapePath B1 boardSquares gridWidth gridHeight start
  = findShortestEscapePath B2 boardSquares gridWidth gridHeight start.
Proof.
  intros Hext. unfold findShortestEscapePath, findShortestEscapePath_run.
  by rewrite (bfsLoop_ext B1 B2 boardSquares boardSquares)
    by (by apply passable_same_board).
Qed.

Lemma getNextStep_ext B1 B2 boardSquares gridWidth gridHeight start :
  (∀ c, c ∈ boardSquares → c ∈ B1 ↔ c ∈ B2) →
  getNextStep B1 boardSquares gridWidth gridHeight start
  = getNextStep B2 boardSquares gridWidth gridHeight start.
Proof.
  intros Hext. unfold getNextStep. by rewrite (findShortestEscapePath_ext B1 B2).
Qed.

(** ** The 11 by 10 board with no rocks *)

Definition emptyGridWorld : World :=
  mkWorld (spawnLobster (mkBoard ∅ (mkLobster (mkSquare 0 0) 0)
                                 false false false false 11 10 board11x10))
          [] 0.

Definition movesAfterRock (k : key) : bool :=
  bool_decide (k = (5, 5))
  || bool_decide (is_Some (getNextStep ({[ k ]} ∪ ∅) board11x10 11 10 (mkSquare 5 5)).1).

Lemma movesAfterRock_board : forallb movesAfterRock board11x10 = true.
Proof. vm_compute. reflexivity. Qed.

Lemma first_rock_never_captures k :
  k ≠ (5, 5) →
  is_Some (getNextStep ({[ k ]} ∪ ∅) board11x10 11 10 (mkSquare 5 5)).1.
Proof.
  intros Hk. destruct (decide (k ∈ board11x10)) as [Hin|Hout].
  - pose proof movesAfterRock_board as Hall.
    rewrite forallb_forall in Hall. apply list_elem_of_In, Hall in Hin.
    unfold movesAfterRock in Hin.
    rewrite orb_true_iff, !bool_decide_eq_true in Hin. by destruct Hin.
  - rewrite (getNextStep_ext _ ∅).
    + vm_compute. eauto.
    + intros c Hc. rewrite elem_of_union, elem_of_singleton.
      split; [intros [->|]; done | by right].
Qed.

Lemma route_center_empty :
  findShortestEscapePath_run ∅ board11x10 11 10 (mkSquare 5 5)
  = Some (Some [mkSquare 5 5; mkSquare 5 6; mkSquare 4 7; mkSquare 4 8; mkSquare 3 9]).
Proof. vm_compute. reflexivity. Qed.

(** C7 (as amended). On the 11 by 10 grid the lobster is spawned at (5,5),
    that is column floor(11/2) and row floor(10/2).  With no rocks the search
    from the spawn returns a route of five cells, four moves being the least
    that reach the edge, and whatever cell the first rock is put on, the
    click is answered by a move of the lobster and not by a capture. *)
Theorem spawn_is_four_moves_from_the_edge :
  (∀ draws b, newGame1Board draws = Some b →
     position (lobster b) = mkSquare 5 5
     ∧ gridWidth b = 11 ∧ gridHeight b = 10 ∧ boardSquares b = board11x10)
  ∧ position (lobster (board emptyGridWorld)) = mkSquare 5 5
  ∧ findShortestEscapePath_run ∅ board11x10 11 10 (mkSquare 5 5)
    = Some (Some [mkSquare 5 5; mkSquare 5 6; mkSquare 4 7; mkSquare 4 8; mkSquare 3 9])
  ∧ escapeDistance ∅ board11x10 11 10 (mkSquare 5 5) 4
  ∧ (∀ x y lobsterTile,
       accepted (board emptyGridWorld) x y = true →
       gameOver (board (clickHexTile emptyGridWorld x y lobsterTile)) = false
       ∧ position (lobster (board (clickHexTile emptyGridWorld x y lobsterTile)))
         = mkSquare 5 5
       ∧ ∃ nextPos escapedIfMove,
           timers (clickHexTile emptyGridWorld x y lobsterTile)
           = [Wiggle nextPos escapedIfMove]).
Proof.
  split_and!.
  - intros draws b (picks & HF)%newGame1Board_fresh.
    destruct (fresh_grid _ _ _ HF) as (? & ? & ?).
    split_and!; try done. apply (fresh_position _ _ _ HF).
  - done.
  - apply route_center_empty.
  - destruct (run_distance _ _ _ _ _ _ route_center_empty) as (_ & n & Hlen & Hdist).
    simpl in Hlen. by injection Hlen as <-.
  - intros x y lobsterTile Ha. rewrite clickHexTile_accepted by done.
    apply accepted_true in Ha as (_ & Hk & _).
    unfold resolveTurn.
    cbn [board placeRock withBlockedSet blockedSet boardSquares gridWidth gridHeight
               lobster emptyGridWorld spawnLobster withLobster position].
    destruct (first_rock_never_captures (hash (mkSquare x y))) as [nextPos Hnext].
    { exact Hk. }
    change (spawnSquare _) with (mkSquare 5 5).
    destruct (getNextStep _ _ _ _ _) as [[np|] e]; [|done].
    split_and!; try done. eauto.
Qed.

(** The scenario as first written does not hold: the spawn is (5,5), not
    (5,4), and the route over the empty grid has five cells, not two, from
    either cell. *)
Lemma spawn_route_is_not_two_cells :
  spawnSquare (board emptyGridWorld) = mkSquare 5 5
  ∧ spawnSquare (board emptyGridWorld) ≠ mkSquare 5 4
  ∧ length <$> findShortestEscapePath ∅ board11x10 11 10 (mkSquare 5 5) = Some 5%nat
  ∧ length <$> findShortestEscapePath ∅ board11x10 11 10 (mkSquare 5 4) = Some 5%nat.
Proof. split_and!; [done | done | by vm_compute | by vm_compute]. Qed.

(** ** The lobster's cell and the rocks *)

Definition sixteenDraws : list nat :=
  [0; 1; 2; 3; 4; 5; 6; 7; 8; 9; 10; 11; 12; 13; 14; 15]%nat.


Definition lobsterFree (b : Game1Board) : Prop :=
  hash (position (lobster b)) ∉ blockedSet b.

(** What a pending callback relies on. *)
Definition timerOk (b : Game1Board) (t : Timer) : Prop :=
  match t with
  | Wiggle nextPos _ | Jump nextPos _ =>
      isAnimating b = true ∧ hash nextPos ∉ blockedSet b
  | Land _ => isAnimating b = true
  | EscapeReset => isEscaping b = true
  | StoneFly | StoneArrive | CairnPoint | CaptureReset => gameOver b = true
  end.

Record Sound (w : World) : Prop := {
  sound_free : lobsterFree (board w);
  sound_timers : timers w = [] ∨ ∃ t, timers w = [t] ∧ timerOk (board w) t
}.

(** The restart button is pressed between turns, not while a callback of
    the current turn is still pending. *)
Definition quiet (w : World) (e : Event) : Prop :=
  match e with
  | ResetRound _ => timers w = []
  | _ => True
  end.

(** The states of a round: a new board, then clicks, callbacks and
    restarts. *)
Inductive reachable : World → Prop :=
| reach_new draws b points :
    newGame1Board draws = Some b → reachable (mkWorld b [] points)
| reach_event w e w' :
    reachable w → quiet w e → dispatch w e = Some w' → reachable w'.

Lemma sound_fresh b b' picks timersLeft points :
  FreshRound b b' picks → timersLeft = [] → Sound (mkWorld b' timersLeft points).
Proof.
  intros HF ->. split; [by apply (freshRound_free _ _ _ HF) | by left].
Qed.

Lemma sound_idle w x y :
  Sound w → accepted (board w) x y = true → timers w = [].
Proof.
  intros [_ [Ht|(t & Ht & Hok)]] ((Hover & _ & Hanim & Hesc) & _)%accepted_true; [done|].
  destruct t; simpl in Hok; destruct_and?; congruence.
Qed.

Lemma sound_click w x y lobsterTile :
  Sound w → Sound (clickHexTile w x y lobsterTile).
Proof.
  intros HS. destruct (accepted (board w) x y) eqn:Ha;
    [|by rewrite clickHexTile_rejected].
  pose proof (sound_idle _ _ _ HS Ha) as Hidle.
  rewrite clickHexTile_accepted by done.
  apply accepted_true in Ha as (_ & Hk & Hnew).
  assert (Hfree : lobsterFree (placeRock (board w) x y)).
  { unfold lobsterFree, placeRock. simpl.
    rewrite not_elem_of_union, not_elem_of_singleton.
    split; [done | apply HS]. }
  unfold resolveTurn. cbn [board timers totalPoints].
  destruct (getNextStep _ _ _ _ _) as [[nextPos|] e] eqn:Hstep.
  - apply getNextStep_inv in Hstep as (path & Hpath & Hnext & _).
    apply path_second_cell with (nextPos := nextPos) in Hpath as (_ & _ & Hnb); [|done].
    split; [done|]. right. rewrite Hidle. eexists. by split.
  - split; [done|]. rewrite Hidle. destruct lobsterTile; [|by left].
    right. eexists. by split.
Qed.

Lemma sound_runTimer w t dom draws w' :
  lobsterFree (board w) → timers w = [] → timerOk (board w) t →
  runTimer w t dom draws = Some w' → Sound w'.
Proof.
  intros Hfree Hidle Hok. destruct t; simpl in *; rewrite ?Hidle.
  - intros [= <-]. split; [done|]. right. eexists. by split.
  - intros [= <-]. destruct Hok as [Hanim Hnb].
    split; [done|]. right. eexists. by split.
  - intros [= <-]. destruct escapedIfMove, dom; simpl;
      (split; [done|]); try by left.
    right. eexists. by split.
  - intros (b' & (picks & HF)%reset_fresh & [= <-])%bind_Some.
    by eapply sound_fresh.
  - intros [= <-]. split; [done|]. destruct dom; [|by left].
    right. eexists. by split.
  - intros [= <-]. split; [done|]. right. eexists. by split.
  - intros [= <-]. split; [done|]. right. eexists. by split.
  - intros (b' & (picks & HF)%reset_fresh & [= <-])%bind_Some.
    by eapply sound_fresh.
Qed.

Lemma sound_dispatch w e w' :
  Sound w → quiet w e → dispatch w e = Some w' → Sound w'.
Proof.
  intros HS Hq. destruct e as [x y lobsterTile|i dom draws|draws]; simpl.
  - intros [= <-]. by apply sound_click.
  - intros (t & Ht & Hrun)%bind_Some.
    destruct HS as [Hfree [Hidle|(t' & Hone & Hok)]].
    { by rewrite Hidle in Ht. }
    rewrite Hone in Ht, Hrun. destruct i as [|i]; [|done].
    injection Ht as ->.
    by apply (sound_runTimer (mkWorld (board w) [] (totalPoints w)) t dom draws).
  - simpl in Hq. intros (b' & (picks & HF)%reset_fresh & [= <-])%bind_Some.
    by eapply sound_fresh.
Qed.

Lemma reachable_sound w : reachable w → Sound w.
Proof.
  induction 1 as [draws b points (picks & HF)%newGame1Board_fresh|w e w' _ IH Hq Hd].
  - by eapply sound_fresh.
  - by eapply sound_dispatch.
Qed.

Definition isRestart (e : Event) : bool :=
  match e with
  | ResetRound _ => true
  | _ => false
  end.

Lemma reachable_runEvents w es w' :
  reachable w → forallb (λ e, negb (isRestart e)) es = true →
  runEvents w es = Some w' → reachable w'.
Proof.
  revert w. induction es as [|e es IH]; intros w Hr Hq; simpl.
  - by intros [= <-].
  - simpl in Hq. apply andb_true_iff in Hq as [He Hq].
    intros (w1 & Hd & Hrun)%bind_Some. apply (IH w1); [|done..].
    apply (reach_event w e); [done | by destruct e | done].
Qed.

(** What the engine does keep: the lobster's cell is not in the obstacle set
    after the random rocks of a new board, not after [reset()] from any
    state, not after a click, and not in any state reached from a new board
    through clicks (accepted or not), the callbacks that carry out the
    resolved moves, captures and escapes, and restarts between turns.  A
    restart in the middle of a move is not among these, and there the
    lobster can end on a rock. *)
Theorem lobster_never_on_a_rock :
  (∀ draws b, newGame1Board draws = Some b → lobsterFree b)
  ∧ (∀ b draws b', reset b draws = Some b' → lobsterFree b')
  ∧ (∀ w x y lobsterTile,
       lobsterFree (board w) → lobsterFree (board (clickHexTile w x y lobsterTile)))
  ∧ (∀ w, reachable w → lobsterFree (board w)).
Proof.
  split_and!.
  - intros draws b (picks & HF)%newGame1Board_fresh. by apply (freshRound_free _ _ _ HF).
  - intros b draws b' (picks & HF)%reset_fresh. by apply (freshRound_free _ _ _ HF).
  - intros w x y lobsterTile Hfree.
    destruct (accepted (board w) x y) eqn:Ha; [|by rewrite clickHexTile_rejected].
    unfold lobsterFree. rewrite clickHexTile_accepted, resolveTurn_position,
      resolveTurn_blockedSet by done.
    apply accepted_true in Ha as (_ & Hk & _). simpl.
    rewrite not_elem_of_union, not_elem_of_singleton. by split.
  - intros w Hr. by apply reachable_sound.
Qed.

Lemma lobster_never_on_a_rock_witness :
  ∃ b0 w',
    newGame1Board sixteenDraws = Some b0
    ∧ runEvents (mkWorld b0 [] 0)
                [Click 9 9 true; Fire 0 true []; Fire 0 true []; Fire 0 true [];
                 Click 5 7 true; Click 8 8 true] = Some w'
    ∧ position (lobster (board w')) = mkSquare 5 6
    ∧ lobsterFree (board w').
Proof.
  assert (Hnew : ∃ b0, newGame1Board sixteenDraws = Some b0) by (by vm_compute; eexists).
  destruct Hnew as [b0 Hb0].
  assert (Hrun : ∃ w', runEvents (mkWorld b0 [] 0)
                         [Click 9 9 true; Fire 0 true []; Fire 0 true []; Fire 0 true [];
                          Click 5 7 true; Click 8 8 true] = Some w'
                       ∧ position (lobster (board w')) = mkSquare 5 6).
  { vm_compute in Hb0. injection Hb0 as <-. eexists. split; by vm_compute. }
  destruct Hrun as (w' & Hrun & Hpos).
  exists b0, w'. split_and!; [done..|].
  apply (proj2 (proj2 (proj2 lobster_never_on_a_rock))).
  eapply reachable_runEvents; [by apply (reach_new sixteenDraws) | | exact Hrun].
  reflexivity.
Defined.

(** C4. The lobster's cell is not kept out of the obstacle set by every
    sequence of operations: [reset()] cancels no pending callback and does
    not look at [isAnimating], and the restart button stays live during a
    move.  On a new board (random draws 0..15) tile (9,9) is clicked and the
    move to (5,6) is resolved; the restart button is pressed during the
    hold, and the new random rocks cover (5,6) (draw 56 is index 56 of the
    square array, the cell (5,6)); the pending wiggle and jump callbacks
    then run, and the jump sets the position of the newly spawned lobster to
    (5,6): the lobster stands on a rock. *)
Lemma restart_during_hold_jump_still_runs :
  ∃ b0 w',
    newGame1Board sixteenDraws = Some b0
    ∧ runEvents (mkWorld b0 [] 0)
                [Click 9 9 true; ResetRound (56%nat :: sixteenDraws);
                 Fire 0 true []; Fire 0 true []] = Some w'
    ∧ position (lobster (board w')) = mkSquare 5 6
    ∧ setHas (blockedSet (board w')) (hash (position (lobster (board w')))) = true.
Proof. do 2 eexists. split; [by vm_compute|]. split; [by vm_compute|]. by vm_compute. Qed.

(** ** Determinism and the tie-break *)

Lemma findShortestEscapePath_same_cells B1 B2 board1 board2 gridWidth gridHeight start :
  (∀ c, c ∈ board1 ↔ c ∈ board2) →
  (∀ c, c ∈ board1 → c ∈ B1 ↔ c ∈ B2) →
  findShortestEscapePath B1 board1 gridWidth gridHeight start
  = findShortestEscapePath B2 board2 gridWidth gridHeight start.
Proof.
  intros Hboard Hext.
  destruct (run_any_fuel B1 board1 gridWidth gridHeight start) as (r1 & _ & <- & H1).
  destruct (run_any_fuel B2 board2 gridWidth gridHeight start) as (r2 & _ & <- & H2).
  specialize (H1 (searchFuel board2)). specialize (H2 (searchFuel board1)).
  rewrite (bfsLoop_ext B1 B2 board1 board2) in H1 by (by apply passable_same_cells).
  rewrite (Nat.add_comm (searchFuel board1)) in H1. congruence.
Qed.

Lemma lexLt_asym u l1 l2 : lexLt u l1 l2 → lexLt u l2 l1 → False.
Proof.
  revert u l2. induction l1 as [|a l1 IH]; intros u [|b l2]; try done.
  simpl. intros [H1|[-> H1]] [H2|[Heq H2]]; try subst; try lia. by eapply IH.
Qed.

Lemma routeLt_asym l1 l2 : routeLt l1 l2 → routeLt l2 l1 → False.
Proof.
  destruct l1 as [|a l1], l2 as [|b l2]; try done. simpl.
  intros [-> H1] [_ H2]. by eapply lexLt_asym.
Qed.

Lemma first_route blockedSet boardSquares gridWidth gridHeight start path q :
  findShortestEscapePath blockedSet boardSquares gridWidth gridHeight start = Some path →
  escapeRoute blockedSet boardSquares gridWidth gridHeight start q = true →
  length q = length path →
  q = hash <$> path ∨ routeLt (hash <$> path) q.
Proof.
  intros Hpath (b & Hq & Hb)%escapeRoute_route Hlen.
  pose proof (run_total blockedSet boardSquares gridWidth gridHeight start) as Hrun.
  rewrite Hpath in Hrun.
  by apply (bfsLoop_first blockedSet boardSquares gridWidth gridHeight (hash start)
              (searchFuel boardSquares) [hash start] {[ hash start := None ]}
              {[ hash start := [hash start] ]} path q b
              (inv_init _ _ _ _ _) (lexinv_init _ _ _)).
Qed.

(** C8. The route is a function of the start cell, of the grid dimensions
    and of which board cells are blocked: two runs that agree on these return
    the same route and the same next step, however the board map and the
    rock set were built.  Among the escape routes of the same (least) length
    the one returned is the first in the order of discovery: at the first
    cell where another such route parts from it, the returned route takes the
    neighbour that stands earlier in the offset table of that cell's row. *)
Theorem findShortestEscapePath_deterministic_tie_break
        (B1 B2 : gset key) (board1 board2 : list key)
        (gridWidth gridHeight : Z) (start : HexGridSquare) :
  ((∀ c, c ∈ board1 ↔ c ∈ board2) →
   (∀ c, c ∈ board1 → c ∈ B1 ↔ c ∈ B2) →
   findShortestEscapePath B1 board1 gridWidth gridHeight start
   = findShortestEscapePath B2 board2 gridWidth gridHeight start
   ∧ getNextStep B1 board1 gridWidth gridHeight start
     = getNextStep B2 board2 gridWidth gridHeight start)
  ∧ (∀ path q,
       findShortestEscapePath B1 board1 gridWidth gridHeight start = Some path →
       escapeRoute B1 board1 gridWidth gridHeight start q = true →
       length q = length path →
       (q = hash <$> path ∨ routeLt (hash <$> path) q)
       ∧ ¬ routeLt q (hash <$> path)).
Proof.
  split.
  - intros Hboard Hext.
    pose proof (findShortestEscapePath_same_cells B1 B2 board1 board2
                  gridWidth gridHeight start Hboard Hext) as Hsame.
    split; [done|]. unfold getNextStep. by rewrite Hsame.
  - intros path q Hpath Hq Hlen.
    pose proof (first_route _ _ _ _ _ _ _ Hpath Hq Hlen) as Hfirst.
    split; [done|]. intros Hlt. destruct Hfirst as [->|Hfirst].
    + by eapply routeLt_asym.
    + by eapply routeLt_asym.
Qed.

(** A rock on (5,6), the cell the lobster at (5,5) would step on: the routes
    that go on from (6,6) through (5,7) and through (6,7) are equally short,
    and the one returned takes (5,7), listed before (6,7) among the
    neighbours of (6,6). *)
Lemma findShortestEscapePath_deterministic_tie_break_witness :
  findShortestEscapePath {[ (5, 6) ]} board11x10 11 10 (mkSquare 5 5)
  = Some [mkSquare 5 5; mkSquare 6 6; mkSquare 5 7; mkSquare 5 8; mkSquare 4 9]
  ∧ routeLt [(5, 5); (6, 6); (5, 7); (5, 8); (4, 9)]
            [(5, 5); (6, 6); (6, 7); (6, 8); (6, 9)].
Proof.
  assert (Hpath : findShortestEscapePath {[ (5, 6) ]} board11x10 11 10 (mkSquare 5 5)
                  = Some [mkSquare 5 5; mkSquare 6 6; mkSquare 5 7; mkSquare 5 8;
                          mkSquare 4 9]) by (vm_compute; reflexivity).
  split; [exact Hpath|].
  destruct (proj2 (findShortestEscapePath_deterministic_tie_break
                     {[ (5, 6) ]} {[ (5, 6) ]} board11x10 board11x10 11 10 (mkSquare 5 5))
                  _ [(5, 5); (6, 6); (6, 7); (6, 8); (6, 9)] Hpath)
    as [[Heq|Hlt] _].
  - vm_compute. reflexivity.
  - reflexivity.
  - discriminate Heq.
  - exact Hlt.
Defined.

(** ** Boundary cases of the turn resolution *)

(** One whole turn as the page runs it: the click, then the three
    animation callbacks, the last of which looks for the lobster's tile. *)
Definition turnEvents (x y : Z) (tile4 : bool) : list Event :=
  [Click x y true; Fire 0 true []; Fire 0 true []; Fire 0 tile4 []].

(** The escape is started by [triggerEscapeAnimation(tile4)], which returns
    at once when the lobster's tile is not found.  On a new board, after
    three turns the lobster stands on (4,8); the fourth rock sends it to
    (3,9), on the edge, and with the tile missing at the landing the lobster
    sits there with the round still open and nothing pending. *)
Lemma landing_on_edge_without_tile_is_no_escape :
  ∃ b0 w',
    newGame1Board sixteenDraws = Some b0
    ∧ runEvents (mkWorld b0 [] 0)
                (turnEvents 9 1 true ++ turnEvents 9 2 true ++ turnEvents 9 3 true
                 ++ turnEvents 9 4 false) = Some w'
    ∧ position (lobster (board w')) = mkSquare 3 9
    ∧ onEdge (position (lobster (board w'))) 11 10 = true
    ∧ isEscaping (board w') = false
    ∧ gameOver (board w') = false
    ∧ gameLost (board w') = false
    ∧ isAnimating (board w') = false
    ∧ timers w' = [].
Proof. do 2 eexists. split; [by vm_compute|]. split; [by vm_compute|]. by vm_compute. Qed.

(** The same four turns with the tile in place end the round as an escape. *)
Example landing_on_edge_with_tile_escapes :
  ∃ b0 w',
    newGame1Board sixteenDraws = Some b0
    ∧ runEvents (mkWorld b0 [] 0)
                (turnEvents 9 1 true ++ turnEvents 9 2 true ++ turnEvents 9 3 true
                 ++ turnEvents 9 4 true) = Some w'
    ∧ position (lobster (board w')) = mkSquare 3 9
    ∧ isEscaping (board w') = true
    ∧ timers w' = [EscapeReset].
Proof. do 2 eexists. split; [by vm_compute|]. split; [by vm_compute|]. by vm_compute. Qed.

(** ** The hex neighbourhood *)

Lemma oddRow_nonneg s : 0 ≤ sq_y s → oddRow s = Z.odd (sq_y s).
Proof.
  intros Hy. unfold oddRow. rewrite Z.rem_mod_nonneg by lia.
  rewrite Zmod_odd. by destruct (Z.odd (sq_y s)).
Qed.

Lemma getNeighbors_cases sq v :
  v ∈ getNeighbors sq →
  ∃ dx dy, v = mkSquare (sq_x sq + dx) (sq_y sq + dy)
           ∧ (dx, dy) ∈ directions sq.
Proof.
  unfold getNeighbors. intros ([dx dy] & -> & Hd)%list_elem_of_fmap. eauto.
Qed.

Lemma directions_near sq d : d ∈ directions sq → -1 ≤ d.1 ≤ 1 ∧ -1 ≤ d.2 ≤ 1 ∧ d ≠ (0, 0).
Proof.
  unfold directions. destruct (oddRow sq); intros Hd;
    repeat (apply elem_of_cons in Hd as [->|Hd]; [simpl; split_and!; (lia || done)|]);
    by apply elem_of_nil in Hd.
Qed.

Lemma getNeighbors_near sq v :
  v ∈ getNeighbors sq →
  Z.abs (sq_x v - sq_x sq) ≤ 1 ∧ Z.abs (sq_y v - sq_y sq) ≤ 1 ∧ v ≠ sq.
Proof.
  intros (dx & dy & -> & (Hx & Hy & Hne)%directions_near)%getNeighbors_cases.
  simpl in *. split_and!; [lia..|].
  destruct sq as [x y]. intros [= Hx' Hy']. apply Hne. f_equal; lia.
Qed.

(** X2. For a cell whose coordinates are safe integers (magnitude up to
    2^53 - 1, where adding and subtracting 1 is exact), [getNeighbors()]
    returns six cells, pairwise distinct, none of them the cell itself, each
    at most one column and one row away. *)
Theorem getNeighbors_six_distinct_adjacent (sq : HexGridSquare) :
  safeSquare sq →
  length (getNeighbors sq) = 6%nat
  ∧ NoDup (getNeighbors sq)
  ∧ (sq ∉ getNeighbors sq)
  ∧ ∀ v, v ∈ getNeighbors sq →
         Z.abs (sq_x v - sq_x sq) ≤ 1 ∧ Z.abs (sq_y v - sq_y sq) ≤ 1.
Proof.
  intros _. split_and!.
  - unfold getNeighbors, directions. rewrite length_fmap. by destruct (oddRow sq).
  - eapply NoDup_fmap_1, getNeighbors_NoDup.
  - intros Hin. by apply getNeighbors_near in Hin as (_ & _ & Hne).
  - intros v Hv. apply getNeighbors_near in Hv. tauto.
Qed.

Lemma getNeighbors_six_distinct_adjacent_witness :
  safeSquare (mkSquare 5 5)
  ∧ length (getNeighbors (mkSquare 5 5)) = 6%nat
  ∧ NoDup (getNeighbors (mkSquare 5 5))
  ∧ (mkSquare 5 5 ∉ getNeighbors (mkSquare 5 5))
  ∧ ∀ v, v ∈ getNeighbors (mkSquare 5 5) →
         Z.abs (sq_x v - 5) ≤ 1 ∧ Z.abs (sq_y v - 5) ≤ 1.
Proof.
  assert (H : safeSquare (mkSquare 5 5)) by (unfold safeSquare, MAX_SAFE_INTEGER; simpl; lia).
  split; [exact H|].
  exact (getNeighbors_six_distinct_adjacent (mkSquare 5 5) H).
Defined.

(** X3. On rows 0 and up, between cells whose coordinates are safe
    integers, adjacency is symmetric: if [v] is a neighbour of [u] then [u]
    is a neighbour of [v].  (Below row 0 it is not, see the example that
    follows: JavaScript's [%] gives -1 on negative odd rows, which then use
    the even-row table.) *)
Theorem getNeighbors_symmetric (u v : HexGridSquare) :
  safeSquare u → safeSquare v →
  0 ≤ sq_y u → 0 ≤ sq_y v → v ∈ getNeighbors u → u ∈ getNeighbors v.
Proof.
  intros _ _ Hu Hv (dx & dy & -> & Hd)%getNeighbors_cases.
  destruct u as [x y]. simpl in *.
  assert (Hgoal : ∃ d, d ∈ directions (mkSquare (x + dx) (y + dy)) ∧ d = (- dx, - dy)).
  { unfold directions in *. rewrite !oddRow_nonneg in * by (simpl; lia). simpl in *.
    destruct (Z.odd y) eqn:Hy;
      repeat (apply elem_of_cons in Hd as [[= -> ->]|Hd];
              [eexists; split; [|reflexivity];
               rewrite ?Z.add_0_r, ?Z.odd_add, ?Hy; cbn; by repeat constructor|]);
      by apply elem_of_nil in Hd. }
  destruct Hgoal as (d & Hd' & ->).
  unfold getNeighbors. apply list_elem_of_fmap. eexists (_, _). split; [|done].
  simpl. f_equal; lia.
Qed.

Lemma getNeighbors_symmetric_witness :
  safeSquare (mkSquare 5 5) ∧ safeSquare (mkSquare 5 4)
  ∧ mkSquare 5 4 ∈ getNeighbors (mkSquare 5 5)
  ∧ mkSquare 5 5 ∈ getNeighbors (mkSquare 5 4).
Proof.
  assert (H : mkSquare 5 4 ∈ getNeighbors (mkSquare 5 5)) by (cbn; by repeat constructor).
  assert (H5 : safeSquare (mkSquare 5 5)) by (unfold safeSquare, MAX_SAFE_INTEGER; simpl; lia).
  assert (H4 : safeSquare (mkSquare 5 4)) by (unfold safeSquare, MAX_SAFE_INTEGER; simpl; lia).
  do 3 (split; [assumption|]).
  apply (getNeighbors_symmetric (mkSquare 5 5) (mkSquare 5 4) H5 H4); [simpl; lia..|exact H].
Defined.

Example neighbours_below_row_zero_not_symmetric :
  mkSquare (-1) (-1) ∈ getNeighbors (mkSquare 0 0)
  ∧ mkSquare 0 0 ∉ getNeighbors (mkSquare (-1) (-1)).
Proof.
  split; [cbn; by repeat constructor|]. intros Hin. cbn in Hin.
  repeat (apply elem_of_cons in Hin as [Hin|Hin]; [discriminate Hin|]).
  by apply elem_of_nil in Hin.
Qed.

(** ** The heading of the lobster *)

(** X4. [getRotationForDirection], for a lobster on a cell whose
    coordinates are safe integers: a move to the i-th neighbour, in the
    order of [getNeighbors()], sets the heading to the i-th of 270, 90, 330,
    30, 210, 150 degrees, whatever the row; for a cell with safe coordinates
    that is not a neighbour the heading is left as it is. *)
Theorem getRotationForDirection_by_neighbour (l : LobsterToken) :
  safeSquare (position l) →
  (∀ i v, getNeighbors (position l) !! i = Some v →
          [270; 90; 330; 30; 210; 150] !! i = Some (getRotationForDirection l v))
  ∧ (∀ v, safeSquare v → v ∉ getNeighbors (position l) →
          getRotationForDirection l v = rotation l).
Proof.
  intros _. destruct l as [[x y] r]. split.
  - intros i v. unfold getNeighbors, directions, getRotationForDirection.
    cbn [position rotation sq_x sq_y].
    destruct (oddRow (mkSquare x y)) eqn:Hodd; cbn -[Z.add Z.sub Z.eqb];
      do 6 (destruct i as [|i];
            [intros [= <-]; cbn [sq_x sq_y fst snd];
             replace (x + -1 - x) with (-1) by lia;
             replace (x + 1 - x) with 1 by lia;
             replace (x + 0 - x) with 0 by lia;
             replace (y + -1 - y) with (-1) by lia;
             replace (y + 1 - y) with 1 by lia;
             replace (y + 0 - y) with 0 by lia;
             reflexivity|]); done.
  - intros v _ Hv. destruct v as [vx vy].
    assert (Hnot : ∀ dx dy, (dx, dy) ∈ directions (mkSquare x y) →
                            vx - x = dx → vy - y = dy → False).
    { intros dx dy Hd Hx Hy. apply Hv. unfold getNeighbors.
      apply list_elem_of_fmap. exists (dx, dy). split; [|done]. simpl. f_equal; lia. }
    unfold getRotationForDirection, directions in *. cbn [position rotation sq_x sq_y] in *.
    destruct (oddRow (mkSquare x y)); cbn [negb] in *;
      repeat match goal with
             | |- (if ?c then _ else _) = _ =>
                 destruct c eqn:?;
                 [exfalso;
                  repeat match goal with
                         | H : _ && _ = true |- _ => apply andb_true_iff in H as [? ?]
                         end;
                  try discriminate;
                  repeat match goal with
                         | H : (_ =? _) = true |- _ => apply Z.eqb_eq in H
                         end;
                  (eapply Hnot; [by repeat constructor|eassumption|eassumption])
                 |]
             end; reflexivity.
Qed.

Lemma getRotationForDirection_by_neighbour_witness :
  safeSquare (mkSquare 5 5)
  ∧ (∀ i v, getNeighbors (mkSquare 5 5) !! i = Some v →
            [270; 90; 330; 30; 210; 150] !! i
            = Some (getRotationForDirection (mkLobster (mkSquare 5 5) 0) v))
  ∧ (∀ v, safeSquare v → v ∉ getNeighbors (mkSquare 5 5) →
          getRotationForDirection (mkLobster (mkSquare 5 5) 0) v = 0).
Proof.
  assert (H : safeSquare (mkSquare 5 5)) by (unfold safeSquare, MAX_SAFE_INTEGER; simpl; lia).
  split; [exact H|].
  exact (getRotationForDirection_by_neighbour (mkLobster (mkSquare 5 5) 0) H).
Defined.

(** ** The cells of the board *)

(** The cells of a [w] by [h] grid, column by column. *)
Definition gridCells (w h : Z) : list key :=
  mjoin ((λ x, (λ y, (x, y)) <$> seqZ 0 h) <$> seqZ 0 w).

Lemma setBoard_fold_new l : ∀ b,
  NoDup l → (∀ k, k ∈ l → k ∉ b) → fold_left setBoard l b = b ++ l.
Proof.
  induction l as [|a l IH]; intros b Hnd Hfresh; simpl.
  - by rewrite app_nil_r.
  - apply NoDup_cons in Hnd as [Ha Hnd].
    unfold setBoard at 2, boardHas.
    rewrite bool_decide_eq_false_2 by (apply Hfresh; left).
    rewrite IH; [by rewrite <- app_assoc | done |].
    intros k Hk. rewrite elem_of_app, list_elem_of_singleton.
    intros [Hb| ->]; [|done]. by apply (Hfresh k); [right|].
Qed.

Lemma setBoard_fold_old l : ∀ b,
  (∀ k, k ∈ l → k ∈ b) → fold_left setBoard l b = b.
Proof.
  induction l as [|a l IH]; intros b Hold; simpl; [done|].
  unfold setBoard at 2, boardHas.
  rewrite bool_decide_eq_true_2 by (apply Hold; left).
  apply IH. intros k Hk. apply Hold. by right.
Qed.

Lemma setBoard_column x ys : ∀ b,
  fold_left (λ b' y, setBoard b' (x, y)) ys b
  = fold_left setBoard ((λ y, (x, y)) <$> ys) b.
Proof. induction ys as [|y ys IH]; intros b; simpl; [done | apply IH]. Qed.

Lemma column_NoDup (x h : Z) : NoDup ((λ y, (x, y)) <$> seqZ 0 h).
Proof.
  apply NoDup_fmap_2; [|apply NoDup_seqZ]. by intros y1 y2 [= ->].
Qed.

Lemma column_elem (x h : Z) k :
  k ∈ (λ y, (x, y)) <$> seqZ 0 h ↔ k.1 = x ∧ 0 ≤ k.2 < h.
Proof.
  rewrite list_elem_of_fmap. split.
  - intros (y & -> & Hy%elem_of_seqZ). simpl. lia.
  - intros [<- Hy]. exists k.2. split; [by destruct k|]. apply elem_of_seqZ. lia.
Qed.

Lemma columns_new h xs : ∀ b,
  NoDup xs → (∀ x y, x ∈ xs → (x, y) ∉ b) →
  fold_left (λ b x, fold_left (λ b' y, setBoard b' (x, y)) (seqZ 0 h) b) xs b
  = b ++ mjoin ((λ x, (λ y, (x, y)) <$> seqZ 0 h) <$> xs).
Proof.
  induction xs as [|x xs IH]; intros b Hnd Hfresh; simpl.
  - by rewrite app_nil_r.
  - apply NoDup_cons in Hnd as [Hx Hnd].
    rewrite setBoard_column, setBoard_fold_new.
    + rewrite IH; [by rewrite <- app_assoc | done |].
      intros x' y Hx'. rewrite elem_of_app, column_elem. simpl.
      intros [Hb|[-> _]]; [|done]. apply (Hfresh x' y); [by right | done].
    + apply column_NoDup.
    + intros [x' y] [Heq _]%column_elem. simpl in Heq. subst x'.
      apply Hfresh. by left.
Qed.

Lemma columns_old h xs : ∀ b,
  (∀ x y, x ∈ xs → 0 ≤ y < h → (x, y) ∈ b) →
  fold_left (λ b x, fold_left (λ b' y, setBoard b' (x, y)) (seqZ 0 h) b) xs b = b.
Proof.
  induction xs as [|x xs IH]; intros b Hold; simpl; [done|].
  rewrite setBoard_column, setBoard_fold_old.
  - apply IH. intros x' y Hx'. apply Hold. by right.
  - intros [x' y] [Heq Hy]%column_elem. simpl in *. subst x'. apply Hold; [by left | done].
Qed.

Lemma initializeBoard_gridCells w h : initializeBoard [] w h = gridCells w h.
Proof.
  unfold initializeBoard. rewrite columns_new; [done | apply NoDup_seqZ |].
  intros x y _. apply not_elem_of_nil.
Qed.

Lemma gridCells_elem w h x y : (x, y) ∈ gridCells w h ↔ 0 ≤ x < w ∧ 0 ≤ y < h.
Proof.
  unfold gridCells. rewrite list_elem_of_join. split.
  - intros (l & Hk & (x' & -> & Hx%elem_of_seqZ)%list_elem_of_fmap).
    apply column_elem in Hk. simpl in Hk. lia.
  - intros [Hx Hy]. exists ((λ y, (x, y)) <$> seqZ 0 h). split.
    + by apply column_elem.
    + apply list_elem_of_fmap. exists x. split; [done|]. apply elem_of_seqZ. lia.
Qed.

Lemma gridCells_NoDup w h : NoDup (gridCells w h).
Proof.
  unfold gridCells.
  assert (Hbind : ∀ xs : list Z,
             mjoin ((λ x, (λ y, (x, y)) <$> seqZ 0 h) <$> xs)
             = xs ≫= λ x, (λ y, (x, y)) <$> seqZ 0 h).
  { induction xs as [|x xs IH]; [done|]. csimpl. by rewrite IH. }
  rewrite Hbind. apply NoDup_bind.
  - intros x1 x2 k _ _ [<- _]%column_elem [<- _]%column_elem. done.
  - intros x _. apply column_NoDup.
  - apply NoDup_seqZ.
Qed.

Lemma gridCells_length w h : length (gridCells w h) = (Z.to_nat w * Z.to_nat h)%nat.
Proof.
  unfold gridCells. rewrite length_join, <- list_fmap_compose.
  rewrite (sum_list_fmap_same (Z.to_nat h)).
  - by rewrite length_seqZ.
  - apply Forall_forall. intros x _. simpl. by rewrite length_fmap, length_seqZ.
Qed.

Lemma gridCells_lookup w h x y :
  0 ≤ x < w → 0 ≤ y < h → gridCells w h !! Z.to_nat (x * h + y) = Some (x, y).
Proof.
  intros Hx Hy. unfold gridCells.
  rewrite Z2Nat.inj_add by first [lia | apply Z.mul_nonneg_nonneg; lia].
  rewrite Z2Nat.inj_mul by lia.
  apply (join_lookup_Some_same_length' (Z.to_nat h)).
  - apply Forall_forall. intros l (x' & -> & _)%list_elem_of_fmap.
    by rewrite length_fmap, length_seqZ.
  - lia.
  - exists ((λ y, (x, y)) <$> seqZ 0 h). split.
    + rewrite list_lookup_fmap, lookup_seqZ_lt by lia. simpl. by rewrite Z2Nat.id by lia.
    + rewrite list_lookup_fmap, lookup_seqZ_lt by lia. simpl. by rewrite Z2Nat.id by lia.
Qed.

(** X5. [initializeBoard()] on an empty map: the keys are exactly the cells
    (x, y) with 0 <= x < gridWidth and 0 <= y < gridHeight, each once,
    inserted column by column, so that cell (x, y) is entry number
    x * gridHeight + y of [Array.from(boardSquares.values())]; running it
    again on the result changes nothing. *)
Theorem initializeBoard_fills_the_grid (w h : Z) :
  let cells := initializeBoard [] w h in
  NoDup cells
  ∧ length cells = (Z.to_nat w * Z.to_nat h)%nat
  ∧ (∀ x y, (x, y) ∈ cells ↔ 0 ≤ x < w ∧ 0 ≤ y < h)
  ∧ (∀ x y, 0 ≤ x < w → 0 ≤ y < h → cells !! Z.to_nat (x * h + y) = Some (x, y))
  ∧ initializeBoard cells w h = cells.
Proof.
  cbv zeta. rewrite initializeBoard_gridCells. split_and!.
  - apply gridCells_NoDup.
  - apply gridCells_length.
  - apply gridCells_elem.
  - apply gridCells_lookup.
  - unfold initializeBoard. apply columns_old.
    intros x y Hx%elem_of_seqZ Hy. apply gridCells_elem. lia.
Qed.

(** ** How far the edge is *)

(** [n] steps from [u] in the fixed direction [d]. *)
Fixpoint line (d : Z * Z) (u : key) (n : nat) : list key :=
  match n with
  | O => []
  | S n' => let v := (u.1 + d.1, u.2 + d.2) in v :: line d v n'
  end.

Lemma route_span B board s l b :
  route B board s l b →
  Z.abs (b.1 - s.1) < Z.of_nat (length l) ∧ Z.abs (b.2 - s.2) < Z.of_nat (length l).
Proof.
  induction 1 as [|l u v _ IH (Hnb & _ & _)]; [simpl; lia|].
  apply list_elem_of_fmap in Hnb as (n & -> & Hn).
  apply getNeighbors_near in Hn as (Hx & Hy & _).
  rewrite length_app. destruct u as [ux uy]. simpl in *. lia.
Qed.

Lemma escapeRoute_border B board w h start q :
  escapeRoute B board w h start q = true →
  borderDistance start w h < Z.of_nat (length q).
Proof.
  intros (b & Hr & He)%escapeRoute_route.
  apply route_span in Hr as [Hx Hy]. apply onEdge_spec in He.
  unfold borderDistance. destruct start as [x y], b as [bx b_y]. simpl in *. lia.
Qed.


Lemma line_length d u n : length (line d u n) = n.
Proof. revert u. induction n as [|n IH]; intros u; simpl; [done | by rewrite IH]. Qed.

Lemma line_walk B board d n : ∀ u,
  d ∈ [(-1, 0); (1, 0); (0, -1); (0, 1)] →
  (∀ i, 1 ≤ i ≤ Z.of_nat n →
        (u.1 + d.1 * i, u.2 + d.2 * i) ∈ board ∧ (u.1 + d.1 * i, u.2 + d.2 * i) ∉ B) →
  walkb B board u (line d u n) = true
  ∧ List.last (line d u n) u = (u.1 + d.1 * Z.of_nat n, u.2 + d.2 * Z.of_nat n).
Proof.
  induction n as [|n IH]; intros u Hd Hfree.
  - simpl. split; [done|]. destruct u. simpl. f_equal; lia.
  - cbn [line]. set (v := (u.1 + d.1, u.2 + d.2)).
    destruct (IH v Hd) as [Hw Hl].
    { intros i Hi. specialize (Hfree (i + 1)).
      replace (v.1 + d.1 * i) with (u.1 + d.1 * (i + 1)) by (subst v; simpl; lia).
      replace (v.2 + d.2 * i) with (u.2 + d.2 * (i + 1)) by (subst v; simpl; lia).
      apply Hfree. lia. }
    split.
    + cbn [walkb]. rewrite Hw, andb_true_r.
      destruct (Hfree 1 ltac:(lia)) as [Hb HB]. rewrite !Z.mul_1_r in Hb, HB.
      unfold moveb, boardHas, setHas.
      rewrite !andb_true_iff, negb_true_iff, bool_decide_eq_false, !bool_decide_eq_true.
      split_and!; [|done..].
      apply list_elem_of_fmap. exists (mkSquare (u.1 + d.1) (u.2 + d.2)). split; [done|].
      unfold getNeighbors. apply list_elem_of_fmap. exists d. split; [done|].
      unfold directions. destruct (oddRow (unhash u));
        repeat (apply elem_of_cons in Hd as [->|Hd]; [by repeat constructor|]);
        by apply elem_of_nil in Hd.
    + rewrite last_cons_default, Hl. subst v. simpl. f_equal; lia.
Qed.

Lemma line_escape B board w h start d n :
  d ∈ [(-1, 0); (1, 0); (0, -1); (0, 1)] →
  (∀ i, 1 ≤ i ≤ Z.of_nat n →
        (sq_x start + d.1 * i, sq_y start + d.2 * i) ∈ board
        ∧ (sq_x start + d.1 * i, sq_y start + d.2 * i) ∉ B) →
  onEdge (mkSquare (sq_x start + d.1 * Z.of_nat n) (sq_y start + d.2 * Z.of_nat n)) w h = true →
  escapeRoute B board w h start (hash start :: line d (hash start) n) = true.
Proof.
  intros Hd Hfree He.
  destruct (line_walk B board d n (hash start) Hd Hfree) as [Hw Hl].
  cbn [escapeRoute]. rewrite Hw, Hl, bool_decide_eq_true_2 by done. simpl.
  unfold unhash. simpl. by rewrite He.
Qed.

(** X7. On a full grid without rocks, with the lobster on one of its
    cells, the search returns a route of exactly as many moves as there are
    rows or columns to the nearest side. *)
Theorem empty_grid_escape_distance (w h x y : Z) :
  0 ≤ x < w → 0 ≤ y < h →
  ∃ path,
    findShortestEscapePath ∅ (initializeBoard [] w h) w h (mkSquare x y) = Some path
    ∧ Z.of_nat (length path) = borderDistance (mkSquare x y) w h + 1.
Proof.
  intros Hx Hy. rewrite initializeBoard_gridCells.
  set (start := mkSquare x y). set (n := borderDistance start w h).
  assert (Hn : 0 ≤ n) by (unfold n, borderDistance; simpl; lia).
  assert (Hq : ∃ q, escapeRoute ∅ (gridCells w h) w h start q = true
                    ∧ Z.of_nat (length q) = n + 1).
  { assert (Hcase : n = x ∨ n = w - 1 - x ∨ n = y ∨ n = h - 1 - y)
      by (unfold n, borderDistance; simpl; lia).
    assert (Hle : n ≤ x ∧ n ≤ w - 1 - x ∧ n ≤ y ∧ n ≤ h - 1 - y)
      by (unfold n, borderDistance; simpl; lia).
    assert (Hroute : ∀ d, d ∈ [(-1, 0); (1, 0); (0, -1); (0, 1)] →
              onEdge (mkSquare (x + d.1 * n) (y + d.2 * n)) w h = true →
              escapeRoute ∅ (gridCells w h) w h start
                          (hash start :: line d (hash start) (Z.to_nat n)) = true).
    { intros d Hd He. apply line_escape; [done | |by rewrite Z2Nat.id by lia].
      intros i Hi. split; [|apply not_elem_of_empty]. apply gridCells_elem. simpl.
      repeat (apply elem_of_cons in Hd as [->|Hd]; [simpl; lia|]).
      by apply elem_of_nil in Hd. }
    assert (Hlen : ∀ d, Z.of_nat (length (hash start :: line d (hash start) (Z.to_nat n)))
                        = n + 1).
    { intros d. simpl length. rewrite line_length. lia. }
    destruct Hcase as [Hc|[Hc|[Hc|Hc]]].
    - exists (hash start :: line (-1, 0) (hash start) (Z.to_nat n)).
      split; [|apply Hlen]. apply Hroute; [by repeat constructor|].
      apply onEdge_spec. simpl. lia.
    - exists (hash start :: line (1, 0) (hash start) (Z.to_nat n)).
      split; [|apply Hlen]. apply Hroute; [by repeat constructor|].
      apply onEdge_spec. simpl. lia.
    - exists (hash start :: line (0, -1) (hash start) (Z.to_nat n)).
      split; [|apply Hlen]. apply Hroute; [by repeat constructor|].
      apply onEdge_spec. simpl. lia.
    - exists (hash start :: line (0, 1) (hash start) (Z.to_nat n)).
      split; [|apply Hlen]. apply Hroute; [by repeat constructor|].
      apply onEdge_spec. simpl. lia. }
  destruct Hq as (q & Hq & Hlen).
  destruct (run_spec ∅ (gridCells w h) w h start) as (r & Hr & Hpost).
  rewrite run_total in Hr. injection Hr as Hr. rewrite Hr.
  destruct r as [path|]; [|by rewrite Hpost in Hq].
  exists path. split; [done|]. destruct Hpost as [Hesc Hmin].
  apply escapeRoute_border in Hesc. rewrite length_fmap in Hesc.
  specialize (Hmin q Hq). fold n in Hesc. lia.
Qed.

Lemma empty_grid_escape_distance_witness :
  ∃ path,
    findShortestEscapePath ∅ (initializeBoard [] 11 10) 11 10 (mkSquare 5 5) = Some path
    ∧ Z.of_nat (length path) = borderDistance (mkSquare 5 5) 11 10 + 1.
Proof. apply empty_grid_escape_distance; lia. Defined.

(** ** What the next step means *)

Lemma escapeRoute_start B board w h start :
  escapeRoute B board w h start [hash start] = onEdge start w h.
Proof. simpl. by rewrite bool_decide_eq_true_2, unhash_hash. Qed.

Lemma escapeRoute_cons B board w h start nextPos q :
  moveb B board (hash start) (hash nextPos) = true →
  escapeRoute B board w h nextPos q = true →
  escapeRoute B board w h start (hash start :: q) = true.
Proof.
  intros Hm. destruct q as [|a l]; [done|]. cbn [escapeRoute].
  rewrite !andb_true_iff, bool_decide_eq_true. intros [[-> Hw] He].
  rewrite bool_decide_eq_true_2 by done. cbn [walkb].
  by rewrite Hm, Hw, last_cons_default, He.
Qed.

Lemma escapeRoute_tail B board w h start a b l :
  escapeRoute B board w h start (a :: b :: l) = true →
  moveb B board (hash start) b = true
  ∧ escapeRoute B board w h (unhash b) (b :: l) = true.
Proof.
  cbn [escapeRoute walkb].
  rewrite !andb_true_iff, bool_decide_eq_true, last_cons_default.
  intros [[-> [Hm Hw]] He]. rewrite hash_unhash, bool_decide_eq_true_2 by done.
  by rewrite Hw, He.
Qed.

(** [getNextStep] answers [null] on exactly two grounds. *)
Lemma getNextStep_null_iff B board w h start :
  (getNextStep B board w h start).1 = None ↔
  onEdge start w h = true ∨ ∀ q, escapeRoute B board w h start q = false.
Proof.
  destruct (run_spec B board w h start) as (r & Hr & Hpost).
  rewrite run_total in Hr. injection Hr as Hr.
  unfold getNextStep. rewrite Hr. destruct r as [path|].
  - destruct Hpost as [Hesc Hmin]. split.
    + case_bool_decide as Hlen.
      * intros _. left. destruct path as [|a [|b path]]; [done| |simpl in Hlen; lia].
        simpl in Hesc. rewrite !andb_true_iff, bool_decide_eq_true in Hesc.
        destruct Hesc as [[Ha _] He]. rewrite Ha, unhash_hash in He. done.
      * destruct path as [|a [|b path]]; simpl in Hlen; [lia..|done].
    + intros [He|Hno]; [|by rewrite Hno in Hesc].
      rewrite <- (escapeRoute_start B board) in He. apply Hmin in He.
      simpl in He. by rewrite bool_decide_eq_true_2 by lia.
  - split; [by right | done].
Qed.

Lemma getNextStep_closer B board w h start nextPos e :
  getNextStep B board w h start = (Some nextPos, e) →
  move B board (hash start) (hash nextPos)
  ∧ onEdge start w h = false
  ∧ ∃ n, escapeDistance B board w h start (S n)
         ∧ escapeDistance B board w h nextPos n
         ∧ (e = true ↔ n = 0%nat).
Proof.
  intros Hstep.
  assert (Hnull := getNextStep_null_iff B board w h start).
  rewrite Hstep in Hnull. simpl in Hnull.
  apply getNextStep_inv in Hstep as (path & Hpath & Hnext & ->).
  pose proof (path_second_cell _ _ _ _ _ _ _ Hpath Hnext) as Hmove.
  destruct (run_spec B board w h start) as (r & Hr & Hpost).
  rewrite run_total, Hpath in Hr. injection Hr as <-. destruct Hpost as [Hesc Hmin].
  destruct path as [|a [|b rest]]; try done. injection Hnext as ->.
  pose proof (proj2 (moveb_move _ _ _ _) Hmove) as Hm.
  split_and!; [done| |].
  { apply not_true_is_false. intros He.
    by pose proof (proj2 Hnull (or_introl He)). }
  cbn [fmap list_fmap] in Hesc.
  apply escapeRoute_tail in Hesc as Htail. destruct Htail as [_ Htail].
  rewrite unhash_hash in Htail.
  exists (length rest). split_and!.
  - split.
    + eexists. split; [exact Hesc|]. simpl. by rewrite length_fmap.
    + intros q Hq. apply Hmin in Hq. simpl in Hq. lia.
  - split.
    + eexists. split; [exact Htail|]. simpl. by rewrite length_fmap.
    + intros q Hq. apply (escapeRoute_cons _ _ _ _ start) in Hq; [|done].
      apply Hmin in Hq. simpl in *. lia.
  - split.
    + intros He. rewrite <- (escapeRoute_start B board) in He.
      apply (escapeRoute_cons _ _ _ _ start) in He; [|done].
      apply Hmin in He. simpl in He. lia.
    + intros Hlen. destruct rest; [|done].
      simpl in Htail. by rewrite bool_decide_eq_true_2, unhash_hash in Htail.
Qed.

(** X8. When [getNextStep] answers a cell, the lobster is not on the edge,
    the cell is one move away (a neighbour, on the board, not blocked) and
    one move closer to the edge: the least number of moves to the edge is
    n + 1 from the lobster's cell and n from the answered one;
    [escapedIfMove] is true exactly when n is 0. *)
Theorem getNextStep_moves_one_step_closer
        (B : gset key) (board : list key) (w h : Z)
        (start nextPos : HexGridSquare) (e : bool) :
  getNextStep B board w h start = (Some nextPos, e) →
  move B board (hash start) (hash nextPos)
  ∧ onEdge start w h = false
  ∧ ∃ n, escapeDistance B board w h start (S n)
         ∧ escapeDistance B board w h nextPos n
         ∧ (e = true ↔ n = 0%nat).
Proof. apply getNextStep_closer. Qed.

Lemma getNextStep_moves_one_step_closer_witness :
  move ∅ board11x10 (hash (mkSquare 5 5)) (hash (mkSquare 5 6))
  ∧ onEdge (mkSquare 5 5) 11 10 = false
  ∧ ∃ n, escapeDistance ∅ board11x10 11 10 (mkSquare 5 5) (S n)
         ∧ escapeDistance ∅ board11x10 11 10 (mkSquare 5 6) n
         ∧ (false = true ↔ n = 0%nat).
Proof. apply getNextStep_moves_one_step_closer. vm_compute. reflexivity. Defined.

(** X9. An accepted click ends the round as a capture exactly when, with
    the new rock in place, the lobster has no escape route left or already
    stands on the edge; otherwise it starts a move: the wiggle callback is
    queued and [isAnimating] is set. *)
Theorem click_captures_exactly_when_enclosed
        (w : World) (x y : Z) (lobsterTile : bool) :
  accepted (board w) x y = true →
  let b := board w in
  let w' := clickHexTile w x y lobsterTile in
  (gameOver (board w') = true ↔
     onEdge (position (lobster b)) (gridWidth b) (gridHeight b) = true
     ∨ ∀ q, escapeRoute ({[ (x, y) ]} ∪ blockedSet b) (boardSquares b)
                        (gridWidth b) (gridHeight b) (position (lobster b)) q = false)
  ∧ (gameOver (board w') = false ↔
     ∃ nextPos e, timers w' = timers w ++ [Wiggle nextPos e]
                  ∧ isAnimating (board w') = true).
Proof.
  intros Ha b w'. subst b w'. rewrite clickHexTile_accepted by done.
  apply accepted_true in Ha as ((Hover & _) & _).
  pose proof (getNextStep_null_iff ({[ (x, y) ]} ∪ blockedSet (board w))
                (boardSquares (board w)) (gridWidth (board w)) (gridHeight (board w))
                (position (lobster (board w)))) as Hnull.
  unfold resolveTurn. cbn [board timers totalPoints].
  unfold placeRock at 1 2 3 4 5.
  cbn [blockedSet boardSquares gridWidth gridHeight lobster withBlockedSet hash sq_x sq_y].
  destruct (getNextStep _ _ _ _ _) as [[nextPos|] e]; cbn [fst] in Hnull.
  - unfold animateTurnWiggleJump. cbn. rewrite Hover. split.
    + split; [done|]. intros H%Hnull. done.
    + split; [eauto | done].
  - cbn. split.
    + split; [intros _; by apply Hnull | done].
    + split; [done|]. intros (np & e' & Ht & _).
      destruct lobsterTile.
      * apply app_inv_head in Ht. done.
      * rewrite app_nil_r in Ht. apply (f_equal length) in Ht.
        rewrite length_app in Ht. simpl in Ht. lia.
Qed.

Lemma click_captures_exactly_when_enclosed_witness :
  (gameOver (board (clickHexTile emptyGridWorld 0 0 true)) = true ↔
     onEdge (position (lobster (board emptyGridWorld)))
            (gridWidth (board emptyGridWorld)) (gridHeight (board emptyGridWorld)) = true
     ∨ ∀ q, escapeRoute ({[ (0, 0) ]} ∪ blockedSet (board emptyGridWorld))
                        (boardSquares (board emptyGridWorld))
                        (gridWidth (board emptyGridWorld)) (gridHeight (board emptyGridWorld))
                        (position (lobster (board emptyGridWorld))) q = false)
  ∧ (gameOver (board (clickHexTile emptyGridWorld 0 0 true)) = false ↔
     ∃ nextPos e, timers (clickHexTile emptyGridWorld 0 0 true)
                  = timers emptyGridWorld ++ [Wiggle nextPos e]
                  ∧ isAnimating (board (clickHexTile emptyGridWorld 0 0 true)) = true).
Proof.
  apply (click_captures_exactly_when_enclosed emptyGridWorld 0 0 true).
  vm_compute. reflexivity.
Defined.

(** ** The shape of the route returned *)

(** A list of cells each one move from the one before. *)
Definition chain (B : gset key) (board : list key) (l : list key) : bool :=
  match l with
  | [] => true
  | s :: l' => walkb B board s l'
  end.

Lemma walkb_app B board u l1 l2 :
  walkb B board u (l1 ++ l2) = walkb B board u l1 && walkb B board (List.last l1 u) l2.
Proof.
  revert u. induction l1 as [|a l1 IH]; intros u; [done|].
  cbn [app walkb]. rewrite IH, last_cons_default. by rewrite andb_assoc.
Qed.

Lemma escapeRoute_chain B board w h start l :
  escapeRoute B board w h start l = true ↔
  head l = Some (hash start) ∧ chain B board l = true
  ∧ ∃ b, last l = Some b ∧ onEdge (unhash b) w h = true.
Proof.
  destruct l as [|s l']; simpl.
  - split; [done | by intros [? _]].
  - rewrite !andb_true_iff, bool_decide_eq_true.
    assert (Hlast : last (s :: l') = Some (List.last l' s)).
    { clear. revert s. induction l' as [|a l' IH]; intros s; [done|].
      rewrite last_cons_default. cbn [last]. destruct l'; [done|]. apply (IH a). }
    rewrite Hlast. split.
    + intros [[-> Hw] He]. split_and!; [done..|]. eauto.
    + intros ([= ->] & Hw & b & [= <-] & He). done.
Qed.

Lemma chain_take B board l n : chain B board l = true → chain B board (take n l) = true.
Proof.
  destruct l as [|s l']; [by destruct n|]. destruct n as [|n]; [done|]. simpl.
  rewrite <- (take_drop n l') at 1. rewrite walkb_app. by intros [? _]%andb_true_iff.
Qed.

Lemma chain_drop B board l n : chain B board l = true → chain B board (drop n l) = true.
Proof.
  revert l. induction n as [|n IH]; intros l; [done|].
  destruct l as [|s l']; [done|]. simpl. intros Hw. apply IH.
  destruct l' as [|a l'']; [done|]. simpl in *. by apply andb_true_iff in Hw as [_ ?].
Qed.

(** Two chains that meet in a cell. *)
Lemma chain_join B board l1 c l2 :
  chain B board (l1 ++ [c]) = true → chain B board (c :: l2) = true →
  chain B board (l1 ++ c :: l2) = true.
Proof.
  destruct l1 as [|s l1]; [done|]. cbn [chain app].
  rewrite !walkb_app. cbn [walkb]. rewrite andb_true_r.
  intros [H1 H2]%andb_true_iff Hw. by rewrite H1, H2, Hw.
Qed.

Section Shape.

Variable B : gset key.
Variable board : list key.
Variables w h : Z.
Variable start : HexGridSquare.
Variable path : list HexGridSquare.
Hypothesis Hpath : findShortestEscapePath B board w h start = Some path.

Lemma path_shortest :
  escapeRoute B board w h start (hash <$> path) = true
  ∧ ∀ q, escapeRoute B board w h start q = true → (length path ≤ length q)%nat.
Proof using Hpath.
  destruct (run_spec B board w h start) as (r & Hr & Hpost).
  rewrite run_total, Hpath in Hr. by injection Hr as <-.
Qed.

Lemma path_edge_at_end i c :
  path !! i = Some c → onEdge c w h = true → S i = length path.
Proof using Hpath.
  intros Hi He. destruct path_shortest as [Hesc Hmin].
  apply escapeRoute_chain in Hesc as (Hhead & Hchain & _).
  assert (Hlen := lookup_lt_Some _ _ _ Hi).
  assert (Hpre : escapeRoute B board w h start (take (S i) (hash <$> path)) = true).
  { apply escapeRoute_chain. split_and!.
    - destruct path; [done|]. done.
    - by apply chain_take.
    - exists (hash c). split; [|by rewrite unhash_hash].
      rewrite last_lookup, length_take, length_fmap.
      replace (Nat.pred (S i `min` length path)) with i by lia.
      rewrite lookup_take_lt by lia. by rewrite list_lookup_fmap, Hi. }
  apply Hmin in Hpre. rewrite length_take, length_fmap in Hpre. lia.
Qed.

Lemma path_no_repeat i j c :
  (i < j)%nat → (hash <$> path) !! i = Some c → (hash <$> path) !! j = Some c → False.
Proof using Hpath.
  intros Hij Hi Hj. destruct path_shortest as [Hesc Hmin].
  apply escapeRoute_chain in Hesc as (Hhead & Hchain & b & Hlast & Hb).
  assert (Hlen := lookup_lt_Some _ _ _ Hj).
  set (L := hash <$> path) in *.
  assert (Htake : take (S i) L = take i L ++ [c]) by (by apply take_S_r).
  assert (Hdrop : drop j L = c :: drop (S j) L) by (by rewrite (drop_S _ _ _ Hj)).
  assert (Hcut : escapeRoute B board w h start (take i L ++ c :: drop (S j) L) = true).
  { apply escapeRoute_chain. split_and!.
    - destruct i; [|by destruct L]. simpl. apply (f_equal head) in Htake.
      destruct L; [done|]. simpl in *. by rewrite <- Hhead, Htake.
    - apply chain_join.
      + rewrite <- Htake. by apply chain_take.
      + rewrite <- Hdrop. by apply chain_drop.
    - exists b. split; [|done].
      rewrite <- Hdrop. rewrite last_app.
      assert (Hl : last (drop j L) = Some b).
      { rewrite last_lookup, lookup_drop, length_drop.
        rewrite last_lookup in Hlast.
        replace (j + Nat.pred (length L - j))%nat with (Nat.pred (length L)) by lia.
        done. }
      by rewrite Hl. }
  apply Hmin in Hcut. rewrite length_app in Hcut. simpl in Hcut.
  rewrite length_take, length_drop in Hcut. subst L. rewrite length_fmap in *. lia.
Qed.

End Shape.

(** X25. The route [findShortestEscapePath] returns begins at the
    lobster's cell, visits no cell twice, has a cell on the edge at its end
    and nowhere else, and every cell after the first is on the board and
    not blocked. *)
Theorem path_is_simple_and_ends_on_the_edge
        (B : gset key) (board : list key) (w h : Z) (start : HexGridSquare)
        (path : list HexGridSquare) :
  findShortestEscapePath B board w h start = Some path →
  NoDup path
  ∧ head path = Some start
  ∧ (∀ i c, path !! i = Some c → (onEdge c w h = true ↔ S i = length path))
  ∧ (∀ i c, path !! S i = Some c → hash c ∈ board ∧ hash c ∉ B).
Proof.
  intros Hpath. destruct (path_shortest B board w h start path Hpath) as [Hesc Hmin].
  pose proof Hesc as (Hhead & Hchain & b & Hlast & Hb)%escapeRoute_chain.
  split_and!.
  - apply (NoDup_fmap_1 hash). apply NoDup_alt. intros i j c Hi Hj.
    destruct (Nat.lt_trichotomy i j) as [Hlt|[->|Hlt]]; [|done|].
    + by destruct (path_no_repeat B board w h start path Hpath i j c).
    + by destruct (path_no_repeat B board w h start path Hpath j i c).
  - destruct path as [|a path']; [done|]. cbn [fmap list_fmap head] in Hhead.
    assert (Ha : hash a = hash start) by congruence.
    simpl. f_equal. by rewrite <- (unhash_hash a), Ha, unhash_hash.
  - intros i c Hi. split; [by apply (path_edge_at_end B board w h start path Hpath)|].
    intros Hlen. rewrite last_lookup, length_fmap, <- Hlen in Hlast. simpl in Hlast.
    rewrite list_lookup_fmap, Hi in Hlast. injection Hlast as <-.
    by rewrite unhash_hash in Hb.
  - intros i c Hi.
    assert (Hc : chain B board (drop i (hash <$> path)) = true) by (by apply chain_drop).
    destruct (lookup_lt_is_Some_2 path i) as [a Ha].
    { apply lookup_lt_Some in Hi. lia. }
    rewrite <- fmap_drop, (drop_S _ _ _ Ha), (drop_S _ _ _ Hi) in Hc. simpl in Hc.
    apply andb_true_iff in Hc as [(_ & ? & ?)%moveb_move _]. done.
Qed.

Lemma path_is_simple_and_ends_on_the_edge_witness :
  NoDup [mkSquare 5 5; mkSquare 5 6; mkSquare 4 7; mkSquare 4 8; mkSquare 3 9]
  ∧ head [mkSquare 5 5; mkSquare 5 6; mkSquare 4 7; mkSquare 4 8; mkSquare 3 9]
    = Some (mkSquare 5 5)
  ∧ (∀ i c, [mkSquare 5 5; mkSquare 5 6; mkSquare 4 7; mkSquare 4 8; mkSquare 3 9] !! i
            = Some c →
            (onEdge c 11 10 = true
             ↔ S i = length [mkSquare 5 5; mkSquare 5 6; mkSquare 4 7; mkSquare 4 8;
                             mkSquare 3 9]))
  ∧ (∀ i c, [mkSquare 5 5; mkSquare 5 6; mkSquare 4 7; mkSquare 4 8; mkSquare 3 9] !! S i
            = Some c → hash c ∈ board11x10 ∧ hash c ∉ (∅ : gset key)).
Proof.
  apply (path_is_simple_and_ends_on_the_edge ∅ board11x10 11 10 (mkSquare 5 5)).
  vm_compute. reflexivity.
Defined.

(** ** The phases of a round *)

(** The lobster has no way out: it stands on the edge, where the search
    stops at once, or no escape route is left. *)
Definition enclosed (b : Game1Board) : Prop :=
  onEdge (position (lobster b)) (gridWidth b) (gridHeight b) = true
  ∨ ∀ q, escapeRoute (blockedSet b) (boardSquares b) (gridWidth b) (gridHeight b)
                     (position (lobster b)) q = false.

Definition flagsAre (b : Game1Board) (over anim esc : bool) : Prop :=
  gameOver b = over ∧ gameLost b = false ∧ isAnimating b = anim ∧ isEscaping b = esc.

(** The headings [triggerEscapeAnimation] gives on the four sides. *)
Definition outward (b : Game1Board) : Prop :=
  rotation (lobster b) ∈ [0; 180; 270; 90].

(** Where a round can be: waiting for a click, in one of the three stages
    of a move, showing an escape, or showing a capture. *)
Inductive Phase (w : World) : Prop :=
| phase_idle :
    timers w = [] → flagsAre (board w) false false false → Phase w
| phase_moving t nextPos e :
    timers w = [t] → t = Wiggle nextPos e ∨ t = Jump nextPos e →
    flagsAre (board w) false true false →
    move (blockedSet (board w)) (boardSquares (board w))
         (hash (position (lobster (board w)))) (hash nextPos) →
    e = onEdge nextPos (gridWidth (board w)) (gridHeight (board w)) →
    Phase w
| phase_landing e :
    timers w = [Land e] → flagsAre (board w) false true false →
    e = onEdge (position (lobster (board w))) (gridWidth (board w)) (gridHeight (board w)) →
    Phase w
| phase_escaping :
    timers w = [EscapeReset] → flagsAre (board w) false false true →
    onEdge (position (lobster (board w))) (gridWidth (board w)) (gridHeight (board w)) = true →
    outward (board w) →
    Phase w
| phase_captured :
    timers w = [] ∨ (∃ t, timers w = [t] ∧ t ∈ [StoneFly; StoneArrive; CairnPoint; CaptureReset]) →
    flagsAre (board w) true false false →
    enclosed (board w) →
    Phase w.

Lemma phase_accepting w x y :
  Phase w → accepted (board w) x y = true →
  timers w = [] ∧ flagsAre (board w) false false false.
Proof.
  intros HP ((Hover & Hlost & Hanim & Hesc) & _)%accepted_true.
  destruct HP as [Ht Hf|? ? ? _ _ Hf _ _|? _ Hf _|_ Hf _ _|_ Hf _];
    destruct Hf as (? & ? & ? & ?); try congruence.
  by split.
Qed.

Lemma phase_fresh b b' picks points :
  FreshRound b b' picks → Phase (mkWorld b' [] points).
Proof. intros HF. apply phase_idle; [done|]. by destruct (fresh_flags _ _ _ HF) as (? & ? & ? & ?). Qed.

Lemma phase_click w x y lobsterTile : Phase w → Phase (clickHexTile w x y lobsterTile).
Proof.
  intros HP. destruct (accepted (board w) x y) eqn:Ha;
    [|by rewrite clickHexTile_rejected].
  rewrite clickHexTile_accepted by done.
  destruct (phase_accepting _ _ _ HP Ha) as [Hidle (Hover & Hlost & Hanim & Hesc)].
  unfold resolveTurn. cbn [board timers totalPoints]. rewrite Hidle.
  destruct (getNextStep _ _ _ _ _) as [[nextPos|] e] eqn:Hstep.
  - apply getNextStep_inv in Hstep as (path & Hpath & Hnext & He).
    apply path_second_cell with (nextPos := nextPos) in Hpath; [|done].
    eapply (phase_moving _ (Wiggle nextPos e) nextPos e); cbn; try done. by left.
  - assert (Hnull := getNextStep_null_iff (blockedSet (placeRock (board w) x y))
                       (boardSquares (placeRock (board w) x y))
                       (gridWidth (placeRock (board w) x y))
                       (gridHeight (placeRock (board w) x y))
                       (position (lobster (placeRock (board w) x y)))).
    rewrite Hstep in Hnull. apply proj1 in Hnull. specialize (Hnull eq_refl).
    apply phase_captured; cbn; [|done..].
    destruct lobsterTile; [right|by left].
    eexists. split; [done|]. by repeat constructor.
Qed.

Lemma outward_edge (p : HexGridSquare) (w h r : Z) :
  onEdge p w h = true →
  (if sq_y p =? 0 then 0
   else if sq_y p =? h - 1 then 180
   else if sq_x p =? 0 then 270
   else if sq_x p =? w - 1 then 90
   else Z.rem r 360) ∈ [0; 180; 270; 90].
Proof.
  intros He%onEdge_spec.
  repeat match goal with
         | |- context [?a =? ?b] => destruct (Z.eqb_spec a b)
         end; try by repeat constructor.
  lia.
Qed.

Lemma phase_runTimer w t dom draws w' :
  Phase (mkWorld (board w) [t] (totalPoints w)) → timers w = [] →
  runTimer w t dom draws = Some w' → Phase w'.
Proof.
  intros HP Hidle.
  destruct HP as [Ht Hf|t' nextPos e Ht Hcase Hf Hmove He|e Ht Hf He|Ht Hf He Hout|Ht Hf Henc];
    cbn [timers board] in *.
  - done.
  - injection Ht as <-. destruct Hf as (Hover & Hlost & Hanim & Hesc).
    destruct Hcase as [->| ->]; simpl; rewrite Hidle; intros [= <-].
    + eapply (phase_moving _ (Jump nextPos e) nextPos e); cbn; try done. by right.
    + by apply (phase_landing _ e).
  - injection Ht as ->. destruct Hf as (Hover & Hlost & Hanim & Hesc).
    simpl. intros [= <-]. destruct e; [destruct dom|]; cbn.
    + unfold triggerEscapeAnimation. cbn. rewrite Hidle.
      apply phase_escaping; cbn; try done.
      unfold outward. cbn. by apply outward_edge.
    + unfold triggerEscapeAnimation. cbn. by apply phase_idle.
    + by apply phase_idle.
  - injection Ht as ->. simpl.
    intros (b' & (picks & HF)%reset_fresh & [= <-])%bind_Some.
    rewrite Hidle. by eapply phase_fresh.
  - destruct Ht as [Ht|(t' & Ht & Hin)]; [done|]. injection Ht as <-.
    repeat (apply elem_of_cons in Hin as [->|Hin]); [..|by apply elem_of_nil in Hin];
      simpl; rewrite Hidle.
    + intros [= <-]. apply phase_captured; cbn; [|done..].
      destruct dom; [right|by left]. eexists. split; [done|]. by repeat constructor.
    + intros [= <-]. apply phase_captured; cbn; [|done..].
      right. eexists. split; [done|]. by repeat constructor.
    + intros [= <-]. apply phase_captured; cbn; [|done..].
      right. eexists. split; [done|]. by repeat constructor.
    + intros (b' & (picks & HF)%reset_fresh & [= <-])%bind_Some.
      by eapply phase_fresh.
Qed.

Lemma phase_timers w : Phase w → timers w = [] ∨ ∃ t, timers w = [t].
Proof. destruct 1 as [?|? ? ? ? _|? ?|?|[?|(? & ? & _)]]; eauto. Qed.

Lemma phase_world w : Phase w → Phase (mkWorld (board w) (timers w) (totalPoints w)).
Proof. by destruct w. Qed.

Lemma phase_dispatch w e w' :
  Phase w → quiet w e → dispatch w e = Some w' → Phase w'.
Proof.
  intros HP Hq. destruct e as [x y lobsterTile|i dom draws|draws]; simpl.
  - intros [= <-]. by apply phase_click.
  - intros (t & Ht & Hrun)%bind_Some.
    destruct (phase_timers _ HP) as [Hnil|(t' & Hone)]; [by rewrite Hnil in Ht|].
    rewrite Hone in Ht, Hrun. destruct i as [|i]; [|by simpl in Ht]. injection Ht as ->.
    apply (phase_runTimer (mkWorld (board w) [] (totalPoints w)) t dom draws);
      [|reflexivity|exact Hrun].
    cbn. rewrite <- Hone. by apply phase_world.
  - simpl in Hq. intros (b' & (picks & HF)%reset_fresh & [= <-])%bind_Some.
    rewrite Hq. by eapply phase_fresh.
Qed.

Lemma reachable_phase w : reachable w → Phase w.
Proof.
  induction 1 as [draws b points (picks & HF)%newGame1Board_fresh|w e w' _ IH Hq Hd].
  - by eapply phase_fresh.
  - by eapply phase_dispatch.
Qed.

(** ** What every event keeps *)

(** The cell a pending callback will move the lobster to. *)
Definition timerCell (t : Timer) : option HexGridSquare :=
  match t with
  | Wiggle nextPos _ | Jump nextPos _ => Some nextPos
  | _ => None
  end.

(** The grid of a board: its size and its cells. *)
Definition grid (b : Game1Board) : Z * Z * list key :=
  (gridWidth b, gridHeight b, boardSquares b).

Record Grounded (w : World) : Prop := {
  grounded_lobster : hash (position (lobster (board w))) ∈ boardSquares (board w);
  grounded_spawn : hash (spawnSquare (board w)) ∈ boardSquares (board w);
  grounded_pending :
    Forall (λ t, ∀ nextPos, timerCell t = Some nextPos →
                            hash nextPos ∈ boardSquares (board w)) (timers w)
}.

Lemma reset_grid b draws b' : reset b draws = Some b' → grid b' = grid b.
Proof.
  intros (picks & HF)%reset_fresh. destruct (fresh_grid _ _ _ HF) as (Hw & Hh & Hb).
  unfold grid. by rewrite Hw, Hh, Hb.
Qed.

Lemma clickHexTile_grid w x y lobsterTile :
  grid (board (clickHexTile w x y lobsterTile)) = grid (board w).
Proof.
  unfold clickHexTile. destruct (accepted _ _ _); [|done].
  unfold resolveTurn. by destruct (getNextStep _ _ _ _ _) as [[?|] ?].
Qed.

Lemma runTimer_grid w t dom draws w' :
  runTimer w t dom draws = Some w' → grid (board w') = grid (board w).
Proof.
  destruct t; simpl; try (by intros [= <-]).
  - intros [= <-]. unfold triggerEscapeAnimation. by destruct escapedIfMove, dom.
  - intros (b' & Hr%reset_grid & [= <-])%bind_Some. exact Hr.
  - intros (b' & Hr%reset_grid & [= <-])%bind_Some. exact Hr.
Qed.

Lemma dispatch_grid w e w' : dispatch w e = Some w' → grid (board w') = grid (board w).
Proof.
  destruct e as [x y lobsterTile|i dom draws|draws]; simpl.
  - intros [= <-]. apply clickHexTile_grid.
  - intros (t & _ & Hr%runTimer_grid)%bind_Some. done.
  - intros (b' & Hr%reset_grid & [= <-])%bind_Some. done.
Qed.

Lemma runEvents_grid es : ∀ w w', runEvents w es = Some w' → grid (board w') = grid (board w).
Proof.
  induction es as [|e es IH]; intros w w'; simpl; [by intros [= <-]|].
  intros (w1 & Hd%dispatch_grid & Hr%IH)%bind_Some. congruence.
Qed.

Lemma grid_fields b b' :
  grid b' = grid b →
  gridWidth b' = gridWidth b ∧ gridHeight b' = gridHeight b ∧ boardSquares b' = boardSquares b.
Proof. by intros [= -> -> ->]. Qed.

Lemma grounded_reset w draws b' timersLeft :
  Grounded w → reset (board w) draws = Some b' →
  Forall (λ t, ∀ nextPos, timerCell t = Some nextPos →
                          hash nextPos ∈ boardSquares (board w)) timersLeft →
  Grounded (mkWorld b' timersLeft (totalPoints w)).
Proof.
  intros [Hl Hs Hp] Hr Hleft.
  pose proof (reset_grid _ _ _ Hr) as (Hw & Hh & Hb)%grid_fields.
  apply reset_fresh in Hr as (picks & HF).
  assert (Hspawn : hash (spawnSquare b') ∈ boardSquares b').
  { unfold spawnSquare in *. by rewrite Hw, Hh, Hb. }
  split; cbn.
  - rewrite (fresh_position _ _ _ HF). unfold spawnSquare in Hs. by rewrite Hb.
  - done.
  - by rewrite Hb.
Qed.

Lemma grounded_click w x y lobsterTile :
  Grounded w → Grounded (clickHexTile w x y lobsterTile).
Proof.
  intros [Hl Hs Hp]. unfold clickHexTile. destruct (accepted _ _ _); [|done].
  unfold resolveTurn. cbn [board timers totalPoints].
  destruct (getNextStep _ _ _ _ _) as [[nextPos|] e] eqn:Hstep.
  - apply getNextStep_inv in Hstep as (path & Hpath & Hnext & _).
    apply path_second_cell with (nextPos := nextPos) in Hpath as (_ & Hon & _); [|done].
    split; cbn; [done..|]. apply Forall_app. split; [done|].
    apply Forall_singleton. by intros np [= <-].
  - split; cbn; [done..|]. apply Forall_app. split; [done|].
    destruct lobsterTile; [|done]. by apply Forall_singleton.
Qed.

Lemma grounded_runTimer w t dom draws w' :
  Grounded w →
  (∀ nextPos, timerCell t = Some nextPos → hash nextPos ∈ boardSquares (board w)) →
  runTimer w t dom draws = Some w' → Grounded w'.
Proof.
  intros HG Ht. pose proof HG as [Hl Hs Hp]. destruct t; simpl.
  - intros [= <-]. split; cbn; [done..|]. apply Forall_app. split; [done|].
    apply Forall_singleton. intros np [= <-]. by apply Ht.
  - intros [= <-]. split; cbn; [by apply Ht | done |].
    apply Forall_app. split; [done|]. by apply Forall_singleton.
  - intros [= <-]. unfold triggerEscapeAnimation.
    destruct escapedIfMove, dom; split; cbn; try done.
    apply Forall_app. split; [done|]. by apply Forall_singleton.
  - intros (b' & Hr & [= <-])%bind_Some.
    by apply (grounded_reset (mkWorld (withEscaping (board w) false) (timers w) (totalPoints w))
                             draws b' (timers w)).
  - intros [= <-]. split; cbn; [done..|]. apply Forall_app. split; [done|].
    destruct dom; [|done]. by apply Forall_singleton.
  - intros [= <-]. split; cbn; [done..|]. apply Forall_app. split; [done|].
    by apply Forall_singleton.
  - intros [= <-]. split; cbn; [done..|]. apply Forall_app. split; [done|].
    by apply Forall_singleton.
  - intros (b' & Hr & [= <-])%bind_Some.
    by apply (grounded_reset w draws b' (timers w)).
Qed.

Lemma grounded_dispatch w e w' : Grounded w → dispatch w e = Some w' → Grounded w'.
Proof.
  intros HG. pose proof HG as [Hl Hs Hp].
  destruct e as [x y lobsterTile|i dom draws|draws]; simpl.
  - intros [= <-]. by apply grounded_click.
  - intros (t & Ht & Hrun)%bind_Some.
    apply (grounded_runTimer _ t dom draws) in Hrun; [done| |].
    + split; cbn; [done..|]. by apply Forall_delete.
    + cbn. rewrite Forall_forall in Hp. apply Hp. by apply list_elem_of_lookup_2 in Ht.
  - intros (b' & Hr & [= <-])%bind_Some. by apply (grounded_reset w draws).
Qed.

Lemma grounded_runEvents es : ∀ w w', Grounded w → runEvents w es = Some w' → Grounded w'.
Proof.
  induction es as [|e es IH]; intros w w' HG; simpl; [by intros [= <-]|].
  intros (w1 & Hd & Hr)%bind_Some. apply (IH w1); [|done].
  by apply (grounded_dispatch w e).
Qed.

Lemma newGame1Board_grid draws b :
  newGame1Board draws = Some b →
  gridWidth b = 11 ∧ gridHeight b = 10 ∧ boardSquares b = gridCells 11 10
  ∧ position (lobster b) = mkSquare 5 5.
Proof.
  intros (picks & HF)%newGame1Board_fresh.
  destruct (fresh_grid _ _ _ HF) as (Hw & Hh & Hb).
  rewrite Hw, Hh, Hb, (fresh_position _ _ _ HF). cbn.
  by rewrite <- initializeBoard_gridCells, initializeBoard_11_10.
Qed.

Lemma newGame1Board_grounded draws b points :
  newGame1Board draws = Some b → Grounded (mkWorld b [] points).
Proof.
  intros (Hw & Hh & Hb & Hpos)%newGame1Board_grid.
  split; cbn.
  - rewrite Hpos, Hb. by apply gridCells_elem.
  - unfold spawnSquare. rewrite Hw, Hh, Hb. by apply gridCells_elem.
  - done.
Qed.

(** X14. The lobster never leaves the board.  After any sequence of clicks
    (on any coordinates), callbacks in any order and restarts at any time
    from a new board, the board is still the 11 by 10 grid and the lobster's
    cell is one of its cells. *)
Theorem lobster_never_leaves_the_board
        (draws : list nat) (b : Game1Board) (points : nat) (es : list Event) (w' : World) :
  newGame1Board draws = Some b →
  runEvents (mkWorld b [] points) es = Some w' →
  boardSquares (board w') = initializeBoard [] 11 10
  ∧ gridWidth (board w') = 11 ∧ gridHeight (board w') = 10
  ∧ hash (position (lobster (board w'))) ∈ boardSquares (board w')
  ∧ 0 ≤ sq_x (position (lobster (board w'))) < 11
  ∧ 0 ≤ sq_y (position (lobster (board w'))) < 10.
Proof.
  intros Hnew Hrun.
  pose proof (newGame1Board_grounded _ _ points Hnew) as HG.
  apply (grounded_runEvents _ _ _ HG) in Hrun as HG'.
  apply runEvents_grid, grid_fields in Hrun as (Hw & Hh & Hb). cbn in Hw, Hh, Hb.
  apply newGame1Board_grid in Hnew as (Hw0 & Hh0 & Hb0 & _).
  rewrite Hw0 in Hw. rewrite Hh0 in Hh. rewrite Hb0 in Hb.
  destruct HG' as [Hl _ _]. rewrite initializeBoard_gridCells.
  assert (Hin := Hl). rewrite Hb in Hin. destruct (position _) as [px py].
  apply (gridCells_elem 11 10 px py) in Hin. simpl. split_and!; (done || lia).
Qed.

(** ** The tile handler *)

(** X17. The guard of the tile's click handler is redundant: on every
    state the handler does what [clickHexTile] does. *)
Theorem tileClick_is_clickHexTile (w : World) (x y : Z) (lobsterTile : bool) :
  tileClick w x y lobsterTile = clickHexTile w x y lobsterTile.
Proof.
  unfold tileClick. destruct (negb _ && negb _) eqn:Hguard; [done|].
  symmetry. apply clickHexTile_rejected, accepted_false.
  apply andb_false_iff in Hguard as [Hb|Hl].
  - left. apply negb_false_iff in Hb. by apply bool_decide_eq_true in Hb.
  - right. left. apply negb_false_iff, andb_true_iff in Hl as [Hx%Z.eqb_eq Hy%Z.eqb_eq].
    unfold hash. simpl. by rewrite Hx, Hy.
Qed.

(** ** Rocks *)

Lemma runTimer_blockedSet w t dom draws w' :
  runTimer w t dom draws = Some w' →
  match t with
  | EscapeReset | CaptureReset => True
  | _ => blockedSet (board w') = blockedSet (board w)
  end.
Proof.
  destruct t; simpl; try done; try (by intros [= <-]).
  intros [= <-]. unfold triggerEscapeAnimation. by destruct escapedIfMove, dom.
Qed.

Lemma clickHexTile_rocks w x y lobsterTile :
  blockedSet (board (clickHexTile w x y lobsterTile))
  = if accepted (board w) x y then {[ (x, y) ]} ∪ blockedSet (board w)
    else blockedSet (board w).
Proof.
  destruct (accepted (board w) x y) eqn:Ha.
  - by rewrite clickHexTile_blockedSet.
  - by rewrite clickHexTile_rejected.
Qed.

(** X16. Outside [reset()] rocks are never removed and never appear by
    themselves: an event that is neither the restart button nor a reset
    callback keeps every rock, and the only rock it can add is the one on
    the clicked cell. *)
Theorem rocks_stay_until_reset (w : World) (e : Event) (w' : World) :
  runsReset w e = false → dispatch w e = Some w' →
  blockedSet (board w) ⊆ blockedSet (board w')
  ∧ ∀ k, k ∈ blockedSet (board w') →
         k ∈ blockedSet (board w) ∨ ∃ lobsterTile, e = Click k.1 k.2 lobsterTile.
Proof.
  destruct e as [x y lobsterTile|i dom draws|draws]; simpl; [| |done].
  - intros _ [= <-]. rewrite clickHexTile_rocks.
    destruct (accepted _ _ _); [|by split; [|auto]]. split.
    + apply union_subseteq_r.
    + intros k [->%elem_of_singleton|Hk]%elem_of_union; [right; by eexists | by left].
  - intros Hno (t & Ht & Hrun)%bind_Some. rewrite Ht in Hno.
    apply runTimer_blockedSet in Hrun.
    destruct t; try done; cbn in Hrun; rewrite Hrun; by split; [|auto].
Qed.

Lemma rocks_stay_until_reset_witness :
  blockedSet (board emptyGridWorld)
  ⊆ blockedSet (board (clickHexTile emptyGridWorld 9 9 true))
  ∧ ∀ k, k ∈ blockedSet (board (clickHexTile emptyGridWorld 9 9 true)) →
         k ∈ blockedSet (board emptyGridWorld) ∨ ∃ lobsterTile, Click 9 9 true = Click k.1 k.2 lobsterTile.
Proof.
  apply (rocks_stay_until_reset emptyGridWorld (Click 9 9 true)); reflexivity.
Defined.

Definition rocksOnBoard (b : Game1Board) : Prop :=
  ∀ k, k ∈ blockedSet b → k ∈ boardSquares b.

Lemma rocksOnBoard_reset b draws b' : reset b draws = Some b' → rocksOnBoard b'.
Proof.
  intros (picks & HF)%reset_fresh k. rewrite (fresh_blocked _ _ _ HF), elem_of_list_to_set.
  intros Hk. pose proof (fresh_picks _ _ _ HF) as Hall. rewrite Forall_forall in Hall.
  destruct (fresh_grid _ _ _ HF) as (_ & _ & ->). by apply Hall.
Qed.

Lemma rocksOnBoard_dispatch w e w' :
  rocksOnBoard (board w) →
  match e with Click x y _ => (x, y) ∈ boardSquares (board w) | _ => True end →
  dispatch w e = Some w' → rocksOnBoard (board w').
Proof.
  intros HR He Hd. pose proof (dispatch_grid _ _ _ Hd) as (_ & _ & Hb)%grid_fields.
  destruct e as [x y lobsterTile|i dom draws|draws]; simpl in Hd.
  - injection Hd as <-. intros k. rewrite Hb, clickHexTile_rocks.
    destruct (accepted _ _ _); [|apply HR].
    intros [->%elem_of_singleton|Hk]%elem_of_union; [done | by apply HR].
  - apply bind_Some in Hd as (t & Ht & Hrun).
    pose proof (runTimer_blockedSet _ _ _ _ _ Hrun) as Hsame.
    destruct t; cbn in Hsame; try (intros k; rewrite Hb, Hsame; apply HR);
      simpl in Hrun; apply bind_Some in Hrun as (b' & Hr & [= <-]);
      by apply rocksOnBoard_reset in Hr.
  - apply bind_Some in Hd as (b' & Hr & [= <-]). by apply rocksOnBoard_reset in Hr.
Qed.

Lemma clickOnTile_board x y lobsterTile :
  clickOnTile (Click x y lobsterTile) = true → (x, y) ∈ gridCells 11 10.
Proof.
  simpl. rewrite !andb_true_iff, !Z.leb_le, !Z.ltb_lt. intros. apply gridCells_elem. lia.
Qed.

Lemma rocksOnBoard_runEvents es : ∀ w w',
  boardSquares (board w) = gridCells 11 10 → rocksOnBoard (board w) →
  forallb clickOnTile es = true → runEvents w es = Some w' → rocksOnBoard (board w').
Proof.
  induction es as [|e es IH]; intros w w' Hb HR Hes; simpl; [by intros [= <-]|].
  simpl in Hes. apply andb_true_iff in Hes as [He Hes].
  intros (w1 & Hd & Hrun)%bind_Some. apply (IH w1); [| |done..].
  - apply dispatch_grid, grid_fields in Hd as (_ & _ & ->). done.
  - apply (rocksOnBoard_dispatch w e); [done| |done].
    destruct e as [x y t| |]; [|done..]. rewrite Hb. by apply (clickOnTile_board x y t).
Qed.

(** X15. Rocks lie on the board: after any sequence of clicks on tiles of
    the grid, callbacks in any order and restarts at any time from a new
    board, every rock is on a cell of the 11 by 10 grid. *)
Theorem rocks_only_on_board_tiles
        (draws : list nat) (b : Game1Board) (points : nat) (es : list Event) (w' : World) :
  newGame1Board draws = Some b →
  forallb clickOnTile es = true →
  runEvents (mkWorld b [] points) es = Some w' →
  ∀ x y, (x, y) ∈ blockedSet (board w') → 0 ≤ x < 11 ∧ 0 ≤ y < 10.
Proof.
  intros Hnew Hes Hrun x y Hk.
  pose proof (newGame1Board_grid _ _ Hnew) as (_ & _ & Hb & _).
  assert (HR0 : rocksOnBoard b).
  { apply newGame1Board_fresh in Hnew as (picks & HF). intros k.
    rewrite (fresh_blocked _ _ _ HF), elem_of_list_to_set. intros Hin.
    pose proof (fresh_picks _ _ _ HF) as Hall. rewrite Forall_forall in Hall.
    destruct (fresh_grid _ _ _ HF) as (_ & _ & ->). by apply Hall. }
  pose proof (rocksOnBoard_runEvents es (mkWorld b [] points) w' Hb HR0 Hes Hrun) as HR.
  apply HR in Hk. apply runEvents_grid, grid_fields in Hrun as (_ & _ & Hb').
  cbn in Hb'. rewrite Hb', Hb in Hk. by apply gridCells_elem in Hk.
Qed.

Lemma lobster_never_leaves_the_board_witness :
  ∃ b0 w',
    newGame1Board sixteenDraws = Some b0
    ∧ runEvents (mkWorld b0 [] 0)
                [Click 9 9 true; ResetRound (56%nat :: sixteenDraws);
                 Fire 0 true []; Fire 0 true []; Click 20 (-3) true] = Some w'
    ∧ boardSquares (board w') = initializeBoard [] 11 10
    ∧ gridWidth (board w') = 11 ∧ gridHeight (board w') = 10
    ∧ hash (position (lobster (board w'))) ∈ boardSquares (board w')
    ∧ 0 ≤ sq_x (position (lobster (board w'))) < 11
    ∧ 0 ≤ sq_y (position (lobster (board w'))) < 10.
Proof.
  assert (Hnew : ∃ b0, newGame1Board sixteenDraws = Some b0) by (by vm_compute; eexists).
  destruct Hnew as [b0 Hb0].
  assert (Hrun : ∃ w', runEvents (mkWorld b0 [] 0)
                         [Click 9 9 true; ResetRound (56%nat :: sixteenDraws);
                          Fire 0 true []; Fire 0 true []; Click 20 (-3) true] = Some w').
  { vm_compute in Hb0. injection Hb0 as <-. eexists. by vm_compute. }
  destruct Hrun as (w' & Hrun).
  exists b0, w'. do 2 (split; [done|]).
  exact (lobster_never_leaves_the_board sixteenDraws b0 0 _ w' Hb0 Hrun).
Defined.

Lemma rocks_only_on_board_tiles_witness :
  ∃ b0 w',
    newGame1Board sixteenDraws = Some b0
    ∧ runEvents (mkWorld b0 [] 0)
                [Click 9 9 true; ResetRound (56%nat :: sixteenDraws);
                 Fire 0 true []; Fire 0 true []; Click 10 0 true] = Some w'
    ∧ (10, 0) ∈ blockedSet (board w')
    ∧ ∀ x y, (x, y) ∈ blockedSet (board w') → 0 ≤ x < 11 ∧ 0 ≤ y < 10.
Proof.
  assert (Hnew : ∃ b0, newGame1Board sixteenDraws = Some b0) by (by vm_compute; eexists).
  destruct Hnew as [b0 Hb0].
  assert (Hrun : ∃ w', runEvents (mkWorld b0 [] 0)
                         [Click 9 9 true; ResetRound (56%nat :: sixteenDraws);
                          Fire 0 true []; Fire 0 true []; Click 10 0 true] = Some w'
                       ∧ setHas (blockedSet (board w')) (10, 0) = true).
  { vm_compute in Hb0. injection Hb0 as <-. eexists. split; by vm_compute. }
  destruct Hrun as (w' & Hrun & Hin).
  exists b0, w'. do 2 (split; [done|]). split; [by apply bool_decide_eq_true in Hin|].
  eapply (rocks_only_on_board_tiles sixteenDraws b0 0); [exact Hb0 | | exact Hrun].
  reflexivity.
Defined.

(** Draws that put a rock on each of the six neighbours of the spawn cell
    (index [10 x + y] of the square array is the cell [(x, y)]). *)
Definition enclosingDraws : list nat :=
  [45; 65; 54; 64; 56; 66; 0; 1; 2; 3; 4; 5; 6; 7; 8; 9]%nat.

(** ** The course of a round *)

(** A run of events from the board drawn with [draws]. *)
Lemma reachable_from_new draws b es w' :
  newGame1Board draws = Some b →
  forallb (λ e, negb (isRestart e)) es = true →
  runEvents (mkWorld b [] 0) es = Some w' → reachable w'.
Proof.
  intros Hnew Hes Hrun.
  eapply reachable_runEvents; [by apply (reach_new draws) | exact Hes | exact Hrun].
Qed.

(** X10. One placement per turn.  In every state of a round (reached from
    a new board by clicks, callbacks and restarts made between turns) at
    most one callback is pending, [gameLost] is false (nothing ever sets
    it), and while a callback is pending every click is ignored; a click
    that changes anything finds the round open and nothing pending. *)
Theorem one_placement_per_turn (w : World) :
  reachable w →
  (timers w = [] ∨ ∃ t, timers w = [t])
  ∧ gameLost (board w) = false
  ∧ (timers w ≠ [] → ∀ x y lobsterTile, clickHexTile w x y lobsterTile = w)
  ∧ (∀ x y lobsterTile,
       clickHexTile w x y lobsterTile ≠ w →
       gameOver (board w) = false ∧ isAnimating (board w) = false
       ∧ isEscaping (board w) = false ∧ timers w = []).
Proof.
  intros HP%reachable_phase. split_and!.
  - by apply phase_timers.
  - by destruct HP as [_ Hf|? ? ? _ _ Hf _ _|? _ Hf _|_ Hf _ _|_ Hf _];
      destruct Hf as (_ & ? & _).
  - intros Hne x y lobsterTile. apply clickHexTile_rejected, not_true_is_false.
    intros Ha. by destruct (phase_accepting _ _ _ HP Ha) as [Hidle _].
  - intros x y lobsterTile Hne.
    destruct (accepted (board w) x y) eqn:Ha;
      [|by rewrite clickHexTile_rejected in Hne].
    by destruct (phase_accepting _ _ _ HP Ha) as [Hidle (? & _ & ? & ?)].
Qed.

Lemma one_placement_per_turn_witness :
  ∃ b0 w,
    newGame1Board sixteenDraws = Some b0
    ∧ runEvents (mkWorld b0 [] 0) [Click 9 9 true; Fire 0 true []] = Some w
    ∧ timers w = [Jump (mkSquare 5 6) false]
    ∧ (timers w = [] ∨ ∃ t, timers w = [t])
    ∧ gameLost (board w) = false
    ∧ (timers w ≠ [] → ∀ x y lobsterTile, clickHexTile w x y lobsterTile = w)
    ∧ (∀ x y lobsterTile,
         clickHexTile w x y lobsterTile ≠ w →
         gameOver (board w) = false ∧ isAnimating (board w) = false
         ∧ isEscaping (board w) = false ∧ timers w = []).
Proof.
  assert (Hnew : ∃ b0, newGame1Board sixteenDraws = Some b0) by (by vm_compute; eexists).
  destruct Hnew as [b0 Hb0].
  assert (Hrun : ∃ w, runEvents (mkWorld b0 [] 0) [Click 9 9 true; Fire 0 true []] = Some w
                      ∧ timers w = [Jump (mkSquare 5 6) false]).
  { vm_compute in Hb0. injection Hb0 as <-. eexists. split; by vm_compute. }
  destruct Hrun as (w & Hrun & Ht).
  exists b0, w. do 3 (split; [done|]).
  apply one_placement_per_turn.
  by apply (reachable_from_new sixteenDraws b0 [Click 9 9 true; Fire 0 true []]).
Defined.

(** X11. The escape is only ever shown with the lobster on the edge of the
    grid: whenever [isEscaping] is set, the lobster's cell is on the edge,
    its heading is one of 0, 180, 270, 90 (the [rotation % 360] branch of
    [triggerEscapeAnimation] is not taken), and the one pending callback is
    the reset that ends the display. *)
Theorem escape_only_on_the_edge (w : World) :
  reachable w → isEscaping (board w) = true →
  onEdge (position (lobster (board w))) (gridWidth (board w)) (gridHeight (board w)) = true
  ∧ rotation (lobster (board w)) ∈ [0; 180; 270; 90]
  ∧ timers w = [EscapeReset]
  ∧ gameOver (board w) = false ∧ isAnimating (board w) = false.
Proof.
  intros HP%reachable_phase Hesc.
  destruct HP as [_ Hf|? ? ? _ _ Hf _ _|? _ Hf _|Ht Hf He Hout|_ Hf _];
    destruct Hf as (? & ? & ? & ?); try congruence.
  by split_and!.
Qed.

Lemma escape_only_on_the_edge_witness :
  ∃ b0 w,
    newGame1Board sixteenDraws = Some b0
    ∧ runEvents (mkWorld b0 [] 0)
                (turnEvents 9 1 true ++ turnEvents 9 2 true ++ turnEvents 9 3 true
                 ++ turnEvents 9 4 true) = Some w
    ∧ isEscaping (board w) = true
    ∧ onEdge (position (lobster (board w))) (gridWidth (board w)) (gridHeight (board w)) = true
    ∧ rotation (lobster (board w)) ∈ [0; 180; 270; 90]
    ∧ timers w = [EscapeReset]
    ∧ gameOver (board w) = false ∧ isAnimating (board w) = false.
Proof.
  assert (Hnew : ∃ b0, newGame1Board sixteenDraws = Some b0) by (by vm_compute; eexists).
  destruct Hnew as [b0 Hb0].
  assert (Hrun : ∃ w, runEvents (mkWorld b0 [] 0)
                        (turnEvents 9 1 true ++ turnEvents 9 2 true ++ turnEvents 9 3 true
                         ++ turnEvents 9 4 true) = Some w
                      ∧ isEscaping (board w) = true).
  { vm_compute in Hb0. injection Hb0 as <-. eexists. split; by vm_compute. }
  destruct Hrun as (w & Hrun & Hesc).
  exists b0, w. do 3 (split; [done|]).
  apply escape_only_on_the_edge; [|done].
  eapply (reachable_from_new sixteenDraws b0); [done | | exact Hrun]. reflexivity.
Defined.

(** X12. [gameOver] is only ever set in a state where the lobster is shut
    in (no escape route with the rocks on the board) or stands on the edge;
    from then on the board ignores every click. *)
Theorem capture_only_when_enclosed (w : World) :
  reachable w → gameOver (board w) = true →
  (onEdge (position (lobster (board w))) (gridWidth (board w)) (gridHeight (board w)) = true
   ∨ ∀ q, escapeRoute (blockedSet (board w)) (boardSquares (board w))
                      (gridWidth (board w)) (gridHeight (board w))
                      (position (lobster (board w))) q = false)
  ∧ isAnimating (board w) = false ∧ isEscaping (board w) = false
  ∧ ∀ x y lobsterTile, clickHexTile w x y lobsterTile = w.
Proof.
  intros HP%reachable_phase Hover.
  assert (Hrej : ∀ x y lobsterTile, clickHexTile w x y lobsterTile = w).
  { intros x y lobsterTile. apply clickHexTile_rejected, accepted_false. tauto. }
  destruct HP as [_ Hf|? ? ? _ _ Hf _ _|? _ Hf _|_ Hf _ _|_ Hf Henc];
    destruct Hf as (? & ? & ? & ?); try congruence.
  by split_and!.
Qed.

Lemma capture_only_when_enclosed_witness :
  ∃ b0 w,
    newGame1Board enclosingDraws = Some b0
    ∧ runEvents (mkWorld b0 [] 0) [Click 9 9 true; Fire 0 true []] = Some w
    ∧ gameOver (board w) = true
    ∧ (onEdge (position (lobster (board w))) (gridWidth (board w)) (gridHeight (board w)) = true
       ∨ ∀ q, escapeRoute (blockedSet (board w)) (boardSquares (board w))
                          (gridWidth (board w)) (gridHeight (board w))
                          (position (lobster (board w))) q = false)
    ∧ isAnimating (board w) = false ∧ isEscaping (board w) = false
    ∧ ∀ x y lobsterTile, clickHexTile w x y lobsterTile = w.
Proof.
  assert (Hnew : ∃ b0, newGame1Board enclosingDraws = Some b0) by (by vm_compute; eexists).
  destruct Hnew as [b0 Hb0].
  assert (Hrun : ∃ w, runEvents (mkWorld b0 [] 0) [Click 9 9 true; Fire 0 true []] = Some w
                      ∧ gameOver (board w) = true).
  { vm_compute in Hb0. injection Hb0 as <-. eexists. split; by vm_compute. }
  destruct Hrun as (w & Hrun & Hover).
  exists b0, w. do 3 (split; [done|]).
  apply capture_only_when_enclosed; [|done].
  eapply (reachable_from_new enclosingDraws b0); [done | | exact Hrun]. reflexivity.
Defined.

(** X13. [totalPoints] only grows by one at a time, through the cairn
    callback of a captured round: every event leaves the points as they
    are, or adds one in a state with [gameOver] set whose one pending
    callback was the cairn's, leaves the board as it is and queues the reset
    of the round. *)
Theorem point_only_for_a_capture (w : World) (e : Event) (w' : World) :
  reachable w → quiet w e → dispatch w e = Some w' →
  totalPoints w' = totalPoints w
  ∨ (totalPoints w' = S (totalPoints w)
     ∧ gameOver (board w) = true
     ∧ timers w = [CairnPoint]
     ∧ timers w' = [CaptureReset]
     ∧ board w' = board w).
Proof.
  intros HP%reachable_phase Hq.
  destruct e as [x y lobsterTile|i dom draws|draws]; simpl.
  - intros [= <-]. left. unfold clickHexTile. destruct (accepted _ _ _); [|done].
    unfold resolveTurn. by destruct (getNextStep _ _ _ _ _) as [[?|] ?].
  - intros (t & Ht & Hrun)%bind_Some.
    destruct (phase_timers _ HP) as [Hnil|(t' & Hone)]; [by rewrite Hnil in Ht|].
    rewrite Hone in Ht, Hrun. destruct i as [|i]; [|by simpl in Ht]. injection Ht as ->.
    destruct t; simpl in Hrun;
      try (left; by first [injection Hrun as <-
                          |apply bind_Some in Hrun as (b' & _ & [= <-])]).
    + left. injection Hrun as <-. unfold triggerEscapeAnimation.
      by destruct escapedIfMove, dom.
    + right. injection Hrun as <-. cbn.
      destruct HP as [? ?|? ? ? ? Hc ? _ _|? ? ? _|? ? _ _|_ Hf _];
        try (rewrite Hone in *; by destruct_or?; simplify_eq).
      by destruct Hf as (? & _).
  - intros (b' & _ & [= <-])%bind_Some. by left.
Qed.

Lemma point_only_for_a_capture_witness :
  ∃ b0 w w',
    newGame1Board enclosingDraws = Some b0
    ∧ runEvents (mkWorld b0 [] 0) [Click 9 9 true; Fire 0 true []; Fire 0 true []] = Some w
    ∧ dispatch w (Fire 0 true []) = Some w'
    ∧ totalPoints w' = 1%nat
    ∧ (totalPoints w' = totalPoints w
       ∨ (totalPoints w' = S (totalPoints w)
          ∧ gameOver (board w) = true
          ∧ timers w = [CairnPoint]
          ∧ timers w' = [CaptureReset]
          ∧ board w' = board w)).
Proof.
  assert (Hnew : ∃ b0, newGame1Board enclosingDraws = Some b0) by (by vm_compute; eexists).
  destruct Hnew as [b0 Hb0].
  assert (Hrun : ∃ w w', runEvents (mkWorld b0 [] 0)
                           [Click 9 9 true; Fire 0 true []; Fire 0 true []] = Some w
                         ∧ dispatch w (Fire 0 true []) = Some w'
                         ∧ totalPoints w' = 1%nat).
  { vm_compute in Hb0. injection Hb0 as <-. do 2 eexists. split_and!; by vm_compute. }
  destruct Hrun as (w & w' & Hrun & Hd & Hpts).
  exists b0, w, w'. do 4 (split; [done|]).
  apply (point_only_for_a_capture w (Fire 0 true [])); [|done|done].
  eapply (reachable_from_new enclosingDraws b0); [done | | exact Hrun]. reflexivity.
Defined.

(** ** Restarting in the middle of a move *)

(** X1. [reset()] does not cancel pending callbacks.  Whenever the jump of
    a move is pending, at any place among the callbacks, and the restart
    handler runs, the round is reset and the jump then still executes
    [this.lobster.position = nextPos] on the new board: the lobster stands
    on [nextPos], the cell resolved before the reset, the rocks are the new
    random ones (they may cover [nextPos]), and [isAnimating] is false
    although the landing callback is still to come. *)
Theorem reset_leaves_pending_jump
        (w : World) (i : nat) (nextPos : HexGridSquare) (e : bool)
        (draws : list nat) (b' : Game1Board) (dom : bool) (later : list nat) :
  timers w !! i = Some (Jump nextPos e) →
  reset (board w) draws = Some b' →
  ∃ w', runEvents w [ResetRound draws; Fire i dom later] = Some w'
        ∧ position (lobster (board w')) = nextPos
        ∧ blockedSet (board w') = blockedSet b'
        ∧ isAnimating (board w') = false
        ∧ timers w' = delete i (timers w) ++ [Land e].
Proof.
  intros Ht Hr. eexists. split.
  - cbn [runEvents dispatch]. rewrite Hr. cbn. rewrite Ht. cbn. reflexivity.
  - cbn. apply reset_fresh in Hr as (picks & HF).
    by destruct (fresh_flags _ _ _ HF) as (_ & _ & ? & _).
Qed.

Lemma reset_leaves_pending_jump_witness :
  ∃ b0 w b',
    newGame1Board sixteenDraws = Some b0
    ∧ runEvents (mkWorld b0 [] 0) [Click 9 9 true; Fire 0 true []] = Some w
    ∧ reset (board w) (56%nat :: sixteenDraws) = Some b'
    ∧ hash (mkSquare 5 6) ∈ blockedSet b'
    ∧ ∃ w', runEvents w [ResetRound (56%nat :: sixteenDraws); Fire 0 true []] = Some w'
            ∧ position (lobster (board w')) = mkSquare 5 6
            ∧ blockedSet (board w') = blockedSet b'
            ∧ isAnimating (board w') = false
            ∧ timers w' = delete 0%nat (timers w) ++ [Land false].
Proof.
  assert (Hnew : ∃ b0, newGame1Board sixteenDraws = Some b0) by (by vm_compute; eexists).
  destruct Hnew as [b0 Hb0].
  assert (Hrun : ∃ w b', runEvents (mkWorld b0 [] 0) [Click 9 9 true; Fire 0 true []] = Some w
                         ∧ reset (board w) (56%nat :: sixteenDraws) = Some b'
                         ∧ setHas (blockedSet b') (5, 6) = true
                         ∧ timers w !! 0%nat = Some (Jump (mkSquare 5 6) false)).
  { vm_compute in Hb0. injection Hb0 as <-. do 2 eexists. split_and!; by vm_compute. }
  destruct Hrun as (w & b' & Hrun & Hr & Hin & Ht).
  exists b0, w, b'. do 3 (split; [done|]).
  split; [by apply bool_decide_eq_true in Hin|].
  by apply (reset_leaves_pending_jump w 0 (mkSquare 5 6) false).
Defined.

(** ** The tutorial boards *)

(** The board of the first two tutorial screens. *)
Definition tutorialBoard : Game1Board :=
  mkBoard ∅ (mkLobster (mkSquare 3 3) 0) false false true false 7 6
          (initializeBoard [] 7 6).

(** Sixteen draws, the first of which is the cell (3,3). *)
Definition drawsWithTutorialCell : list nat :=
  [33; 1; 2; 3; 4; 5; 6; 7; 8; 9; 10; 11; 12; 13; 14; 15]%nat.

Lemma escapeDistance_unique B board w h start n m :
  escapeDistance B board w h start n → escapeDistance B board w h start m → n = m.
Proof.
  intros [(q1 & Hq1 & Hl1) Hmin1] [(q2 & Hq2 & Hl2) Hmin2].
  apply Hmin1 in Hq2. apply Hmin2 in Hq1. lia.
Qed.

Lemma escapeDistance_zero B board w h start :
  escapeDistance B board w h start 0 ↔ onEdge start w h = true.
Proof.
  split.
  - intros [(q & Hq & Hl) _]. destruct q as [|a [|b q]]; try done.
    simpl in Hq. rewrite !andb_true_iff, bool_decide_eq_true in Hq.
    destruct Hq as [[-> _] He]. by rewrite unhash_hash in He.
  - intros He. split.
    + exists [hash start]. by rewrite escapeRoute_start.
    + intros q Hq. destruct q; [done | simpl; lia].
Qed.

Lemma startSlowLobsterAnimation_tick_fields b :
  blockedSet (startSlowLobsterAnimation_tick b) = blockedSet b
  ∧ grid (startSlowLobsterAnimation_tick b) = grid b.
Proof. unfold startSlowLobsterAnimation_tick. by destruct (getNextStep _ _ _ _ _).1. Qed.

Lemma startSlowLobsterAnimation_tick_closer b n :
  escapeDistance (blockedSet b) (boardSquares b) (gridWidth b) (gridHeight b)
                 (position (lobster b)) (S n) →
  escapeDistance (blockedSet b) (boardSquares b) (gridWidth b) (gridHeight b)
                 (position (lobster (startSlowLobsterAnimation_tick b))) n.
Proof.
  intros Hd. unfold startSlowLobsterAnimation_tick.
  destruct (getNextStep _ _ _ _ _) as [[nextPos|] e] eqn:Hstep; cbn [fst].
  - apply getNextStep_closer in Hstep as (_ & _ & n0 & Hd0 & Hd1 & _).
    by pose proof (escapeDistance_unique _ _ _ _ _ _ _ Hd Hd0) as [= ->].
  - exfalso.
    assert (Hnull := proj1 (getNextStep_null_iff (blockedSet b) (boardSquares b)
                              (gridWidth b) (gridHeight b) (position (lobster b)))).
    rewrite Hstep in Hnull. destruct (Hnull eq_refl) as [He|Hno].
    + apply (escapeDistance_zero (blockedSet b) (boardSquares b)) in He.
      by pose proof (escapeDistance_unique _ _ _ _ _ _ _ Hd He).
    + destruct Hd as [(q & Hq & _) _]. by rewrite Hno in Hq.
Qed.

Lemma startSlowLobsterAnimation_tick_stays b :
  (getNextStep (blockedSet b) (boardSquares b) (gridWidth b) (gridHeight b)
               (position (lobster b))).1 = None →
  ∀ k, Nat.iter k startSlowLobsterAnimation_tick b = b.
Proof.
  intros Hnone k. induction k as [|k IH]; [done|]. simpl. rewrite IH.
  unfold startSlowLobsterAnimation_tick. by rewrite Hnone.
Qed.

Lemma startSlowLobsterAnimation_tick_walk n : ∀ b,
  escapeDistance (blockedSet b) (boardSquares b) (gridWidth b) (gridHeight b)
                 (position (lobster b)) n →
  ∀ k, (k ≤ n)%nat →
       escapeDistance (blockedSet b) (boardSquares b) (gridWidth b) (gridHeight b)
                      (position (lobster (Nat.iter k startSlowLobsterAnimation_tick b))) (n - k).
Proof.
  induction n as [|n IH]; intros b Hd k Hk.
  - assert (k = 0%nat) as -> by lia. done.
  - destruct k as [|k]; [done|]. rewrite Nat.iter_succ_r.
    pose proof (startSlowLobsterAnimation_tick_closer b n Hd) as Hd'.
    destruct (startSlowLobsterAnimation_tick_fields b) as [HB (Hw & Hh & Hb)%grid_fields].
    specialize (IH (startSlowLobsterAnimation_tick b)). rewrite HB, Hw, Hh, Hb in IH.
    apply IH; [done | lia].
Qed.

(** X18. The tutorial animation walks the lobster to the edge and stops:
    if the edge is n moves away, then after k <= n ticks it is n - k moves
    away, after n ticks the lobster is on the edge, and further ticks change
    nothing. *)
Theorem slow_lobster_walks_to_the_edge (b : Game1Board) (n : nat) :
  escapeDistance (blockedSet b) (boardSquares b) (gridWidth b) (gridHeight b)
                 (position (lobster b)) n →
  (∀ k, (k ≤ n)%nat →
        escapeDistance (blockedSet b) (boardSquares b) (gridWidth b) (gridHeight b)
                       (position (lobster (Nat.iter k startSlowLobsterAnimation_tick b))) (n - k))
  ∧ onEdge (position (lobster (Nat.iter n startSlowLobsterAnimation_tick b)))
           (gridWidth b) (gridHeight b) = true
  ∧ ∀ k, Nat.iter (n + k) startSlowLobsterAnimation_tick b = Nat.iter n startSlowLobsterAnimation_tick b.
Proof.
  intros Hd. pose proof (startSlowLobsterAnimation_tick_walk n b Hd) as Hwalk.
  assert (He : onEdge (position (lobster (Nat.iter n startSlowLobsterAnimation_tick b)))
                      (gridWidth b) (gridHeight b) = true).
  { apply (escapeDistance_zero (blockedSet b) (boardSquares b)).
    specialize (Hwalk n (le_n n)). by rewrite Nat.sub_diag in Hwalk. }
  split_and!; [done..|].
  intros k. rewrite Nat.add_comm, Nat.iter_add.
  apply startSlowLobsterAnimation_tick_stays, getNextStep_null_iff. left.
  assert (Hsame : ∀ j, blockedSet (Nat.iter j startSlowLobsterAnimation_tick b) = blockedSet b
                       ∧ grid (Nat.iter j startSlowLobsterAnimation_tick b) = grid b).
  { induction j as [|j [IH1 IH2]]; [done|]. simpl.
    destruct (startSlowLobsterAnimation_tick_fields (Nat.iter j startSlowLobsterAnimation_tick b)) as [-> ->]. done. }
  destruct (Hsame n) as [_ (-> & -> & _)%grid_fields]. done.
Qed.

Lemma slow_lobster_walks_to_the_edge_witness :
  (∀ k, (k ≤ 2)%nat →
        escapeDistance (blockedSet tutorialBoard) (boardSquares tutorialBoard)
                       (gridWidth tutorialBoard) (gridHeight tutorialBoard)
                       (position (lobster (Nat.iter k startSlowLobsterAnimation_tick tutorialBoard))) (2 - k))
  ∧ onEdge (position (lobster (Nat.iter 2 startSlowLobsterAnimation_tick tutorialBoard)))
           (gridWidth tutorialBoard) (gridHeight tutorialBoard) = true
  ∧ ∀ k, Nat.iter (2 + k) startSlowLobsterAnimation_tick tutorialBoard
         = Nat.iter 2 startSlowLobsterAnimation_tick tutorialBoard.
Proof.
  apply slow_lobster_walks_to_the_edge.
  destruct (run_distance ∅ (initializeBoard [] 7 6) 7 6 (mkSquare 3 3)
              [mkSquare 3 3; mkSquare 3 4; mkSquare 2 5]) as (_ & n & Hlen & Hd).
  { vm_compute. reflexivity. }
  injection Hlen as <-. exact Hd.
Defined.

(** The first two tutorial screens always show the same board, and on it
    the lobster walks (3,3), (3,4), (2,5). *)
Lemma renderGame1Tutorial_Step1_board draws b :
  renderGame1Tutorial_Step1 draws = Some b → b = tutorialBoard.
Proof.
  unfold renderGame1Tutorial_Step1.
  intros (b0 & (picks & HF)%newGame1Board_fresh & [= <-])%bind_Some.
  destruct (fresh_flags _ _ _ HF) as (Hover & Hlost & _ & Hesc).
  unfold tutorialGrid, spawnLobster, spawnSquare, withLobster, withBlockedSet, tutorialBoard.
  cbn [blockedSet lobster gameOver gameLost isAnimating isEscaping
       gridWidth gridHeight boardSquares].
  rewrite Hover, Hlost, Hesc. reflexivity.
Qed.

Example tutorial_lobster_walk :
  position (lobster (Nat.iter 1 startSlowLobsterAnimation_tick tutorialBoard)) = mkSquare 3 4
  ∧ lobster (Nat.iter 2 startSlowLobsterAnimation_tick tutorialBoard) = mkLobster (mkSquare 2 5) 210.
Proof. split; by vm_compute. Qed.

(** X19. [renderGame1Tutorial_Step3] keeps the random rocks the
    constructor drew for the 11 by 10 board: the obstacle set of the 7 by 6
    tutorial board is those rocks and the four fixed ones, and the lobster,
    respawned at (3,3), is free of rocks exactly when (3,3) was not
    drawn. *)
Theorem tutorial_step3_keeps_the_random_rocks (draws : list nat) (b0 : Game1Board) :
  newGame1Board draws = Some b0 →
  ∃ b, renderGame1Tutorial_Step3 draws = Some b
       ∧ blockedSet b = {[ (2, 1); (3, 1); (4, 1); (5, 2) ]} ∪ blockedSet b0
       ∧ position (lobster b) = mkSquare 3 3
       ∧ gridWidth b = 7 ∧ gridHeight b = 6
       ∧ boardSquares b = initializeBoard [] 7 6
       ∧ (lobsterFree b ↔ (3, 3) ∉ blockedSet b0).
Proof.
  intros Hnew. unfold renderGame1Tutorial_Step3. rewrite Hnew.
  eexists. split; [reflexivity|].
  unfold lobsterFree, tutorialGrid, spawnLobster, spawnSquare, withLobster, withBlockedSet.
  cbn [blockedSet lobster position gridWidth gridHeight boardSquares hash sq_x sq_y].
  change (7 / 2) with 3. change (6 / 2) with 3.
  split; [apply set_eq; intros k; rewrite !elem_of_union, !elem_of_singleton; tauto|].
  do 4 (split; [reflexivity|]). cbn [hash sq_x sq_y].
  rewrite !not_elem_of_union, !not_elem_of_singleton. split; [tauto|].
  intros Hfree. by split_and!.
Qed.

Lemma tutorial_step3_keeps_the_random_rocks_witness :
  ∃ b0 b,
    newGame1Board drawsWithTutorialCell = Some b0
    ∧ (3, 3) ∈ blockedSet b0
    ∧ renderGame1Tutorial_Step3 drawsWithTutorialCell = Some b
    ∧ blockedSet b = {[ (2, 1); (3, 1); (4, 1); (5, 2) ]} ∪ blockedSet b0
    ∧ position (lobster b) = mkSquare 3 3
    ∧ gridWidth b = 7 ∧ gridHeight b = 6
    ∧ boardSquares b = initializeBoard [] 7 6
    ∧ (lobsterFree b ↔ (3, 3) ∉ blockedSet b0).
Proof.
  assert (Hnew : ∃ b0, newGame1Board drawsWithTutorialCell = Some b0
                       ∧ setHas (blockedSet b0) (3, 3) = true)
    by (by vm_compute; eexists).
  destruct Hnew as (b0 & Hb0 & Hin). apply bool_decide_eq_true in Hin.
  destruct (tutorial_step3_keeps_the_random_rocks drawsWithTutorialCell b0 Hb0)
    as (b & Hb).
  exists b0, b. do 2 (split; [done|]). exact Hb.
Defined.

(** ** The lobster-only tutorial board *)

Lemma renderTutorialOnlyLobster_elem b x y :
  (x, y) ∈ renderTutorialOnlyLobster b ↔ 0 ≤ x < gridHeight b ∧ 0 ≤ y < gridHeight b.
Proof.
  unfold renderTutorialOnlyLobster. rewrite list_elem_of_bind. split.
  - intros (y' & (x' & Hk & Hx%elem_of_seqZ)%list_elem_of_bind & Hy%elem_of_seqZ).
    apply list_elem_of_singleton in Hk as [= -> ->]. lia.
  - intros [Hx Hy]. exists y. split; [|apply elem_of_seqZ; lia].
    apply list_elem_of_bind. exists x. split; [by apply list_elem_of_singleton|].
    apply elem_of_seqZ. lia.
Qed.

(** X26. [renderTutorialOnlyLobster] draws a square of tiles: its inner
    loop is bounded by [gridHeight], so the tiles are the (x, y) with both
    coordinates below [gridHeight], and the lobster is drawn exactly when
    its cell is one of those.  On the 7 by 6 tutorial board the cells of
    column 6 are not drawn; the lobster of the tutorial animation is drawn
    at every tick all the same. *)
Theorem renderTutorialOnlyLobster_draws_a_square (b : Game1Board) :
  (∀ x y, (x, y) ∈ renderTutorialOnlyLobster b ↔
          0 ≤ x < gridHeight b ∧ 0 ≤ y < gridHeight b)
  ∧ (lobsterDrawn b = true ↔
     0 ≤ sq_x (position (lobster b)) < gridHeight b
     ∧ 0 ≤ sq_y (position (lobster b)) < gridHeight b)
  ∧ (∀ y, 0 ≤ y < 6 →
          (6, y) ∈ boardSquares tutorialBoard ∧ (6, y) ∉ renderTutorialOnlyLobster tutorialBoard)
  ∧ (∀ k, lobsterDrawn (Nat.iter k startSlowLobsterAnimation_tick tutorialBoard) = true).
Proof.
  split_and!.
  - apply renderTutorialOnlyLobster_elem.
  - unfold lobsterDrawn. rewrite bool_decide_eq_true. apply renderTutorialOnlyLobster_elem.
  - intros y Hy. split.
    + unfold tutorialBoard. cbn [boardSquares]. rewrite initializeBoard_gridCells.
      apply gridCells_elem. lia.
    + rewrite renderTutorialOnlyLobster_elem. cbn. lia.
  - intros k.
    assert (Hstay : ∀ j, Nat.iter j startSlowLobsterAnimation_tick
                           (Nat.iter 2 startSlowLobsterAnimation_tick tutorialBoard)
                         = Nat.iter 2 startSlowLobsterAnimation_tick tutorialBoard).
    { apply startSlowLobsterAnimation_tick_stays. vm_compute. reflexivity. }
    destruct k as [|[|k]]; [by vm_compute..|].
    replace (S (S k)) with (k + 2)%nat by lia. rewrite Nat.iter_add, Hstay.
    by vm_compute.
Qed.

(** ** The round timer *)

Lemma runClock_snoc c es e :
  runClock c (es ++ [e]) = runClock c es ≫= λ c', clockStep c' e.
Proof.
  revert c. induction es as [|e' es IH]; intros c; simpl.
  - by destruct (clockStep c e).
  - destruct (clockStep c e') as [c1|]; simpl; [apply IH | done].
Qed.

Lemma runClock_app c es1 es2 :
  runClock c (es1 ++ es2) = runClock c es1 ≫= λ c', runClock c' es2.
Proof.
  revert c. induction es1 as [|e es1 IH]; intros c; simpl; [done|].
  destruct (clockStep c e) as [c1|]; simpl; [apply IH | done].
Qed.

Lemma countdown_ticks c (ss : list bool) :
  (length ss < 300)%nat →
  runClock (startGame1Timer c) (Tick <$> ss)
  = Some (mkCountdown (300 - Z.of_nat (length ss)) true (switches c)).
Proof.
  induction ss as [|a ss IH] using rev_ind; intros Hk; [done|].
  rewrite length_app in Hk. simpl in Hk.
  rewrite fmap_app. change (Tick <$> [a]) with [Tick a].
  rewrite runClock_snoc, IH by lia. cbn.
  unfold startGame1Timer_tick. cbn.
  destruct (Z.leb_spec (300 - Z.of_nat (length ss) - 1) 0); [lia|].
  rewrite length_app. simpl. do 2 f_equal. lia.
Qed.

Lemma countdown_last_tick c (ss : list bool) (audio : bool) :
  length ss = 299%nat →
  runClock (startGame1Timer c) (Tick <$> ss ++ [audio])
  = Some (mkCountdown 0 false (if audio then S (switches c) else switches c)).
Proof.
  intros Hk. rewrite fmap_app. change (Tick <$> [audio]) with [Tick audio].
  rewrite runClock_snoc, countdown_ticks by lia. cbn.
  unfold startGame1Timer_tick. cbn. rewrite Hk. by destruct audio.
Qed.

Lemma countdown_no_more_ticks c (ss : list bool) :
  (300 < length ss)%nat → runClock (startGame1Timer c) (Tick <$> ss) = None.
Proof.
  intros Hk.
  assert (Hsplit : ∃ l a a' l', ss = (l ++ [a]) ++ a' :: l' ∧ length l = 299%nat).
  { exists (take 299 ss). pose proof (take_drop 299 ss) as Htd.
    pose proof (length_drop ss 299) as Hd.
    destruct (drop 299 ss) as [|a [|a' l']]; simpl in Hd; [lia..|].
    exists a, a', l'. split; [by rewrite <- app_assoc | rewrite length_take; lia]. }
  destruct Hsplit as (l & a & a' & l' & -> & Hl).
  rewrite fmap_app, runClock_app, countdown_last_tick by done. done.
Qed.

Lemma countdown_step c e c' :
  0 ≤ timeRemaining c ≤ 300 ∧ (gameTimer c = true → 0 < timeRemaining c) →
  clockStep c e = Some c' →
  0 ≤ timeRemaining c' ≤ 300 ∧ (gameTimer c' = true → 0 < timeRemaining c').
Proof.
  intros [Hr Hpos]. destruct e as [|audio|audio]; simpl.
  - intros [= <-]. simpl. lia.
  - destruct (gameTimer c) eqn:Hg; [|done]. intros [= <-].
    unfold startGame1Timer_tick. specialize (Hpos eq_refl).
    destruct (Z.leb_spec (timeRemaining c - 1) 0); [|simpl; lia].
    destruct audio; simpl; (split; [lia | done]).
  - intros [= <-]. destruct audio; simpl; (split; [lia | done]).
Qed.

(** X24. The round timer: from [startGame1Timer()], after fewer than 300
    ticks the interval is still set, [timeRemaining] is 300 less their
    number and nothing has been queued; the 300th tick brings it to 0,
    clears the interval, and queues one switch to the second game if
    [playTimerEndSoundEffect()] returns and none if it throws; there is no
    301st tick; and whatever is pressed, [timeRemaining] stays between 0 and
    300 and is positive while the interval is set. *)
Theorem countdown_stops_at_zero (c : Countdown) :
  (∀ ss : list bool, (length ss < 300)%nat →
     runClock (startGame1Timer c) (Tick <$> ss)
     = Some (mkCountdown (300 - Z.of_nat (length ss)) true (switches c)))
  ∧ (∀ (ss : list bool) (audio : bool), length ss = 299%nat →
       runClock (startGame1Timer c) (Tick <$> ss ++ [audio])
       = Some (mkCountdown 0 false (if audio then S (switches c) else switches c)))
  ∧ (∀ ss : list bool, (300 < length ss)%nat →
       runClock (startGame1Timer c) (Tick <$> ss) = None)
  ∧ (∀ es c', runClock (startGame1Timer c) es = Some c' →
              0 ≤ timeRemaining c' ≤ 300 ∧ (gameTimer c' = true → 0 < timeRemaining c')).
Proof.
  split_and!.
  - apply countdown_ticks.
  - apply countdown_last_tick.
  - apply countdown_no_more_ticks.
  - intros es.
    assert (Hgen : ∀ c0 c', 0 ≤ timeRemaining c0 ≤ 300
                            ∧ (gameTimer c0 = true → 0 < timeRemaining c0) →
                            runClock c0 es = Some c' →
                            0 ≤ timeRemaining c' ≤ 300
                            ∧ (gameTimer c' = true → 0 < timeRemaining c')).
    { induction es as [|e es IH]; intros c0 c' H0; simpl; [by intros [= <-]|].
      intros (c1 & Hs & Hrun)%bind_Some. apply (IH c1); [|done].
      by apply (countdown_step c0 e). }
    intros c'. apply Hgen. simpl. lia.
Qed.

(** ** The card game *)

Module Game2Facts.

Import Game2.

Local Open Scope nat_scope.

Record Inv (g : CardMatchingGame) : Prop := {
  inv_nodup : NoDup (flipped g);
  inv_two : length (flipped g) ≤ 2;
  inv_idle : isProcessing g = false → length (flipped g) ≤ 1;
  inv_valid : ∀ i, i ∈ flipped g → i < length (cards g);
  inv_apart : ∀ i, i ∈ flipped g → i ∉ matched g;
  inv_pairs : ∀ i, i ∈ matched g →
                   ∃ j c, j ∈ matched g ∧ j ≠ i
                          ∧ cards g !! i = Some c ∧ cards g !! j = Some c;
  inv_attempts : size (matched g) ≤ 2 * attempts g
}.

Lemma size_add_le (i : nat) (M : gset nat) : size ({[ i ]} ∪ M) ≤ S (size M).
Proof.
  rewrite size_union_alt, size_singleton.
  pose proof (subseteq_size (M ∖ {[ i ]}) M (subseteq_difference_l _ _ _ (reflexivity _))).
  lia.
Qed.

Local Ltac inv_cleared :=
  split; cbn;
  first [done | lia | constructor
        | by intros i Hi; apply elem_of_nil in Hi
        | rewrite size_empty; lia].

Lemma inv_new shuffled : Inv (game (renderGame2_Main shuffled)).
Proof. inv_cleared. Qed.

Lemma inv_reset g shuffled : Inv (render (reset g) shuffled).
Proof. inv_cleared. Qed.

Lemma inv_runTimer w t dom : Inv (game w) → Inv (game (runTimer w t dom)).
Proof.
  intros [Hnd Htwo Hidle Hvalid Hapart Hpairs Hatt].
  destruct t; [destruct dom|]; split; cbn;
    first [done | lia | constructor | by intros i Hi; apply elem_of_nil in Hi].
Qed.

Lemma checkMatch_cards w w' :
  checkMatch w = Some w' → cards (game w') = cards (game w).
Proof.
  unfold checkMatch. destruct (flipped (game w)) as [|index1 [|index2 ?]]; try done.
  destruct (cards (game w) !! index1) as [card1|]; [|done].
  destruct (cards (game w) !! index2) as [card2|]; [|done]. cbn.
  repeat case_bool_decide; by intros [= <-].
Qed.

Lemma flipCard_cards w index w' :
  flipCard w index = Some w' → cards (game w') = cards (game w).
Proof.
  unfold flipCard. destruct (_ || _); [by intros [= <-]|].
  case_bool_decide; [|by intros [= <-]].
  by intros ->%checkMatch_cards.
Qed.

Lemma inv_flipCard w index w' :
  Inv (game w) → index < length (cards (game w)) → flipCard w index = Some w' →
  Inv (game w').
Proof.
  intros HI Hindex. pose proof HI as [Hnd Htwo Hidle Hvalid Hapart Hpairs Hatt].
  unfold flipCard.
  destruct (isProcessing (game w)) eqn:Hproc; [by intros [= <-]|].
  case_bool_decide as Hfl; [by intros [= <-]|].
  case_bool_decide as Hma; [by intros [= <-]|].
  cbn [orb]. specialize (Hidle eq_refl).
  assert (Hnd' : NoDup (flipped (game w) ++ [index])).
  { apply NoDup_app. split_and!; [done| |apply NoDup_singleton].
    intros i Hi ->%list_elem_of_singleton. done. }
  assert (Hvalid' : ∀ i, i ∈ flipped (game w) ++ [index] → i < length (cards (game w))).
  { intros i [Hi| ->%list_elem_of_singleton]%elem_of_app; [by apply Hvalid | done]. }
  assert (Hapart' : ∀ i, i ∈ flipped (game w) ++ [index] → i ∉ matched (game w)).
  { intros i [Hi| ->%list_elem_of_singleton]%elem_of_app; [by apply Hapart | done]. }
  case_bool_decide as Hlen.
  - destruct (flipped (game w)) as [|index1 [|? ?]] eqn:Hf; simpl in Hlen, Hidle; try lia.
    unfold checkMatch. cbn.
    destruct (cards (game w) !! index1) as [card1|] eqn:Hc1; [|done].
    destruct (cards (game w) !! index) as [card2|] eqn:Hc2; [|done]. cbn.
    assert (Hne : index1 ≠ index).
    { intros ->. apply Hfl. by left. }
    case_bool_decide as Heq.
    + subst card2. intros [= <-].
      assert (HI' : Inv (mkGame (cards (game w)) []
                                ({[ index ]} ∪ ({[ index1 ]} ∪ matched (game w)))
                                (S (attempts (game w))) false)).
      { split; cbn; try done; try lia.
        - constructor.
        - intros i Hi. by apply elem_of_nil in Hi.
        - intros i Hi. by apply elem_of_nil in Hi.
        - intros i. rewrite !elem_of_union, !elem_of_singleton.
          intros [->|[->|Hi]].
          + exists index1, card1. rewrite !elem_of_union, !elem_of_singleton. auto.
          + exists index, card1. rewrite !elem_of_union, !elem_of_singleton. auto.
          + destruct (Hpairs i Hi) as (j & c & Hj & Hji & Hci & Hcj).
            exists j, c. rewrite !elem_of_union, !elem_of_singleton. auto.
        - pose proof (size_add_le index ({[ index1 ]} ∪ matched (game w))).
          pose proof (size_add_le index1 (matched (game w))). lia. }
      by case_bool_decide.
    + intros [= <-]. split; cbn; try done; try lia.
  - intros [= <-]. split; cbn; try done.
    + rewrite length_app in *. simpl in *. lia.
    + intros _. rewrite length_app in *. simpl in *. lia.
Qed.

Lemma inv_dispatch n w e w' :
  Inv (game w) → length (cards (game w)) = n → deliverable n e = true →
  dispatch w e = Some w' → Inv (game w') ∧ length (cards (game w')) = n.
Proof.
  intros HI Hn He. destruct e as [index|i dom|shuffled]; simpl in *.
  - apply bool_decide_eq_true in He. intros Hf. split.
    + apply (inv_flipCard w index); [done | lia | done].
    + by rewrite (flipCard_cards _ _ _ Hf).
  - intros (t & _ & [= <-])%bind_Some. split; [by apply inv_runTimer|].
    by destruct t, dom.
  - apply bool_decide_eq_true in He. intros [= <-]. split; [apply inv_reset | done].
Qed.

Lemma inv_runEvents n es : ∀ w w',
  Inv (game w) → length (cards (game w)) = n → forallb (deliverable n) es = true →
  runEvents w es = Some w' → Inv (game w') ∧ length (cards (game w')) = n.
Proof.
  induction es as [|e es IH]; intros w w' HI Hn Hes; simpl; [by intros [= <-]|].
  simpl in Hes. apply andb_true_iff in Hes as [He Hes].
  intros (w1 & Hd & Hrun)%bind_Some.
  destruct (inv_dispatch n w e w1 HI Hn He Hd) as [HI1 Hn1]. by apply (IH w1).
Qed.

(** X20. Whatever the shuffle and whatever is clicked, cards are recorded
    as matched in pairs of the same name: every matched card has a matched
    partner, another card, with the same name.  At most two cards are face
    up, they are different cards, at most one when no comparison is being
    shown, none of them is matched, and [attempts] is at least the number of
    matched pairs. *)
Theorem matched_cards_are_pairs
        (shuffled : list CardName) (es : list Event) (w : World) :
  forallb (deliverable (length shuffled)) es = true →
  runEvents (renderGame2_Main shuffled) es = Some w →
  (∀ i, i ∈ matched (game w) →
        ∃ j c, j ∈ matched (game w) ∧ j ≠ i
               ∧ cards (game w) !! i = Some c ∧ cards (game w) !! j = Some c)
  ∧ NoDup (flipped (game w))
  ∧ length (flipped (game w)) ≤ 2
  ∧ (isProcessing (game w) = false → length (flipped (game w)) ≤ 1)
  ∧ (∀ i, i ∈ flipped (game w) → i ∉ matched (game w))
  ∧ size (matched (game w)) ≤ 2 * attempts (game w).
Proof.
  intros Hes Hrun.
  destruct (inv_runEvents (length shuffled) es (renderGame2_Main shuffled) w
              (inv_new shuffled) eq_refl Hes Hrun) as [[? ? ? ? ? ? ?] _].
  by split_and!.
Qed.


Lemma matched_cards_are_pairs_witness :
  ∃ w, runEvents (renderGame2_Main (cardImages ++ cardImages))
                 [Flip 0; Flip 6; Flip 1; Flip 2; Fire 0 true; Flip 2] = Some w
       ∧ matched (game w) = {[ 0; 6 ]} ∧ flipped (game w) = [2]
       ∧ attempts (game w) = 2
       ∧ (∀ i, i ∈ matched (game w) →
               ∃ j c, j ∈ matched (game w) ∧ j ≠ i
                      ∧ cards (game w) !! i = Some c ∧ cards (game w) !! j = Some c)
       ∧ NoDup (flipped (game w))
       ∧ length (flipped (game w)) ≤ 2
       ∧ (isProcessing (game w) = false → length (flipped (game w)) ≤ 1)
       ∧ (∀ i, i ∈ flipped (game w) → i ∉ matched (game w))
       ∧ size (matched (game w)) ≤ 2 * attempts (game w).
Proof.
  eexists. split; [by vm_compute|]. do 3 (split; [by vm_compute|]).
  apply (matched_cards_are_pairs (cardImages ++ cardImages)
           [Flip 0; Flip 6; Flip 1; Flip 2; Fire 0 true; Flip 2]); by vm_compute.
Defined.

(** X21. [flipCard] never throws on a card of the page: after any run of
    clicks on cards, callbacks and [resetGame2Board()] calls, a click on
    any of the cards is handled ([checkMatch] finds both cards it
    compares). *)
Theorem flipCard_never_throws
        (shuffled : list CardName) (es : list Event) (w : World) (index : nat) :
  forallb (deliverable (length shuffled)) es = true →
  runEvents (renderGame2_Main shuffled) es = Some w →
  index < length shuffled →
  is_Some (flipCard w index).
Proof.
  intros Hes Hrun Hindex.
  destruct (inv_runEvents (length shuffled) es (renderGame2_Main shuffled) w
              (inv_new shuffled) eq_refl Hes Hrun) as [[_ _ Hidle Hvalid _ _ _] Hn].
  unfold flipCard. destruct (isProcessing (game w)) eqn:Hproc; [by eexists|].
  case_bool_decide as Hfl; [by eexists|]. case_bool_decide as Hma; [by eexists|].
  cbn [orb]. specialize (Hidle eq_refl).
  case_bool_decide as Hlen; [|by eexists].
  destruct (flipped (game w)) as [|index1 [|? ?]] eqn:Hf; simpl in Hlen, Hidle; try lia.
  unfold checkMatch. cbn.
  destruct (lookup_lt_is_Some_2 (cards (game w)) index1) as [card1 ->].
  { apply Hvalid. by left. }
  destruct (lookup_lt_is_Some_2 (cards (game w)) index) as [card2 ->]; [lia|].
  cbn. by case_bool_decide.
Qed.

Lemma flipCard_never_throws_witness :
  ∃ w, runEvents (renderGame2_Main (cardImages ++ cardImages)) [Flip 0] = Some w
       ∧ is_Some (flipCard w 11).
Proof.
  eexists. split; [by vm_compute|].
  apply (flipCard_never_throws (cardImages ++ cardImages) [Flip 0]); by vm_compute.
Defined.


Lemma played_deliverable n e : played n e = true → deliverable n e = true.
Proof. by destruct e. Qed.

Lemma matched_bound g : Inv g → size (matched g) ≤ length (cards g).
Proof.
  intros HI. rewrite <- (size_set_seq (C := gset nat) 0 (length (cards g))).
  apply subseteq_size. intros i Hi. apply elem_of_set_seq.
  destruct (inv_pairs _ HI i Hi) as (_ & c & _ & _ & Hc%lookup_lt_Some & _). lia.
Qed.

Lemma matched_all g :
  Inv g → size (matched g) = length (cards g) → ∀ i, i < length (cards g) → i ∈ matched g.
Proof.
  intros HI Hsize i Hi.
  assert (Heq : matched g = set_seq 0 (length (cards g))).
  { apply set_subseteq_size_eq.
    - intros k Hk. apply elem_of_set_seq.
      destruct (inv_pairs _ HI k Hk) as (_ & c & _ & _ & Hc%lookup_lt_Some & _). lia.
    - rewrite size_set_seq. lia. }
  rewrite Heq. apply elem_of_set_seq. lia.
Qed.

Record Course (w : World) : Prop := {
  course_inv : Inv (game w);
  course_done : finished w ↔ size (matched (game w)) = length (cards (game w))
}.

Lemma course_flipCard w index w' :
  Course w → index < length (cards (game w)) → flipCard w index = Some w' → Course w'.
Proof.
  intros [HI Hdone] Hindex Hflip.
  pose proof (inv_flipCard _ _ _ HI Hindex Hflip) as HI'.
  split; [done|]. revert Hflip HI'. unfold flipCard.
  destruct (isProcessing (game w)) eqn:Hproc; [by intros [= <-]|].
  case_bool_decide as Hfl; [by intros [= <-]|].
  case_bool_decide as Hma; [by intros [= <-]|].
  cbn [orb]. pose proof (inv_idle _ HI Hproc) as Hidle.
  case_bool_decide as Hlen; [|by intros [= <-]].
  destruct (flipped (game w)) as [|index1 [|? ?]] eqn:Hf; simpl in Hlen, Hidle; try lia.
  unfold checkMatch. cbn.
  destruct (cards (game w) !! index1) as [card1|]; [|done].
  destruct (cards (game w) !! index) as [card2|]; [|done]. cbn.
  assert (Hne : index1 ≠ index) by (intros ->; apply Hfl; by left).
  assert (H1 : index1 ∉ matched (game w)).
  { apply (inv_apart _ HI). rewrite Hf. by left. }
  assert (Hsize : size ({[ index ]} ∪ ({[ index1 ]} ∪ matched (game w)))
                  = S (S (size (matched (game w))))).
  { rewrite size_union, size_singleton.
    - rewrite size_union, size_singleton; [done|].
      by apply disjoint_singleton_l.
    - apply disjoint_singleton_l.
      rewrite not_elem_of_union, not_elem_of_singleton. by split. }
  case_bool_decide as Heq.
  - case_bool_decide as Hfull; intros [= <-] HI'; cbn in *.
    + split; [done|]. intros _. left. apply elem_of_app. right. by left.
    + unfold finished. cbn. rewrite Hdone. split; [|done]. intros Hold.
      pose proof (matched_bound _ HI') as Hb. cbn in Hb. lia.
  - intros [= <-] _. unfold finished in *. cbn. rewrite <- Hdone.
    rewrite elem_of_app, list_elem_of_singleton. split; [|tauto].
    intros [[?|?]|?]; [tauto | done | tauto].
Qed.

Lemma elem_of_delete_other (l : list Timer) i t x :
  l !! i = Some t → x ≠ t → x ∈ delete i l ↔ x ∈ l.
Proof.
  intros Hi Hne. rewrite (delete_Permutation l i t Hi) at 2.
  rewrite elem_of_cons. tauto.
Qed.

Lemma course_fire w i t dom :
  Course w → timers w !! i = Some t →
  Course (runTimer (mkWorld (game w) (delete i (timers w)) (results w)) t dom).
Proof.
  intros [HI Hdone] Ht. split; [by apply (inv_runTimer (mkWorld _ _ _))|].
  unfold finished in *. destruct t as [index1 index2|].
  - assert (Hsame : ShowResults ∈ delete i (timers w) ↔ ShowResults ∈ timers w)
      by (by eapply elem_of_delete_other).
    destruct dom; cbn; by rewrite Hsame.
  - cbn. split; [|by right]. intros _. apply Hdone. left.
    by apply list_elem_of_lookup_2 in Ht.
Qed.

Lemma course_runEvents n es : ∀ w w',
  Course w → length (cards (game w)) = n → forallb (played n) es = true →
  runEvents w es = Some w' → Course w' ∧ length (cards (game w')) = n.
Proof.
  induction es as [|e es IH]; intros w w' HC Hn Hes; simpl; [by intros [= <-]|].
  simpl in Hes. apply andb_true_iff in Hes as [He Hes].
  intros (w1 & Hd & Hrun)%bind_Some. apply (IH w1); [| |done..].
  - destruct e as [index|i dom|shuffled]; simpl in *; [|..|done].
    + apply bool_decide_eq_true in He. apply (course_flipCard w index); [done|lia|done].
    + apply bind_Some in Hd as (t & Ht & [= <-]). by apply course_fire.
  - destruct (inv_dispatch n w e w1 (course_inv _ HC) Hn (played_deliverable _ _ He) Hd).
    done.
Qed.

(** X22. Without [resetGame2Board()], the results screen is asked for
    exactly when every card is matched: the callback of [gameComplete] is
    pending or has run if and only if all the cards are in [matched]; by
    then [attempts] is at least half the number of cards. *)
Theorem results_exactly_when_all_matched
        (shuffled : list CardName) (es : list Event) (w : World) :
  0 < length shuffled →
  forallb (played (length shuffled)) es = true →
  runEvents (renderGame2_Main shuffled) es = Some w →
  (finished w ↔ ∀ i, i < length shuffled → i ∈ matched (game w))
  ∧ (finished w → length shuffled ≤ 2 * attempts (game w)).
Proof.
  intros Hpos Hes Hrun.
  assert (HC0 : Course (renderGame2_Main shuffled)).
  { split; [apply inv_new|]. unfold finished. cbn. rewrite size_empty. split.
    - intros [Hin|Hr]; [by apply elem_of_nil in Hin | done].
    - lia. }
  destruct (course_runEvents (length shuffled) es _ w HC0 eq_refl Hes Hrun)
    as [[HI Hdone] Hn].
  split.
  - rewrite Hdone, <- Hn. split; [by apply matched_all|].
    intros Hall. apply Nat.le_antisymm; [by apply matched_bound|].
    rewrite <- (size_set_seq (C := gset nat) 0 (length (cards (game w)))).
    apply subseteq_size. intros i Hi%elem_of_set_seq. apply Hall. lia.
  - intros Hf%Hdone. pose proof (inv_attempts _ HI). lia.
Qed.

Lemma results_exactly_when_all_matched_witness :
  ∃ w, runEvents (renderGame2_Main (cardImages ++ cardImages))
                 [Flip 0; Flip 6; Flip 1; Flip 7; Flip 2; Flip 8;
                  Flip 3; Flip 9; Flip 4; Flip 10; Flip 5; Flip 11] = Some w
       ∧ timers w = [ShowResults] ∧ attempts (game w) = 6
       ∧ (finished w ↔ ∀ i, i < length (cardImages ++ cardImages) → i ∈ matched (game w))
       ∧ (finished w → length (cardImages ++ cardImages) ≤ 2 * attempts (game w)).
Proof.
  eexists. split; [by vm_compute|]. do 2 (split; [by vm_compute|]).
  apply (results_exactly_when_all_matched (cardImages ++ cardImages)
           [Flip 0; Flip 6; Flip 1; Flip 7; Flip 2; Flip 8;
            Flip 3; Flip 9; Flip 4; Flip 10; Flip 5; Flip 11]);
    [simpl; lia | by vm_compute..].
Defined.

Lemma smooth_played n e : smooth n e = true → played n e = true.
Proof. by destruct e. Qed.

(** *** Every card has one partner *)

Fixpoint places (c : CardName) (l : list CardName) : list nat :=
  match l with
  | [] => []
  | x :: l' => (if decide (x = c) then [0] else []) ++ (S <$> places c l')
  end.

Lemma places_spec c l k : k ∈ places c l ↔ l !! k = Some c.
Proof.
  revert k. induction l as [|x l IH]; intros k; simpl.
  - split; [by intros ?%elem_of_nil | done].
  - rewrite elem_of_app, list_elem_of_fmap. split.
    + intros [Hk|(k' & -> & Hk')].
      * destruct (decide (x = c)) as [->|]; [|by apply elem_of_nil in Hk].
        by apply list_elem_of_singleton in Hk as ->.
      * simpl. by apply IH.
    + destruct k as [|k]; simpl.
      * intros [= ->]. left. rewrite decide_True by done. by left.
      * intros Hk. right. exists k. split; [done | by apply IH].
Qed.

Lemma places_NoDup c l : NoDup (places c l).
Proof.
  induction l as [|x l IH]; simpl; [constructor|].
  apply NoDup_app. split_and!.
  - destruct (decide (x = c)); [apply NoDup_singleton | constructor].
  - intros k Hk (k' & -> & _)%list_elem_of_fmap.
    destruct (decide (x = c)); [|by apply elem_of_nil in Hk].
    by apply list_elem_of_singleton in Hk.
  - apply NoDup_fmap_2; [|done]. by intros ?? [= ->].
Qed.

Lemma places_length c l : length (places c l) = length (filter (λ x, x = c) l).
Proof.
  induction l as [|x l IH]; simpl; [done|].
  rewrite length_app, length_fmap, IH, filter_cons.
  by destruct (decide (x = c)).
Qed.

Lemma places_shuffled c shuffled :
  shuffled ≡ₚ cardImages ++ cardImages → length (places c shuffled) = 2.
Proof.
  intros Hperm. rewrite places_length, Hperm. by destruct c.
Qed.

Lemma partner_exists shuffled a c :
  shuffled ≡ₚ cardImages ++ cardImages → shuffled !! a = Some c →
  ∃ p, p ≠ a ∧ shuffled !! p = Some c ∧ ∀ k, shuffled !! k = Some c → k = a ∨ k = p.
Proof.
  intros Hperm Ha. pose proof (places_shuffled c shuffled Hperm) as Hlen.
  pose proof (places_NoDup c shuffled) as Hnd.
  apply places_spec in Ha.
  destruct (places c shuffled) as [|p [|q [|? ?]]] eqn:Hp; try done.
  apply NoDup_cons in Hnd as [Hpq _]. rewrite list_elem_of_singleton in Hpq.
  assert (Hall : ∀ k, shuffled !! k = Some c → k = p ∨ k = q).
  { intros k Hk%places_spec. rewrite Hp in Hk.
    apply elem_of_cons in Hk as [->|Hk]; [by left|].
    apply list_elem_of_singleton in Hk as ->. by right. }
  assert (Hp' : shuffled !! p = Some c) by (apply places_spec; rewrite Hp; by left).
  assert (Hq' : shuffled !! q = Some c)
    by (apply places_spec; rewrite Hp; right; by left).
  apply elem_of_cons in Ha as [->|Ha].
  - exists q. split_and!; [done..|]. intros k Hk. by apply Hall.
  - apply list_elem_of_singleton in Ha as ->. exists p. split_and!; [done..|].
    intros k Hk. destruct (Hall k Hk); auto.
Qed.

(** *** Finishing the game *)

Lemma runEvents_app es1 es2 w :
  runEvents w (es1 ++ es2) = runEvents w es1 ≫= λ w1, runEvents w1 es2.
Proof.
  revert w. induction es1 as [|e es1 IH]; intros w; simpl; [done|].
  destruct (dispatch w e) as [w1|]; simpl; [apply IH | done].
Qed.


Record Live (w : World) : Prop := {
  live_course : Course w;
  live_pending : isProcessing (game w) = true → ∃ i1 i2, FlipBack i1 i2 ∈ timers w
}.

Lemma dispatch_cards n w e w' :
  played n e = true → dispatch w e = Some w' → cards (game w') = cards (game w).
Proof.
  destruct e as [index|i dom|shuffled]; simpl; [| |done].
  - intros _. apply flipCard_cards.
  - intros _ (t & _ & [= <-])%bind_Some. by destruct t, dom.
Qed.

Lemma live_flipCard w index w' :
  Live w → index < length (cards (game w)) → flipCard w index = Some w' → Live w'.
Proof.
  intros [HC Hpend] Hindex Hflip. split; [by apply (course_flipCard w index)|].
  revert Hflip. unfold flipCard.
  destruct (isProcessing (game w)) eqn:Hproc; [intros [= <-] _; by apply Hpend|].
  case_bool_decide; [intros [= <-]; congruence|].
  case_bool_decide; [intros [= <-]; congruence|]. cbn [orb].
  case_bool_decide; [|intros [= <-]; cbn; congruence].
  unfold checkMatch. cbn [game flipped cards timers results matched attempts].
  destruct (flipped (game w) ++ [index]) as [|index1 [|index2 ?]]; try done.
  destruct (cards (game w) !! index1) as [card1|]; [|done].
  destruct (cards (game w) !! index2) as [card2|]; [|done]. cbn.
  case_bool_decide.
  - case_bool_decide; intros [= <-]; cbn; done.
  - intros [= <-] _. cbn. exists index1, index2. apply elem_of_app. right. by left.
Qed.

Lemma live_fire w i t :
  Live w → timers w !! i = Some t →
  Live (runTimer (mkWorld (game w) (delete i (timers w)) (results w)) t true).
Proof.
  intros [HC Hpend] Ht. split; [by apply course_fire|].
  destruct t as [index1 index2|]; cbn; [done|].
  intros (i1 & i2 & Hin)%Hpend. exists i1, i2.
  by apply (elem_of_delete_other _ i ShowResults).
Qed.

Lemma live_dispatch n w e w' :
  Live w → length (cards (game w)) = n → smooth n e = true →
  dispatch w e = Some w' → Live w'.
Proof.
  intros HL Hn He. destruct e as [index|i dom|shuffled]; simpl in *; [| |done].
  - apply bool_decide_eq_true in He. apply live_flipCard; [done | lia].
  - subst dom. intros (t & Ht & [= <-])%bind_Some. by apply live_fire.
Qed.

Lemma live_runEvents n es : ∀ w w',
  Live w → length (cards (game w)) = n → forallb (smooth n) es = true →
  runEvents w es = Some w' → Live w' ∧ cards (game w') = cards (game w).
Proof.
  induction es as [|e es IH]; intros w w' HL Hn Hes; simpl; [by intros [= <-]|].
  simpl in Hes. apply andb_true_iff in Hes as [He Hes].
  intros (w1 & Hd & Hrun)%bind_Some.
  pose proof (dispatch_cards n w e w1 (smooth_played _ _ He) Hd) as Hc.
  destruct (IH w1 w') as [HL' Hc']; [by apply (live_dispatch n w e) | by rewrite Hc | done..|].
  split; [done | by rewrite Hc'].
Qed.

Lemma unmatched_exists g :
  Inv g → size (matched g) < length (cards g) →
  ∃ i, i < length (cards g) ∧ i ∉ matched g.
Proof.
  intros HI Hlt.
  destruct (decide (Forall (λ i, i ∈ matched g) (seq 0 (length (cards g))))) as [Hall|Hex].
  - exfalso. rewrite Forall_forall in Hall.
    assert (length (cards g) ≤ size (matched g)); [|lia].
    rewrite <- (size_set_seq (C := gset nat) 0 (length (cards g))).
    apply subseteq_size. intros i Hi%elem_of_set_seq. apply Hall, elem_of_seq. lia.
  - apply not_Forall_Exists in Hex; [|apply _].
    apply Exists_exists in Hex as (i & Hi%elem_of_seq & Hni). exists i. split; [lia | done].
Qed.

(** Turning over the partner of the one card that is face up. *)
Lemma flipCard_partner w a p c :
  isProcessing (game w) = false → flipped (game w) = [a] →
  p ≠ a → p ∉ matched (game w) →
  cards (game w) !! a = Some c → cards (game w) !! p = Some c →
  ∃ w', flipCard w p = Some w'
        ∧ game w' = mkGame (cards (game w)) [] ({[ p ]} ∪ ({[ a ]} ∪ matched (game w)))
                           (S (attempts (game w))) false.
Proof.
  intros Hproc Hf Hpa Hpm Ha Hp. unfold flipCard. rewrite Hproc, Hf.
  rewrite (bool_decide_eq_false_2 (p ∈ [a])) by (by rewrite list_elem_of_singleton).
  rewrite (bool_decide_eq_false_2 (p ∈ matched (game w))) by done.
  cbn [orb app length]. rewrite bool_decide_eq_true_2 by done.
  unfold checkMatch. cbn [game flipped cards]. rewrite Ha, Hp. cbn.
  rewrite bool_decide_eq_true_2 by done. eexists. split; [reflexivity|].
  by case_bool_decide.
Qed.

(** Turning over a first card. *)
Lemma flipCard_first w i :
  isProcessing (game w) = false → flipped (game w) = [] → i ∉ matched (game w) →
  flipCard w i
  = Some (mkWorld (mkGame (cards (game w)) [i] (matched (game w)) (attempts (game w)) false)
                  (timers w) (results w)).
Proof.
  intros Hproc Hf Him. unfold flipCard. rewrite Hproc, Hf.
  rewrite (bool_decide_eq_false_2 (i ∈ [])) by apply not_elem_of_nil.
  rewrite (bool_decide_eq_false_2 (i ∈ matched (game w))) by done.
  cbn [orb app length]. by rewrite bool_decide_eq_false_2 by done.
Qed.

Lemma partner_unmatched g a c p :
  Inv g → a ∉ matched g → cards g !! a = Some c → cards g !! p = Some c →
  (∀ k, cards g !! k = Some c → k = a ∨ k = p) → p ∉ matched g.
Proof.
  intros HI Ha Hc Hpc Huniq Hp.
  destruct (inv_pairs _ HI p Hp) as (j & c' & Hj & Hjp & Hcp & Hcj).
  rewrite Hpc in Hcp. injection Hcp as <-.
  destruct (Huniq j Hcj) as [->| ->]; done.
Qed.

Lemma finish_idle shuffled n : ∀ w,
  Live w → cards (game w) = shuffled → shuffled ≡ₚ cardImages ++ cardImages →
  isProcessing (game w) = false →
  length shuffled - size (matched (game w)) ≤ n →
  ∃ es' w', forallb (smooth (length shuffled)) es' = true
            ∧ runEvents w es' = Some w' ∧ finished w'.
Proof.
  induction n as [|n IH]; intros w HL Hcards Hperm Hproc Hn.
  - exists [], w. split_and!; [done..|].
    apply (course_done _ (live_course _ HL)).
    pose proof (matched_bound _ (course_inv _ (live_course _ HL))). rewrite Hcards in *. lia.
  - pose proof (course_inv _ (live_course _ HL)) as HI.
    destruct (decide (size (matched (game w)) = length shuffled)) as [Hfull|Hnot].
    { exists [], w. split_and!; [done..|].
      apply (course_done _ (live_course _ HL)). by rewrite Hcards. }
    pose proof (matched_bound _ HI) as Hb. rewrite Hcards in Hb.
    (* the state with one card face up *)
    assert (Hone : ∃ es1 w1 a,
               forallb (smooth (length shuffled)) es1 = true
               ∧ runEvents w es1 = Some w1 ∧ Live w1 ∧ cards (game w1) = shuffled
               ∧ isProcessing (game w1) = false ∧ flipped (game w1) = [a]
               ∧ matched (game w1) = matched (game w)).
    { pose proof (inv_idle _ HI Hproc) as Hidle.
      destruct (flipped (game w)) as [|a [|? ?]] eqn:Hf; simpl in Hidle; [| |lia].
      - destruct (unmatched_exists _ HI) as (i & Hi & Him); [rewrite Hcards; lia|].
        rewrite Hcards in Hi.
        pose proof (flipCard_first w i Hproc Hf Him) as Hflip.
        eexists [Flip i], _, i. split_and!.
        + simpl. by rewrite bool_decide_eq_true_2.
        + simpl. rewrite Hflip. reflexivity.
        + apply (live_flipCard w i); [done | by rewrite Hcards | done].
        + done.
        + done.
        + done.
        + done.
      - exists [], w, a. by split_and!. }
    destruct Hone as (es1 & w1 & a & Hes1 & Hrun1 & HL1 & Hc1 & Hp1 & Hf1 & Hm1).
    pose proof (course_inv _ (live_course _ HL1)) as HI1.
    assert (Ha : a < length shuffled).
    { rewrite <- Hc1. apply (inv_valid _ HI1). rewrite Hf1. by left. }
    assert (Hau : a ∉ matched (game w1)).
    { apply (inv_apart _ HI1). rewrite Hf1. by left. }
    destruct (lookup_lt_is_Some_2 shuffled a Ha) as [c Hc].
    destruct (partner_exists shuffled a c Hperm Hc) as (p & Hpa & Hpc & Huniq).
    assert (Hpu : p ∉ matched (game w1)).
    { apply (partner_unmatched _ a c); rewrite ?Hc1; done. }
    destruct (flipCard_partner w1 a p c) as (w2 & Hflip & Hg2); rewrite ?Hc1; try done.
    assert (Hp : p < length shuffled) by (by apply lookup_lt_Some in Hpc).
    assert (HL2 : Live w2).
    { apply (live_flipCard w1 p); [done | by rewrite Hc1 | done]. }
    destruct (IH w2) as (es3 & w3 & Hes3 & Hrun3 & Hfin); try done.
    + by rewrite Hg2.
    + by rewrite Hg2.
    + rewrite Hg2. cbn. rewrite Hm1.
      assert (size (matched (game w)) < size ({[ p ]} ∪ ({[ a ]} ∪ matched (game w)))); [|lia].
      apply subset_size. split.
      * intros k Hk. rewrite !elem_of_union. auto.
      * intros Hsub. apply Hau. rewrite Hm1. apply Hsub.
        rewrite !elem_of_union, !elem_of_singleton. auto.
    + exists (es1 ++ [Flip p] ++ es3), w3. split_and!; [| |done].
      * rewrite !forallb_app. rewrite Hes1, Hes3. simpl.
        by rewrite bool_decide_eq_true_2.
      * rewrite !runEvents_app, Hrun1. cbn. rewrite Hflip. exact Hrun3.
Qed.

(** X23. The card game can always be finished.  Whatever the shuffle of
    the twelve cards, from every state reached by clicks on cards and
    callbacks that find the page as [render()] left it, some further clicks
    and callbacks lead to a state where every card is matched and the
    results screen is asked for. *)
Theorem card_game_can_always_be_finished
        (shuffled : list CardName) (es : list Event) (w : World) :
  shuffled ≡ₚ cardImages ++ cardImages →
  forallb (smooth (length shuffled)) es = true →
  runEvents (renderGame2_Main shuffled) es = Some w →
  ∃ es' w', forallb (smooth (length shuffled)) es' = true
            ∧ runEvents w es' = Some w' ∧ finished w'
            ∧ ∀ i, i < length shuffled → i ∈ matched (game w').
Proof.
  intros Hperm Hes Hrun.
  assert (Hpos : 0 < length shuffled) by (rewrite Hperm; simpl; lia).
  assert (HL0 : Live (renderGame2_Main shuffled)).
  { split; [|done]. split; [apply inv_new|]. unfold finished. cbn. rewrite size_empty. split.
    - intros [Hin|Hr]; [by apply elem_of_nil in Hin | done].
    - lia. }
  destruct (live_runEvents (length shuffled) es _ w HL0 eq_refl Hes Hrun) as [HL Hc].
  cbn in Hc.
  assert (Hidle : ∃ es1 w1, forallb (smooth (length shuffled)) es1 = true
                            ∧ runEvents w es1 = Some w1 ∧ Live w1
                            ∧ cards (game w1) = shuffled
                            ∧ isProcessing (game w1) = false).
  { destruct (isProcessing (game w)) eqn:Hproc; [|by exists [], w].
    destruct (live_pending _ HL Hproc) as (i1 & i2 & (i & Hi)%list_elem_of_lookup_1).
    eexists [Fire i true], _. split_and!.
    - done.
    - simpl. rewrite Hi. reflexivity.
    - by apply live_fire.
    - done.
    - done. }
  destruct Hidle as (es1 & w1 & Hes1 & Hrun1 & HL1 & Hc1 & Hp1).
  destruct (finish_idle shuffled (length shuffled) w1 HL1 Hc1 Hperm Hp1)
    as (es2 & w2 & Hes2 & Hrun2 & Hfin); [lia|].
  exists (es1 ++ es2), w2. split_and!.
  - by rewrite forallb_app, Hes1, Hes2.
  - by rewrite runEvents_app, Hrun1.
  - done.
  - destruct (live_runEvents (length shuffled) es2 w1 w2 HL1) as [HL2 Hc2];
      [by rewrite Hc1 | done..|].
    pose proof (live_course _ HL2) as [HI2 Hdone2].
    intros i Hi. apply matched_all; [done | by apply Hdone2 |].
    by rewrite Hc2, Hc1.
Qed.

Lemma card_game_can_always_be_finished_witness :
  ∃ w, runEvents (renderGame2_Main (cardImages ++ cardImages))
                 [Flip 0; Flip 1; Flip 3] = Some w
       ∧ isProcessing (game w) = true
       ∧ ∃ es' w', forallb (smooth (length (cardImages ++ cardImages))) es' = true
                   ∧ runEvents w es' = Some w' ∧ finished w'
                   ∧ ∀ i, i < length (cardImages ++ cardImages) → i ∈ matched (game w').
Proof.
  eexists. split; [by vm_compute|]. split; [by vm_compute|].
  apply (card_game_can_always_be_finished (cardImages ++ cardImages)
           [Flip 0; Flip 1; Flip 3]); by vm_compute.
Defined.

End Game2Facts.

(** ** Sample evaluations *)

Example neighbours_even :
  hash <$> getNeighbors (mkSquare 5 4) = [(4,4); (6,4); (4,3); (5,3); (4,5); (5,5)].
Proof. reflexivity. Qed.

Example neighbours_odd :
  hash <$> getNeighbors (mkSquare 5 5) = [(4,5); (6,5); (5,4); (6,4); (5,6); (6,6)].
Proof. reflexivity. Qed.

Example neighbours_negative_odd_row :
  hash <$> getNeighbors (mkSquare 0 (-1))
  = [(-1,-1); (1,-1); (-1,-2); (0,-2); (-1,0); (0,0)].
Proof. reflexivity. Qed.

Example enclosed_lobster_has_no_route :
  findShortestEscapePath_run {[ (4, 5); (6, 5); (5, 4); (6, 4); (5, 6); (6, 6) ]}
                             board11x10 11 10 (mkSquare 5 5)
  = Some None.
Proof. vm_compute. reflexivity. Qed.

Example rotation_down_left :
  getRotationForDirection (mkLobster (mkSquare 5 5) 0) (mkSquare 5 6) = 210.
Proof. reflexivity. Qed.
